(** * Shortest paths: Dijkstra and Floyd-Warshall (prac_gp_daa.py)

    A shallow embedding of the graph input module, of [dijkstra] and of
    [floyd_warshall], with the properties the specification states about
    them, and of the console around them: the input functions, the display
    functions, the graphs drawn and the menu of [main].

    Python integers are unbounded, so they are [Z] with no wrap-around;
    [sys.maxsize] is the 64-bit CPython value [2^63 - 1].  Python
    dictionaries keep their insertion order and are iterated in that order,
    so a dictionary is an association list with [dict_get] reading the
    first binding of a key and [dict_set] overwriting in place or appending.
    Exceptions are the [Raise] case of [result]. *)

From stdpp Require Import base list strings pretty.
From Stdlib Require Import ZArith Lia.

Local Open Scope Z_scope.

(** ** Python values: exceptions, dictionaries, [heapq] *)

Inductive exn : Type :=
| KeyError (key : string)
| ValueError
| IndexError
| TypeError.

Inductive result (A : Type) : Type :=
| Ok (a : A)
| Raise (e : exn).
Arguments Ok {A} a.
Arguments Raise {A} e.

#[global] Instance result_ret : MRet result := fun A a => Ok a.
#[global] Instance result_bind : MBind result := fun A B k r =>
  match r with
  | Ok a => k a
  | Raise e => Raise e
  end.

(** A [for] loop whose body may raise: the first exception ends the loop. *)
Fixpoint foldM {A B : Type} (f : B -> A -> result B) (l : list A) (b : B)
  : result B :=
  match l with
  | [] => Ok b
  | a :: l' => b' ← f b a; foldM f l' b'
  end.

Abbreviation dict V := (list (string * V)).

Fixpoint dict_get {V : Type} (d : dict V) (k : string) : option V :=
  match d with
  | [] => None
  | (k', v) :: d' => if decide (k' = k) then Some v else dict_get d' k
  end.

(** [d[k] = v] *)
Fixpoint dict_set {V : Type} (d : dict V) (k : string) (v : V) : dict V :=
  match d with
  | [] => [(k, v)]
  | (k', v') :: d' =>
      if decide (k' = k) then (k', v) :: d' else (k', v') :: dict_set d' k v
  end.

Definition dict_keys {V : Type} (d : dict V) : list string := d.*1.

(** [d[k]] as an expression: [KeyError] when [k] is absent. *)
Definition getitem {V : Type} (d : dict V) (k : string) : result V :=
  match dict_get d k with
  | Some v => Ok v
  | None => Raise (KeyError k)
  end.

(** [{k: f(k) for k in ks}] *)
Definition dict_comp {V : Type} (ks : list string) (f : string -> V) : dict V :=
  fold_left (fun d k => dict_set d k (f k)) ks [].

Definition maxsize : Z := 2 ^ 63 - 1.

(** [heapq] on a list of [(distance, vertex)] tuples.  The only thing the
    program observes of the heap is which tuple [heappop] returns and
    whether the heap is empty, so the heap is the list of the tuples it
    holds: [heappush] adds one, [heappop] takes out the least one in
    Python's tuple order (first component, then the strings). *)
Abbreviation entry := (Z * string)%type.

Definition entry_lt (a b : entry) : bool :=
  (a.1 <? b.1) || ((a.1 =? b.1) && String.ltb a.2 b.2).

Fixpoint heap_min (x : entry) (l : list entry) : entry :=
  match l with
  | [] => x
  | y :: l' => heap_min (if entry_lt y x then y else x) l'
  end.

Fixpoint remove_first (x : entry) (l : list entry) : list entry :=
  match l with
  | [] => []
  | y :: l' => if decide (y = x) then l' else y :: remove_first x l'
  end.

Definition heappush (pq : list entry) (x : entry) : list entry := x :: pq.

Definition heappop (pq : list entry) : option (entry * list entry) :=
  match pq with
  | [] => None
  | x :: l => let m := heap_min x l in Some (m, remove_first m pq)
  end.

(** ** Graph input module *)

Abbreviation graph_t := (dict (dict Z)).

(** [vertices.append(safe_str(...))]: the label read is appended, whatever
    the list already holds. *)
Definition add_vertex (vertices : list string) (label : string) : list string :=
  vertices ++ [label].

(** The loop [for i in range(n): vertices.append(...)] on the labels read. *)
Definition read_vertices (labels : list string) : list string :=
  fold_left add_vertex labels [].

(** [graph = {v: {} for v in vertices}] *)
Definition empty_graph (vertices : list string) : graph_t :=
  dict_comp vertices (fun _ => []).

(** One pass of the inner [while True] of the edge loop, on a line already
    split in three whose weight is a run of digits read as [w]: the line is
    refused ([None], the loop asks again) when an end point is not in
    [vertices], and otherwise [graph[u][v] = int(w)]. *)
Definition add_edge (vertices : list string) (graph : graph_t)
    (u v : string) (w : N) : result (option graph_t) :=
  if bool_decide (u ∉ vertices) || bool_decide (v ∉ vertices) then Ok None
  else
    adj ← getitem graph u;
    Ok (Some (dict_set graph u (dict_set adj v (Z.of_N w)))).

(** The edge loop over the lines typed: a refused line leaves the graph as
    it is. *)
Definition read_edges (vertices : list string) (graph : graph_t)
    (lines : list (string * string * N)) : result graph_t :=
  foldM (fun g '(u, v, w) =>
           r ← add_edge vertices g u v w;
           Ok (default g r)) lines graph.

Definition input_graph (labels : list string)
    (lines : list (string * string * N)) : result (graph_t * list string) :=
  let vertices := read_vertices labels in
  graph ← read_edges vertices (empty_graph vertices) lines;
  Ok (graph, vertices).

(** ** Dijkstra *)

(** The body of [for neighbor, weight in graph[current_vertex].items()]. *)
Definition relax_edge (current_dist : Z) (st : dict Z * list entry)
    (e : string * Z) : result (dict Z * list entry) :=
  let '(distances, pq) := st in
  let '(neighbor, weight) := e in
  let new_dist := current_dist + weight in
  dn ← getitem distances neighbor;
  if new_dist <? dn
  then Ok (dict_set distances neighbor new_dist, heappush pq (new_dist, neighbor))
  else Ok (distances, pq).

Inductive loop_state : Type :=
| Running (distances : dict Z) (pq : list entry)
| Finished (distances : dict Z)
| Failed (e : exn).

(** The test of [while pq:] and one run of its body. *)
Definition dijkstra_iter (graph : graph_t) (distances : dict Z)
    (pq : list entry) : loop_state :=
  match heappop pq with
  | None => Finished distances
  | Some ((current_dist, current_vertex), pq') =>
      match getitem distances current_vertex with
      | Raise e => Failed e
      | Ok d =>
          if current_dist >? d then Running distances pq'
          else
            match getitem graph current_vertex with
            | Raise e => Failed e
            | Ok adj =>
                match foldM (relax_edge current_dist) adj (distances, pq') with
                | Raise e => Failed e
                | Ok (distances', pq'') => Running distances' pq''
                end
            end
      end
  end.

(** The [while] loop, run for at most [2 ^ depth] iterations: each level
    runs the level below twice, and stops as soon as the loop has ended. *)
Fixpoint dijkstra_while (depth : nat) (graph : graph_t) (distances : dict Z)
    (pq : list entry) : loop_state :=
  match depth with
  | O => dijkstra_iter graph distances pq
  | S depth' =>
      match dijkstra_while depth' graph distances pq with
      | Running distances' pq' => dijkstra_while depth' graph distances' pq'
      | st => st
      end
  end.

(** [dijkstra(graph, start)].  [None] stands for a loop still running after
    [2 ^ (64 + len(graph))] iterations, which [dijkstra_returns] below shows
    does not happen on a graph with non-negative weights. *)
Definition dijkstra (graph : graph_t) (start : string)
  : option (result (dict Z)) :=
  let distances := dict_comp (dict_keys graph) (fun _ => maxsize) in
  let distances := dict_set distances start 0 in
  let pq := [(0, start)] in
  match dijkstra_while (64 + length graph) graph distances pq with
  | Finished distances' => Some (Ok distances')
  | Failed e => Some (Raise e)
  | Running _ _ => None
  end.

(** Choice 1 of the menu of [main]: an unknown source is refused with
    the message INVALID SOURCE VERTEX before [dijkstra] is called. *)
Inductive query_outcome : Type :=
| InvalidSourceVertex
| QueryResult (r : option (result (dict Z))).

Definition single_source_query (graph : graph_t) (vertices : list string)
    (source : string) : query_outcome :=
  if bool_decide (source ∈ vertices) then QueryResult (dijkstra graph source)
  else InvalidSourceVertex.

(** ** Floyd-Warshall *)

Abbreviation matrix := (list (list Z)).

(** [l[i]] for [i] in [range]: [IndexError] past the end. *)
Definition list_getitem {A : Type} (l : list A) (i : nat) : result A :=
  match l !! i with
  | Some x => Ok x
  | None => Raise IndexError
  end.

(** [dist[i][j]] as an expression *)
Definition get_cell (dist : matrix) (i j : nat) : result Z :=
  row ← list_getitem dist i;
  list_getitem row j.

(** [dist[i][j] = x] *)
Definition set_cell (dist : matrix) (i j : nat) (x : Z) : result matrix :=
  row ← list_getitem dist i;
  if decide (j < length row)%nat then Ok (<[i := <[j := x]> row]> dist)
  else Raise IndexError.

(** [vertices.index(x)]: the first position of [x], [ValueError] if none. *)
Fixpoint list_index (l : list string) (x : string) : result nat :=
  match l with
  | [] => Raise ValueError
  | y :: l' => if decide (y = x) then Ok O else i ← list_index l' x; Ok (S i)
  end.

(** [[[sys.maxsize]*n for _ in range(n)]] *)
Definition fresh_matrix (n : nat) : matrix := replicate n (replicate n maxsize).

(** [for i in range(n): dist[i][i] = 0] *)
Definition set_diagonal (n : nat) (dist : matrix) : result matrix :=
  foldM (fun d i => set_cell d i i 0) (seq 0 n) dist.

(** [for j in graph[vertices[i]]: dist[i][vertices.index(j)] = graph[vertices[i]][j]] *)
Definition set_edges_row (graph : graph_t) (vertices : list string)
    (dist : matrix) (i : nat) : result matrix :=
  vi ← list_getitem vertices i;
  adj ← getitem graph vi;
  foldM (fun d j =>
           w ← getitem adj j;
           c ← list_index vertices j;
           set_cell d i c w) (dict_keys adj) dist.

Definition set_edges (graph : graph_t) (vertices : list string) (n : nat)
    (dist : matrix) : result matrix :=
  foldM (set_edges_row graph vertices) (seq 0 n) dist.

(** The matrix D0: lines 101 to 109. *)
Definition initial_matrix (graph : graph_t) (vertices : list string)
  : result matrix :=
  let n := length vertices in
  dist ← set_diagonal n (fresh_matrix n);
  set_edges graph vertices n dist.

(** The body of the innermost loop:
    [if dist[i][j] > dist[i][k] + dist[k][j]: dist[i][j] = dist[i][k] + dist[k][j]].
    The sum is read twice in the source, from cells that nothing writes in
    between. *)
Definition relax_cell (k i j : nat) (dist : matrix) : result matrix :=
  dij ← get_cell dist i j;
  dik ← get_cell dist i k;
  dkj ← get_cell dist k j;
  if dij >? dik + dkj then set_cell dist i j (dik + dkj) else Ok dist.

(** [for j in range(n)] *)
Definition pivot_row (n k : nat) (dist : matrix) (i : nat) : result matrix :=
  foldM (fun d j => relax_cell k i j d) (seq 0 n) dist.

(** [for i in range(n)] *)
Definition pivot_pass (n k : nat) (dist : matrix) : result matrix :=
  foldM (pivot_row n k) (seq 0 n) dist.

(** The body of [for k in range(n)]: the pass, then
    [all_matrices.append(copy.deepcopy(dist))].  In this model of values
    the copy is the matrix itself; the model with a store of list objects
    comes next, and [store_floyd_warshall_refines] relates the two. *)
Definition pivot_step (n : nat) (st : matrix * list matrix) (k : nat)
  : result (matrix * list matrix) :=
  let '(dist, all_matrices) := st in
  dist' ← pivot_pass n k dist;
  Ok (dist', all_matrices ++ [dist']).

Definition floyd_warshall (graph : graph_t) (vertices : list string)
  : result (matrix * list matrix) :=
  let n := length vertices in
  dist ← initial_matrix graph vertices;
  foldM (pivot_step n) (seq 0 n) (dist, [dist]).

(** [floyd_warshall] stopped after the first [m] pivots. *)
Definition floyd_warshall_upto (m : nat) (graph : graph_t)
    (vertices : list string) : result (matrix * list matrix) :=
  let n := length vertices in
  dist ← initial_matrix graph vertices;
  foldM (pivot_step n) (seq 0 m) (dist, [dist]).

(** The order in which the three nested loops visit [(k, i, j)]. *)
Definition pass_schedule (n k : nat) : list (nat * nat * nat) :=
  flat_map (fun i => map (fun j => (k, i, j)) (seq 0 n)) (seq 0 n).

Definition schedule (n : nat) : list (nat * nat * nat) :=
  flat_map (pass_schedule n) (seq 0 n).

Definition relax_at (dist : matrix) (kij : nat * nat * nat) : result matrix :=
  let '(k, i, j) := kij in relax_cell k i j dist.

(** The working matrix [dist] after the first [t] runs of the body of the
    innermost loop. *)
Definition working_matrix (graph : graph_t) (vertices : list string) (t : nat)
  : result matrix :=
  dist ← initial_matrix graph vertices;
  foldM relax_at (take t (schedule (length vertices))) dist.

(** ** Floyd-Warshall on a store of list objects

    [dist] is a list object whose items are list objects, written in
    place, and [copy.deepcopy] builds new objects.  To tell a copy from an
    alias, this second model keeps the objects in a store: a location holds
    a list of integers or a list of locations, a new object takes the next
    free location, and an item assignment overwrites the object at its
    location. *)

Inductive obj : Type :=
| IntList (cells : list Z)
| RefList (items : list nat).

Abbreviation store := (list obj).

(** A computation on the store that may raise. *)
Definition prog (A : Type) : Type := store -> result (A * store).

#[global] Instance prog_ret : MRet prog := fun A a h => Ok (a, h).
#[global] Instance prog_bind : MBind prog := fun A B k p h =>
  match p h with
  | Ok (a, h') => k a h'
  | Raise e => Raise e
  end.

Definition lift {A : Type} (r : result A) : prog A := fun h =>
  match r with
  | Ok a => Ok (a, h)
  | Raise e => Raise e
  end.

Fixpoint foldP {A B : Type} (f : B -> A -> prog B) (l : list A) (b : B) : prog B :=
  match l with
  | [] => mret b
  | a :: l' => b' ← f b a; foldP f l' b'
  end.

Definition alloc (o : obj) : prog nat := fun h => Ok (length h, h ++ [o]).

Definition read_ints (l : nat) : prog (list Z) := fun h =>
  match h !! l with
  | Some (IntList cells) => Ok (cells, h)
  | _ => Raise TypeError
  end.

Definition read_refs (l : nat) : prog (list nat) := fun h =>
  match h !! l with
  | Some (RefList items) => Ok (items, h)
  | _ => Raise TypeError
  end.

Definition write (l : nat) (o : obj) : prog unit := fun h => Ok (tt, <[l := o]> h).

(** [dist[i][j]] *)
Definition load_cell (dist : nat) (i j : nat) : prog Z :=
  rows ← read_refs dist;
  r ← lift (list_getitem rows i);
  cells ← read_ints r;
  lift (list_getitem cells j).

(** [dist[i][j] = x]: the row object at [dist[i]] is overwritten. *)
Definition store_cell (dist : nat) (i j : nat) (x : Z) : prog unit :=
  rows ← read_refs dist;
  r ← lift (list_getitem rows i);
  cells ← read_ints r;
  if decide (j < length cells)%nat then write r (IntList (<[j := x]> cells))
  else lift (Raise IndexError).

(** [[[sys.maxsize]*n for _ in range(n)]]: a new row object at each turn
    of the comprehension, then the list of the rows. *)
Definition new_matrix (n : nat) : prog nat :=
  rows ← foldP (fun rows _ => r ← alloc (IntList (replicate n maxsize));
                              mret (rows ++ [r])) (seq 0 n) [];
  alloc (RefList rows).

(** [copy.deepcopy] of the rows of a matrix.  [memo] maps the rows already
    copied to their copies, as the memo dictionary of [deepcopy] does, so a
    row met twice is copied once; integers are not copied. *)
Fixpoint deepcopy_rows (memo : list (nat * nat)) (rows : list nat)
  : prog (list nat) :=
  match rows with
  | [] => mret []
  | r :: rows' =>
      match list_find (fun p => p.1 = r) memo with
      | Some (_, (_, r')) =>
          copies ← deepcopy_rows memo rows'; mret (r' :: copies)
      | None =>
          cells ← read_ints r;
          r' ← alloc (IntList cells);
          copies ← deepcopy_rows ((r, r') :: memo) rows';
          mret (r' :: copies)
      end
  end.

(** [copy.deepcopy(dist)] *)
Definition deepcopy (dist : nat) : prog nat :=
  rows ← read_refs dist;
  copies ← deepcopy_rows [] rows;
  alloc (RefList copies).

Definition store_set_diagonal (n : nat) (dist : nat) : prog unit :=
  foldP (fun _ i => store_cell dist i i 0) (seq 0 n) tt.

Definition store_set_edges_row (graph : graph_t) (vertices : list string)
    (dist : nat) (i : nat) : prog unit :=
  vi ← lift (list_getitem vertices i);
  adj ← lift (getitem graph vi);
  foldP (fun _ j =>
           w ← lift (getitem adj j);
           c ← lift (list_index vertices j);
           store_cell dist i c w) (dict_keys adj) tt.

Definition store_initial_matrix (graph : graph_t) (vertices : list string)
  : prog nat :=
  let n := length vertices in
  dist ← new_matrix n;
  _ ← store_set_diagonal n dist;
  _ ← foldP (fun _ i => store_set_edges_row graph vertices dist i) (seq 0 n) tt;
  mret dist.

Definition store_relax_cell (dist : nat) (k i j : nat) : prog unit :=
  dij ← load_cell dist i j;
  dik ← load_cell dist i k;
  dkj ← load_cell dist k j;
  if dij >? dik + dkj then store_cell dist i j (dik + dkj) else mret tt.

Definition store_pivot_pass (n : nat) (dist : nat) (k : nat) : prog unit :=
  foldP (fun _ i => foldP (fun _ j => store_relax_cell dist k i j) (seq 0 n) tt)
        (seq 0 n) tt.

(** The body of [for k in range(n)], on the locations of [dist] and of the
    matrices of [all_matrices]. *)
Definition store_pivot_step (n : nat) (st : nat * list nat) (k : nat)
  : prog (nat * list nat) :=
  let '(dist, all_matrices) := st in
  _ ← store_pivot_pass n dist k;
  copy ← deepcopy dist;
  mret (dist, all_matrices ++ [copy]).

(** [floyd_warshall] stopped after the first [m] pivots. *)
Definition store_floyd_warshall_upto (m : nat) (graph : graph_t)
    (vertices : list string) : prog (nat * list nat) :=
  let n := length vertices in
  dist ← store_initial_matrix graph vertices;
  copy ← deepcopy dist;
  foldP (store_pivot_step n) (seq 0 m) (dist, [copy]).

Definition store_floyd_warshall (graph : graph_t) (vertices : list string)
  : prog (nat * list nat) :=
  store_floyd_warshall_upto (length vertices) graph vertices.

(** The matrix that the list object at [m] holds in the store [h]. *)
Definition row_at (h : store) (r : nat) : option (list Z) :=
  match h !! r with
  | Some (IntList cells) => Some cells
  | _ => None
  end.

Definition rows_at (h : store) (m : nat) : option (list nat) :=
  match h !! m with
  | Some (RefList items) => Some items
  | _ => None
  end.

Definition matrix_at (h : store) (m : nat) : option matrix :=
  rows ← rows_at h m; mapM (row_at h) rows.

(** The objects a matrix is made of: its own location and its rows. *)
Definition objects_at (h : store) (m : nat) : list nat :=
  m :: default [] (rows_at h m).

(** ** What the specification speaks of: edges, walks, distances *)

(** [graph[u][v] == w] *)
Definition edge (graph : graph_t) (u v : string) (w : Z) : Prop :=
  exists adj, dict_get graph u = Some adj /\ dict_get adj v = Some w.

(** [walk graph s v a]: some path from [s] to [v] has total weight [a]. *)
Inductive walk (graph : graph_t) (s : string) : string -> Z -> Prop :=
| walk_nil : s ∈ dict_keys graph -> walk graph s s 0
| walk_snoc u v a w :
    walk graph s u a -> edge graph u v w -> walk graph s v (a + w).

Definition reachable (graph : graph_t) (s v : string) : Prop :=
  exists a, walk graph s v a.

(** [d] is the minimum total weight over all paths from [s] to [v]. *)
Definition min_distance (graph : graph_t) (s v : string) (d : Z) : Prop :=
  walk graph s v d /\ forall a, walk graph s v a -> d <= a.

(** A directed graph with non-negative weights, as a dictionary of
    dictionaries: keys are not repeated, and every edge ends at a vertex
    of the graph. *)
Record graph_ok (graph : graph_t) : Prop := {
  ok_keys : NoDup (dict_keys graph);
  ok_adj_keys : forall u adj, dict_get graph u = Some adj -> NoDup (dict_keys adj);
  ok_closed : forall u v w, edge graph u v w -> v ∈ dict_keys graph;
  ok_nonneg : forall u v w, edge graph u v w -> 0 <= w
}.

(** [graph_ok], computed. *)
Definition graph_okb (graph : graph_t) : bool :=
  bool_decide (NoDup (dict_keys graph)) &&
  forallb (fun '(_, adj) =>
             bool_decide (NoDup (dict_keys adj)) &&
             forallb (fun '(v, w) =>
                        bool_decide (v ∈ dict_keys graph) && (0 <=? w)) adj)
          graph.

(** Every weight of [graph] is between [lo] and [hi], computed. *)
Definition weights_withinb (lo hi : Z) (graph : graph_t) : bool :=
  forallb (fun '(_, adj) =>
             forallb (fun '(_, w) => (lo <=? w) && (w <=? hi)) adj) graph.

(** One edge, heavier than [sys.maxsize]. *)
Definition heavy_edge_graph : graph_t :=
  [("A", [("B", maxsize + 1)]); ("B", [])]%string.

(** What [floyd_warshall] needs of its arguments to raise nothing: every
    label of [vertices] is a key of [graph], and every edge ends at a label
    of [vertices]. *)
Record fw_ok (graph : graph_t) (vertices : list string) : Prop := {
  fw_keys : forall v, v ∈ vertices -> v ∈ dict_keys graph;
  fw_closed : forall u v w, edge graph u v w -> v ∈ vertices
}.

(** An [n] by [n] matrix. *)
Definition square (n : nat) (dist : matrix) : Prop :=
  length dist = n /\ Forall (fun row => length row = n) dist.

(** Every cell satisfies [P]. *)
Definition all_cells (P : Z -> Prop) (dist : matrix) : Prop :=
  Forall (Forall P) dist.

(** An edge A to C heavier than [sys.maxsize], and no edge from A to B. *)
Definition heavy_pivot_graph : graph_t :=
  [("A", [("C", 2 ^ 64)]); ("B", [("C", 1)]); ("C", [])]%string.
Definition heavy_pivot_vertices : list string := ["A"; "B"; "C"]%string.

(** One vertex with an edge to itself. *)
Definition self_loop_graph : graph_t := [("A", [("A", 5)])]%string.
Definition self_loop_vertices : list string := ["A"]%string.

(** The scenario of the specification: A to B 4, B to C 2, A to C 10. *)
Definition scenario_labels : list string := ["A"; "B"; "C"]%string.
Definition scenario_lines : list (string * string * N) :=
  [("A", "B", 4%N); ("B", "C", 2%N); ("A", "C", 10%N)]%string.
Definition scenario_graph : graph_t :=
  [("A", [("B", 4); ("C", 10)]); ("B", [("C", 2)]); ("C", [])]%string.
Definition scenario_d0 : matrix :=
  [[0; 4; 10]; [maxsize; 0; 2]; [maxsize; maxsize; 0]].
Definition scenario_dist : matrix :=
  [[0; 4; 6]; [maxsize; 0; 2]; [maxsize; maxsize; 0]].
Definition scenario_snapshots : list matrix :=
  [scenario_d0; scenario_d0; scenario_dist; scenario_dist].

(** ** The store against the matrices *)

(** The list object at [m] has the row objects [rows], which hold the
    rows of [d]. *)
Definition holds (h : store) (m : nat) (rows : list nat) (d : matrix) : Prop :=
  h !! m = Some (RefList rows) /\
  Forall2 (fun r row => h !! r = Some (IntList row)) rows d.

(** A run on the store and a run on values end alike: with the same
    exception, or with results that [R] relates. *)
Definition sim {A B : Type} (R : A -> store -> B -> Prop)
    (p : result (A * store)) (q : result B) : Prop :=
  match p, q with
  | Ok (a, h'), Ok b => R a h' b
  | Raise e, Raise e' => e = e'
  | _, _ => False
  end.

(** While the loops write in [dist]: the store [h] holds [d] at [dist] and
    is the store [h0] everywhere but at the rows of [dist]. *)
Definition dist_rel (dist : nat) (rows : list nat) (h0 h : store) (d : matrix)
  : Prop :=
  holds h dist rows d /\ length h = length h0 /\
  forall l, l ∉ rows -> h !! l = h0 !! l.

(** Between two pivots: [dist] holds the working matrix in rows of its
    own, each location of [all_matrices] holds its snapshot, and no object
    of a snapshot is an object of [dist] or of another snapshot. *)
Record fw_rep (h : store) (dist : nat) (all_matrices : list nat)
    (d : matrix) (snapshots : list matrix) : Prop := {
  rep_dist : exists rows, holds h dist rows d /\ NoDup rows;
  rep_all : Forall2 (fun c m => matrix_at h c = Some m) all_matrices snapshots;
  rep_sep : forall c x,
    c ∈ all_matrices -> x ∈ objects_at h c -> x ∉ objects_at h dist;
  rep_distinct : forall k k' c c' x,
    k <> k' -> all_matrices !! k = Some c -> all_matrices !! k' = Some c' ->
    x ∈ objects_at h c -> x ∉ objects_at h c'
}.

(** What relates the two runs between two pivots, from a state
    [(dist, all0)] and [snapshots0] on. *)
Definition run_rel (dist : nat) (all0 : list nat) (snapshots0 : list matrix)
    (st : nat * list nat) (h : store) (ps : matrix * list matrix) : Prop :=
  fw_rep h st.1 st.2 ps.1 ps.2 /\ st.1 = dist /\
  all0 `prefix_of` st.2 /\ snapshots0 `prefix_of` ps.2.

(** The scenario on the store, stopped after one pivot and at the end. *)
Definition scenario_run_1 : nat * list nat * store :=
  Eval vm_compute in
    match store_floyd_warshall_upto 1 scenario_graph scenario_labels [] with
    | Ok x => x
    | Raise _ => (O, [], [])
    end.
Definition scenario_run_3 : nat * list nat * store :=
  Eval vm_compute in
    match store_floyd_warshall_upto 3 scenario_graph scenario_labels [] with
    | Ok x => x
    | Raise _ => (O, [], [])
    end.

(** What holds of the graph while the edges are read. *)
Record built (vertices : list string) (graph : graph_t) : Prop := {
  built_NoDup : NoDup (dict_keys graph);
  built_keys : forall v, v ∈ dict_keys graph <-> v ∈ vertices;
  built_adj : forall u adj, dict_get graph u = Some adj ->
    NoDup (dict_keys adj) /\
    forall v w, dict_get adj v = Some w -> v ∈ vertices /\ 0 <= w
}.

(** ** Paths through the matrix D0 *)

(** The cell as a number, 0 where [get_cell] raises. *)
Definition cell (dist : matrix) (i j : nat) : Z :=
  match get_cell dist i j with
  | Ok x => x
  | Raise _ => 0
  end.

(** The cost, read in the matrix of costs [c], of going from [i] to [j]
    through the vertices of [p] in turn. *)
Fixpoint path_cost (c : nat -> nat -> Z) (i : nat) (p : list nat) (j : nat) : Z :=
  match p with
  | [] => c i j
  | v :: p' => c i v + path_cost c v p' j
  end.

(** [d] holds, for every pair of vertices below [n], the least cost of a
    path through vertices below [k]. *)
Definition least_below (n : nat) (c : nat -> nat -> Z) (k : nat)
    (d : nat -> nat -> Z) : Prop :=
  (forall i j p, (i < n)%nat -> (j < n)%nat -> Forall (fun v => (v < k)%nat) p ->
     d i j <= path_cost c i p j) /\
  (forall i j, (i < n)%nat -> (j < n)%nat ->
     exists p, Forall (fun v => (v < k)%nat) p /\ d i j = path_cost c i p j).

(** ** Invariants of the loops of [dijkstra] *)

Definition dict_sum (d : dict Z) : Z := foldr (fun kv s => kv.2 + s) 0 d.

(** What decreases at each iteration of [while pq:]. *)
Definition loop_measure (distances : dict Z) (pq : list entry) : Z :=
  dict_sum distances + Z.of_nat (length pq).

(** Between two iterations of [while pq:]: each recorded distance below
    [sys.maxsize] is the weight of a path, and each edge leaving a vertex
    with such a distance is either relaxed or still has its vertex in the
    heap at that distance. *)
Record dijkstra_inv (graph : graph_t) (start : string)
    (distances : dict Z) (pq : list entry) : Prop := {
  inv_keys : dict_keys distances = dict_keys graph;
  inv_start : dict_get distances start = Some 0;
  inv_range : forall v x, dict_get distances v = Some x -> 0 <= x <= maxsize;
  inv_walk : forall v x,
    dict_get distances v = Some x -> x < maxsize -> walk graph start v x;
  inv_queue : forall x v,
    (x, v) ∈ pq -> 0 <= x /\ exists y, dict_get distances v = Some y /\ y <= x;
  inv_relaxed : forall u v w x,
    edge graph u v w -> dict_get distances u = Some x -> x < maxsize ->
    (x, u) ∈ pq \/ exists y, dict_get distances v = Some y /\ y <= x + w
}.

(** Inside the [for] loop over the edges of [u], popped at distance [cd],
    after the edges [visited]. *)
Record relax_inv (graph : graph_t) (start u : string) (cd : Z)
    (visited : dict Z) (distances : dict Z) (pq : list entry) : Prop := {
  rel_keys : dict_keys distances = dict_keys graph;
  rel_start : dict_get distances start = Some 0;
  rel_range : forall v x, dict_get distances v = Some x -> 0 <= x <= maxsize;
  rel_walk : forall v x,
    dict_get distances v = Some x -> x < maxsize -> walk graph start v x;
  rel_queue : forall x v,
    (x, v) ∈ pq -> 0 <= x /\ exists y, dict_get distances v = Some y /\ y <= x;
  rel_current : dict_get distances u = Some cd;
  rel_others : forall u' v w x,
    u' <> u -> edge graph u' v w -> dict_get distances u' = Some x -> x < maxsize ->
    (x, u') ∈ pq \/ exists y, dict_get distances v = Some y /\ y <= x + w;
  rel_visited : forall v w,
    (v, w) ∈ visited -> exists y, dict_get distances v = Some y /\ y <= cd + w
}.

(** ** The console: input, display, drawing and the menu

    The rest of the program talks to its user.  A run reads the lines of
    standard input one by one and leaves a trace of events: the prompts of
    [input], the texts of [print], and the figures that [plt.show] puts on
    the screen.  Standard input is the list of its lines; reading past the
    last one raises [EOFError].

    The definitions that [input_graph] above leaves out (how a line typed
    is told from a valid one) are here, under the names of the source, in
    a module of their own. *)

Module Console.

(** [str.isdigit], [str.isalpha], [str.split], [int] on a string, and the
    alignment [f"{v:>6}"] of a label in a field.  Python decides them on
    Unicode characters, of which a [string] only has the bytes, so the
    program is modelled over any such operations; [ascii_text] below gives
    them on ASCII text. *)
Class text_ops : Type := {
  isdigit : string -> bool;
  isalpha : string -> bool;
  split : string -> list string;
  int : string -> result Z;
  rjust : nat -> string -> string;
}.

(** What ends a run before its last statement. *)
Inductive stop : Type :=
| EOFError
| Exception (e : exn).

(** [Print] is a [print] with its end of line, [PrintNoEnd] one with
    an empty [end]; [Show] is a figure with its title and the graph drawn
    in it, nodes in the order of their creation.  The layout of the figure
    and the drawing calls of [networkx] and [matplotlib] are not modelled:
    they are taken to succeed and to show the graph built. *)
Inductive event : Type :=
| Prompt (msg : string)
| Print (text : string)
| PrintNoEnd (text : string)
| Show (title : string) (G : graph_t).

(** [Unfinished] stands for a loop still running at the bound on its
    iterations that the model sets. *)
Inductive outcome (A : Type) : Type :=
| Returns (a : A) (rest : list string)
| Raises (e : stop)
| Unfinished.
Arguments Returns {A} a rest.
Arguments Raises {A} e.
Arguments Unfinished {A}.

(** A computation that reads lines and leaves events. *)
Definition io (A : Type) : Type := list string -> list event * outcome A.

#[global] Instance io_ret : MRet io := fun A a lines => ([], Returns a lines).
#[global] Instance io_bind : MBind io := fun A B k p lines =>
  match p lines with
  | (out, Returns a rest) => let '(out', o) := k a rest in (out ++ out', o)
  | (out, Raises e) => (out, Raises e)
  | (out, Unfinished) => (out, Unfinished)
  end.

Definition emit (e : event) : io unit := fun lines => ([e], Returns tt lines).

Definition print (text : string) : io unit := emit (Print text).

Definition print_noend (text : string) : io unit := emit (PrintNoEnd text).

Definition of_result {A : Type} (r : result A) : io A := fun lines =>
  match r with
  | Ok a => ([], Returns a lines)
  | Raise e => ([], Raises (Exception e))
  end.

Definition unfinished {A : Type} : io A := fun _ => ([], Unfinished).

(** [input()] *)
Definition read_line : io string := fun lines =>
  match lines with
  | [] => ([], Raises EOFError)
  | line :: rest => ([], Returns line rest)
  end.

(** [input(msg)] *)
Definition input (msg : string) : io string :=
  _ ← emit (Prompt msg); read_line.

(** A [for] loop that carries a value from turn to turn. *)
Fixpoint foldIO {A B : Type} (f : B -> A -> io B) (l : list A) (b : B) : io B :=
  match l with
  | [] => mret b
  | a :: l' => b' ← f b a; foldIO f l' b'
  end.

(** A [for] loop. *)
Definition for_ {A : Type} (l : list A) (body : A -> io unit) : io unit :=
  foldIO (fun _ a => body a) l tt.

(** [while True:] run for at most [bound] turns.  A turn of the body ends
    with [inl s], to go round again ([continue], or the end of the body),
    or with [inr a], to leave the loop ([break], [return]). *)
Fixpoint loop {S A : Type} (bound : nat) (body : S -> io (S + A)) (s : S) : io A :=
  match bound with
  | O => unfinished
  | Datatypes.S bound' =>
      r ← body s;
      match r with
      | inl s' => loop bound' body s'
      | inr a => mret a
      end
  end.

(** [while True:] for a body that reads a line at each turn that goes round
    again, as every such loop of the program does: one turn more than there
    are lines left is then enough, and the loop is its body followed by the
    loop again ([while_true_unfold] below). *)
Definition while_true {S A : Type} (body : S -> io (S + A)) (s : S) : io A :=
  fun lines => loop (Datatypes.S (length lines)) body s lines.

Fixpoint spaces (n : nat) : string :=
  match n with
  | O => EmptyString
  | Datatypes.S n' => " " +:+ spaces n'
  end.

Definition nl : string := String (Ascii.ascii_of_nat 10) EmptyString.

(** [range(n)] *)
Definition range (n : Z) : list Z := Z.of_nat <$> seq 0 (Z.to_nat n).

Section program.
Context {T : text_ops}.

Definition safe_int (msg : string) : io Z :=
  while_true (fun _ : unit =>
    val ← input msg;
    if isdigit val then
      n ← of_result (int val); mret (inr n)
    else
      _ ← print "<<<<===== INVALID INPUT! ENTER ONLY INTEGER =====>>>>";
      mret (inl tt)) tt.

Definition safe_str (msg : string) : io string :=
  while_true (fun _ : unit =>
    val ← input msg;
    if isalpha val then mret (inr val)
    else
      _ ← print "<<<<===== INVALID INPUT! ENTER ONLY STRING =====>>>>";
      mret (inl tt)) tt.

(** One turn of the [while True] of the edge loop. *)
Definition edge_line (vertices : list string) (graph : graph_t)
  : io (graph_t + graph_t) :=
  line ← read_line;
  match split line with
  | [u; v; w] =>
      if bool_decide (u ∉ vertices) || bool_decide (v ∉ vertices) then
        _ ← print "<<<<===== INVALID VERTEX NAME =====>>>>";
        mret (inl graph)
      else if negb (isdigit w) then
        _ ← print "<<<<===== WEIGHT MUST BE INTEGER =====>>>>";
        mret (inl graph)
      else
        x ← of_result (int w);
        adj ← of_result (getitem graph u);
        mret (inr (dict_set graph u (dict_set adj v x)))
  | _ =>
      _ ← print "<<<<===== INVALID FORMAT! USE: src dest weight =====>>>>";
      mret (inl graph)
  end.

Definition input_graph : io (graph_t * list string) :=
  _ ← print (nl +:+ "=====> GRAPH INPUT MODULE <=====");
  n ← safe_int "Enter number of vertices: ";
  _ ← print "~~~~~>>>> ENTER VERTEX NAMES <<<<<~~~~~";
  vertices ← foldIO (fun vertices i =>
                       label ← safe_str ("Vertex " +:+ pretty (i + 1) +:+ ": ");
                       mret (add_vertex vertices label)) (range n) [];
  let graph := empty_graph vertices in
  e ← safe_int "Enter number of edges: ";
  _ ← print "~~~~~>>>> ENTER EDGES (source destination weight) <<<<<~~~~~";
  graph ← foldIO (fun graph _ => while_true (edge_line vertices) graph)
                 (range e) graph;
  mret (graph, vertices).

Definition display_dijkstra (distances : dict Z) (source : string) : io unit :=
  _ ← print (nl +:+ "=====> DIJKSTRA'S FINAL OUTPUT <=====");
  _ ← print ("Source Vertex: " +:+ source);
  for_ (dict_keys distances) (fun v =>
    d ← of_result (getitem distances v);
    print ("Shortest distance from " +:+ source +:+ " to " +:+ v +:+ " = "
           +:+ pretty d)).

(** [f"{x:6}"] for an integer [x]: its decimal digits, after the spaces
    that fill the field when they are fewer than six. *)
Definition format_int (width : nat) (x : Z) : string :=
  let digits := pretty x in
  spaces (width - String.length digits) +:+ digits.

(** The column titles and the rows of one matrix: lines 150-162 of the
    source, and again lines 166-178 for the final matrix. *)
Definition print_matrix (vertices : list string) (matrix : matrix) : io unit :=
  _ ← print_noend "     ";
  _ ← for_ vertices (fun v => print_noend (rjust 6 v));
  _ ← print EmptyString;
  for_ (seq 0 (length vertices)) (fun i =>
    vi ← of_result (list_getitem vertices i);
    _ ← print_noend (rjust 5 vi);
    _ ← for_ (seq 0 (length vertices)) (fun j =>
          x ← of_result (get_cell matrix i j);
          if decide (x = maxsize) then print_noend "  INF "
          else print_noend (format_int 6 x));
    print EmptyString).

Definition display_floyd (dist : matrix) (vertices : list string)
    (all_matrices : list matrix) : io unit :=
  _ ← print (nl +:+ "=====> FLOYD-WARSHALL STEP-BY-STEP OUTPUT <=====");
  _ ← for_ (zip (seq 0 (length all_matrices)) all_matrices) (fun '(idx, matrix) =>
        _ ← (if decide (idx = 0)%nat then
               print (nl +:+ "*** D" +:+ pretty idx +:+ " (Initial Distance Matrix) ***")
             else
               v ← of_result (list_getitem vertices (idx - 1));
               print (nl +:+ "*** D" +:+ pretty idx +:+ " (After considering vertex '"
                      +:+ v +:+ "' as intermediate) ***"));
        print_matrix vertices matrix);
  _ ← print (nl +:+ "=====> FLOYD-WARSHALL FINAL OUTPUT <=====");
  _ ← print "All Pairs Shortest Path Matrix:";
  print_matrix vertices dist.

End program.

(** [G.add_edge(u, v, weight=w)] on a [networkx.DiGraph], kept as the
    dictionary of its nodes to their successors: the end points become
    nodes when they are not, in this order, and the edge gets the weight,
    new or not. *)
Definition nx_add_node (G : graph_t) (u : string) : graph_t :=
  if bool_decide (u ∈ dict_keys G) then G else dict_set G u [].

Definition nx_add_edge (G : graph_t) (u v : string) (w : Z) : graph_t :=
  let G := nx_add_node (nx_add_node G u) v in
  dict_set G u (dict_set (default [] (dict_get G u)) v w).

(** The graph that [draw_main_graph] builds. *)
Definition main_graph (graph : graph_t) : result graph_t :=
  foldM (fun G u =>
           adj ← getitem graph u;
           foldM (fun G v =>
                    adj' ← getitem graph u;
                    w ← getitem adj' v;
                    Ok (nx_add_edge G u v w)) (dict_keys adj) G)
        (dict_keys graph) [].

Definition draw_main_graph (graph : graph_t) : io unit :=
  _ ← print (nl +:+ "~~~~~>>>> MAIN GRAPH (ORIGINAL) <<<<<~~~~~");
  G ← of_result (main_graph graph);
  emit (Show "Main Graph (Original User Input)" G).

(** The graph that [draw_final_graph] builds.  The source is [None] or a
    label, as [last_source] is in [main]; [networkx] refuses [None] as a
    node with a [ValueError]. *)
Definition final_graph (distances : dict Z) (source : option string)
  : result graph_t :=
  foldM (fun G '(node, cost) =>
           if bool_decide (Some node ≠ source) && bool_decide (cost ≠ maxsize) then
             match source with
             | Some s => Ok (nx_add_edge G s node cost)
             | None => Raise ValueError
             end
           else Ok G) distances [].

Definition draw_final_graph (distances : dict Z) (source : option string)
  : io unit :=
  _ ← print (nl +:+ "~~~~~>>>> FINAL GRAPH (AFTER SHORTEST PATH) <<<<<~~~~~");
  G ← of_result (final_graph distances source);
  emit (Show "Final Graph After Shortest Path (Dijkstra Result)" G).

Section menu.
Context {T : text_ops}.

(** One turn of the [while True] of [main], on the variables
    [last_dijkstra] and [last_source].  Choice 1 is [single_source_query]
    above; a [dijkstra] still running at its bound leaves the turn
    [unfinished], and an exception of [dijkstra] or [floyd_warshall] ends
    the run. *)
Definition menu (graph : graph_t) (vertices : list string)
    (last : option (dict Z) * option string)
  : io (option (dict Z) * option string + unit) :=
  _ ← print (nl +:+ "~~~~~>>>> MAIN MENU <<<<<~~~~~");
  _ ← print "1. Dijkstra's Algorithm (Single Source)";
  _ ← print "2. Floyd-Warshall Algorithm (All Pairs)";
  _ ← print "3. Show Main Graph";
  _ ← print "4. Show Final Graph (After Shortest Path)";
  _ ← print "5. Exit";
  choice ← safe_int "Enter choice: ";
  if decide (choice = 1) then
    source ← safe_str "Enter source vertex: ";
    match single_source_query graph vertices source with
    | InvalidSourceVertex =>
        _ ← print "<<<<===== INVALID SOURCE VERTEX =====>>>>";
        mret (inl last)
    | QueryResult None => unfinished
    | QueryResult (Some r) =>
        last_dijkstra ← of_result r;
        _ ← display_dijkstra last_dijkstra source;
        mret (inl (Some last_dijkstra, Some source))
    end
  else if decide (choice = 2) then
    '(fw_result, all_matrices) ← of_result (floyd_warshall graph vertices);
    _ ← display_floyd fw_result vertices all_matrices;
    mret (inl last)
  else if decide (choice = 3) then
    _ ← draw_main_graph graph;
    mret (inl last)
  else if decide (choice = 4) then
    match last.1 with
    | None =>
        _ ← print "<<<<===== RUN DIJKSTRA FIRST =====>>>>";
        mret (inl last)
    | Some last_dijkstra =>
        _ ← draw_final_graph last_dijkstra last.2;
        mret (inl last)
    end
  else if decide (choice = 5) then
    _ ← print "<<<<===== EXITING PROJECT =====>>>>";
    mret (inr tt)
  else
    _ ← print "<<<<===== INVALID MENU CHOICE =====>>>>";
    mret (inl last).

Definition main : io unit :=
  _ ← print "<<<<===== DAA GROUP PROJECT: SHORTEST PATH ALGORITHMS =====>>>>";
  '(graph, vertices) ← input_graph;
  while_true (menu graph vertices) (None, None).

End menu.

(** The operations on ASCII text.  [int] is only applied to a string that
    [isdigit] accepts, a run of decimal digits. *)
Definition ascii_digit (c : Ascii.ascii) : bool :=
  ((48 <=? Ascii.N_of_ascii c) && (Ascii.N_of_ascii c <=? 57))%N.

Definition ascii_letter (c : Ascii.ascii) : bool :=
  (((65 <=? Ascii.N_of_ascii c) && (Ascii.N_of_ascii c <=? 90))
   || ((97 <=? Ascii.N_of_ascii c) && (Ascii.N_of_ascii c <=? 122)))%N.

Definition ascii_space (c : Ascii.ascii) : bool :=
  (((9 <=? Ascii.N_of_ascii c) && (Ascii.N_of_ascii c <=? 13))
   || ((28 <=? Ascii.N_of_ascii c) && (Ascii.N_of_ascii c <=? 32)))%N.

Definition ascii_isdigit (s : string) : bool :=
  match s with
  | EmptyString => false
  | _ => forallb ascii_digit (String.list_ascii_of_string s)
  end.

Definition ascii_isalpha (s : string) : bool :=
  match s with
  | EmptyString => false
  | _ => forallb ascii_letter (String.list_ascii_of_string s)
  end.

Definition ascii_int (s : string) : result Z :=
  if ascii_isdigit s then
    Ok (fold_left (fun n c => 10 * n + (Z.of_N (Ascii.N_of_ascii c) - 48))
                  (String.list_ascii_of_string s) 0)
  else Raise ValueError.

Fixpoint ascii_split_from (word : list Ascii.ascii) (s : list Ascii.ascii) : list string :=
  match s with
  | [] =>
      match word with
      | [] => []
      | _ => [String.string_of_list_ascii (reverse word)]
      end
  | c :: s' =>
      if ascii_space c then
        match word with
        | [] => ascii_split_from [] s'
        | _ => String.string_of_list_ascii (reverse word) :: ascii_split_from [] s'
        end
      else ascii_split_from (c :: word) s'
  end.

Definition ascii_split (s : string) : list string :=
  ascii_split_from [] (String.list_ascii_of_string s).

Definition ascii_rjust (width : nat) (s : string) : string :=
  spaces (width - String.length s) +:+ s.

Definition ascii_text : text_ops := {|
  isdigit := ascii_isdigit;
  isalpha := ascii_isalpha;
  split := ascii_split;
  int := ascii_int;
  rjust := ascii_rjust;
|}.

End Console.

(** ** What the properties of the console speak of *)

(** A computation that returns has read at least [d] lines. *)
Definition advances {A : Type} (d : nat) (p : Console.io A) : Prop :=
  forall lines out a rest,
    p lines = (out, Console.Returns a rest) -> (length rest + d <= length lines)%nat.

(** Whatever the input: every event left satisfies [Q], a value returned
    satisfies [P], an exception that ends the run satisfies [E], and [U]
    holds if a loop is still running at its bound. *)
Definition io_spec (Q : Console.event -> Prop) (E : Console.stop -> Prop) (U : Prop)
    {A : Type} (P : A -> Prop) (p : Console.io A) : Prop :=
  forall lines,
    Forall Q (p lines).1 /\
    match (p lines).2 with
    | Console.Returns a _ => P a
    | Console.Raises e => E e
    | Console.Unfinished => U
    end.

(** [int] reads every string that [isdigit] accepts, as a natural number.
    This holds of ASCII text ([ascii_digits_parse] below); Python's
    [isdigit] also accepts characters, such as the superscript digits, that
    its [int] refuses with a [ValueError]. *)
Definition digits_parse (T : Console.text_ops) : Prop :=
  forall s, Console.isdigit s = true -> exists n : N, Console.int s = Ok (Z.of_N n).

(** [Q] holds of every prompt and of every text printed. *)
Definition quiet (Q : Console.event -> Prop) : Prop :=
  forall e, (forall title G, e <> Console.Show title G) -> Q e.

(** What a figure may show in a run on [graph] and [vertices]: the graph
    of [draw_main_graph], or the graph of [draw_final_graph] on the
    distances that [dijkstra] returns for a source among [vertices]. *)
Definition shown (graph : graph_t) (vertices : list string) (e : Console.event)
  : Prop :=
  match e with
  | Console.Show title G =>
      (title = "Main Graph (Original User Input)"%string /\
       Console.main_graph graph = Ok G) \/
      (title = "Final Graph After Shortest Path (Dijkstra Result)"%string /\
       exists source d,
         source ∈ vertices /\ dijkstra graph source = Some (Ok d) /\
         Console.final_graph d (Some source) = Ok G)
  | _ => True
  end.

(** The scenario of the specification as typed at the console, with lines
    that the program refuses, and then the choices 4, 1 (source Z, then
    source A), 4, 3, 2, 9 and 5 of the menu. *)
Definition scenario_console : list string :=
  ["3"; "A"; "B"; "C4"; "C"; "3"; "A B 4"; "B C"; "B C 2"; "A D 1"; "A C x";
   "A C 10"; "4"; "1"; "Z"; "1"; "A"; "4"; "3"; "2"; "9"; "5"]%string.

(** [G] has the edges of [graph] that [S] selects, and their end points
    as nodes. *)
Definition drawn (graph : graph_t) (S : string -> string -> Prop) (G : graph_t)
  : Prop :=
  (forall u v c, edge G u v c <-> S u v /\ edge graph u v c) /\
  (forall k, k ∈ dict_keys G <->
             exists u v c, S u v /\ edge graph u v c /\ (k = u \/ k = v)).

(** What [display_floyd] prints: a cell, the title row and the rows of a
    matrix, the title of snapshot [idx]. *)
Definition cell_text (x : Z) : string :=
  if decide (x = maxsize) then "  INF "%string else Console.format_int 6 x.

Definition table {T : Console.text_ops} (vertices : list string) (m : matrix)
  : list Console.event :=
  Console.PrintNoEnd "     "
  :: ((fun v => Console.PrintNoEnd (Console.rjust 6 v)) <$> vertices)
  ++ Console.Print EmptyString
  :: mjoin (imap (fun i vi =>
                    Console.PrintNoEnd (Console.rjust 5 vi)
                    :: ((fun j => Console.PrintNoEnd (cell_text (cell m i j)))
                          <$> seq 0 (length vertices))
                    ++ [Console.Print EmptyString]) vertices).

Definition snapshot_title (vertices : list string) (idx : nat) : string :=
  match idx with
  | O => Console.nl +:+ "*** D0 (Initial Distance Matrix) ***"
  | S k =>
      Console.nl +:+ "*** D" +:+ pretty idx +:+ " (After considering vertex '"
      +:+ default EmptyString (vertices !! k) +:+ "' as intermediate) ***"
  end.

(** [p] on the input [lines] returns [a] and leaves [rest] unread. *)
Definition returns {A : Type} (p : Console.io A) (lines : list string) (a : A)
    (rest : list string) : Prop :=
  exists out, p lines = (out, Console.Returns a rest).

(** * Properties *)

(** ** Loops that may raise *)

Lemma bind_Ok {A B : Type} (a : A) (k : A -> result B) : (Ok a ≫= k) = k a.
Proof. reflexivity. Qed.

Lemma bind_Ok_inv {A B : Type} (r : result A) (k : A -> result B) b :
  (r ≫= k) = Ok b -> exists a, r = Ok a /\ k a = Ok b.
Proof. destruct r as [a|e]; [eauto | discriminate]. Qed.

Lemma foldM_cons {A B : Type} (f : B -> A -> result B) a l b :
  foldM f (a :: l) b = (f b a ≫= foldM f l).
Proof. reflexivity. Qed.

Lemma foldM_singleton {A B : Type} (f : B -> A -> result B) a b :
  foldM f [a] b = f b a.
Proof. rewrite foldM_cons. by destruct (f b a). Qed.

Lemma foldM_app {A B : Type} (f : B -> A -> result B) l1 l2 b :
  foldM f (l1 ++ l2) b = (foldM f l1 b ≫= foldM f l2).
Proof.
  revert b. induction l1 as [|a l1 IH]; intros b; [done|].
  rewrite <- app_comm_cons, !foldM_cons. destruct (f b a) as [b'|e]; [|done].
  rewrite !bind_Ok. apply IH.
Qed.

Lemma foldM_invariant {A B : Type} (P : B -> Prop) (f : B -> A -> result B) l b b' :
  (forall b a b', a ∈ l -> P b -> f b a = Ok b' -> P b') ->
  P b -> foldM f l b = Ok b' -> P b'.
Proof.
  revert b. induction l as [|a l IH]; intros b Hf Hb; simpl.
  - by intros [= <-].
  - intros (b1 & H1 & H2)%bind_Ok_inv. apply (IH b1); [|by eapply Hf; [left|..]|done].
    intros b2 a2 b3 Hin. apply Hf. by right.
Qed.

Lemma foldM_total {A B : Type} (P : B -> Prop) (f : B -> A -> result B) l b :
  (forall b a, a ∈ l -> P b -> exists b', f b a = Ok b' /\ P b') ->
  P b -> exists b', foldM f l b = Ok b' /\ P b'.
Proof.
  revert b. induction l as [|a l IH]; intros b Hf Hb; simpl; [by eauto|].
  destruct (Hf b a) as (b1 & -> & Hb1); [left|done|]. rewrite bind_Ok.
  apply IH; [|done]. intros b2 a2 Hin. apply Hf. by right.
Qed.

Lemma foldM_ext {A B : Type} (f g : B -> A -> result B) l b :
  (forall b a, a ∈ l -> f b a = g b a) -> foldM f l b = foldM g l b.
Proof.
  revert b. induction l as [|a l IH]; intros b Hfg; [done|].
  rewrite !foldM_cons, Hfg by left. destruct (g b a) as [b'|e]; [|done].
  rewrite !bind_Ok. apply IH. intros b2 a2 Hin. apply Hfg. by right.
Qed.

Lemma foldM_map {A A' B : Type} (f : B -> A' -> result B) (h : A -> A') l b :
  foldM f (map h l) b = foldM (fun b a => f b (h a)) l b.
Proof.
  revert b. induction l as [|a l IH]; intros b; [done|].
  cbn [map]. rewrite !foldM_cons. destruct (f b (h a)) as [b'|e]; [|done].
  rewrite !bind_Ok. apply IH.
Qed.

Lemma foldM_flat_map {A A' B : Type} (f : B -> A' -> result B) (h : A -> list A') l b :
  foldM f (flat_map h l) b = foldM (fun b a => foldM f (h a) b) l b.
Proof.
  revert b. induction l as [|a l IH]; intros b; [done|].
  cbn [flat_map]. rewrite foldM_app, foldM_cons.
  destruct (foldM f (h a) b) as [b'|e]; [|done]. rewrite !bind_Ok. apply IH.
Qed.

(** ** Dictionaries *)

Lemma getitem_Some {V : Type} (d : dict V) k v : dict_get d k = Some v -> getitem d k = Ok v.
Proof. unfold getitem. by intros ->. Qed.

Lemma getitem_Ok {V : Type} (d : dict V) k v : getitem d k = Ok v -> dict_get d k = Some v.
Proof. unfold getitem. destruct (dict_get d k); [by intros [= ->] | done]. Qed.

Lemma list_getitem_Some {A : Type} (l : list A) i x : l !! i = Some x -> list_getitem l i = Ok x.
Proof. unfold list_getitem. by intros ->. Qed.

Lemma list_getitem_Ok {A : Type} (l : list A) i x : list_getitem l i = Ok x -> l !! i = Some x.
Proof. unfold list_getitem. destruct (l !! i); [by intros [= ->] | done]. Qed.

Section dict_facts.
Context {V : Type}.
Implicit Types (d : dict V) (k : string) (v : V).

Lemma dict_get_set_eq d k v : dict_get (dict_set d k v) k = Some v.
Proof.
  induction d as [|[k' v'] d IH]; simpl; repeat (case_decide; simpl); congruence.
Qed.

Lemma dict_get_set_ne d k k' v :
  k <> k' -> dict_get (dict_set d k v) k' = dict_get d k'.
Proof.
  intros Hne. induction d as [|[k0 v0] d IH]; simpl;
    repeat (case_decide; simpl); congruence.
Qed.

Lemma dict_get_set d k k' v :
  dict_get (dict_set d k v) k' = if decide (k = k') then Some v else dict_get d k'.
Proof.
  case_decide; [subst; apply dict_get_set_eq | by apply dict_get_set_ne].
Qed.

Lemma dict_get_is_Some d k : is_Some (dict_get d k) <-> k ∈ dict_keys d.
Proof.
  unfold dict_keys. induction d as [|[k' v'] d IH]; simpl.
  - split; [intros [? ?]; discriminate | intros H; inversion H].
  - rewrite elem_of_cons. case_decide; subst.
    + split; eauto.
    + rewrite IH. split; [auto | intros [?|?]; [congruence | done]].
Qed.

Lemma dict_get_None d k : dict_get d k = None <-> k ∉ dict_keys d.
Proof. rewrite <- dict_get_is_Some, eq_None_not_Some. tauto. Qed.

Lemma dict_get_elem_of d k v : dict_get d k = Some v -> (k, v) ∈ d.
Proof.
  induction d as [|[k' v'] d IH]; simpl; [discriminate|].
  case_decide; subst.
  - intros [= ->]. left.
  - intros Hg. right. auto.
Qed.

Lemma elem_of_dict_get d k v :
  NoDup (dict_keys d) -> (k, v) ∈ d -> dict_get d k = Some v.
Proof.
  unfold dict_keys. induction d as [|[k' v'] d IH]; simpl.
  - intros _ H. inversion H.
  - rewrite NoDup_cons, elem_of_cons. intros [Hk Hd] [Heq|Hin].
    + inversion Heq; subst. by rewrite decide_True.
    + case_decide; subst; [|auto].
      exfalso. apply Hk. apply list_elem_of_fmap. by exists (k, v).
Qed.

Lemma dict_keys_set_present d k v :
  k ∈ dict_keys d -> dict_keys (dict_set d k v) = dict_keys d.
Proof.
  unfold dict_keys. induction d as [|[k' v'] d IH]; simpl.
  - intros H. inversion H.
  - rewrite elem_of_cons. intros Hin. case_decide; subst; simpl; [done|].
    f_equal. apply IH. destruct Hin; [congruence|done].
Qed.

Lemma dict_keys_set_absent d k v :
  k ∉ dict_keys d -> dict_keys (dict_set d k v) = dict_keys d ++ [k].
Proof.
  unfold dict_keys. induction d as [|[k' v'] d IH]; simpl; [done|].
  rewrite not_elem_of_cons. intros [Hne Hd].
  rewrite decide_False by congruence. simpl. f_equal. auto.
Qed.

Lemma length_dict_set_present d k v :
  k ∈ dict_keys d -> length (dict_set d k v) = length d.
Proof.
  intros H.
  rewrite <- (length_fmap fst (dict_set d k v)), <- (length_fmap fst d).
  change (length (dict_keys (dict_set d k v)) = length (dict_keys d)).
  by rewrite dict_keys_set_present.
Qed.

Lemma dict_set_absent d k v : k ∉ dict_keys d -> dict_set d k v = d ++ [(k, v)].
Proof.
  unfold dict_keys. induction d as [|[k' v'] d IH]; simpl; [done|].
  rewrite not_elem_of_cons. intros [Hne Hd].
  rewrite decide_False by congruence. f_equal. auto.
Qed.

Lemma dict_comp_from_keys (f : string -> V) ks d :
  NoDup (dict_keys d ++ ks) ->
  fold_left (fun d k => dict_set d k (f k)) ks d
  = d ++ ((fun k => (k, f k)) <$> ks).
Proof.
  revert d. induction ks as [|k ks IH]; intros d Hnd; simpl.
  - by rewrite app_nil_r.
  - assert (Hk : k ∉ dict_keys d).
    { apply NoDup_app in Hnd as (_ & Hd & _). intros Hin.
      apply (Hd k Hin). left. }
    rewrite IH.
    + rewrite dict_set_absent by done. by rewrite <- app_assoc.
    + rewrite dict_keys_set_absent by done. by rewrite <- app_assoc.
Qed.

Lemma dict_comp_NoDup (f : string -> V) ks :
  NoDup ks -> dict_comp ks f = (fun k => (k, f k)) <$> ks.
Proof. intros H. unfold dict_comp. by rewrite dict_comp_from_keys. Qed.

Lemma dict_keys_comp (f : string -> V) ks :
  NoDup ks -> dict_keys (dict_comp ks f) = ks.
Proof.
  intros H. rewrite dict_comp_NoDup by done. unfold dict_keys.
  rewrite <- list_fmap_compose. simpl. apply list_fmap_id.
Qed.
Lemma dict_get_fmap_keys (f : string -> V) ks k :
  dict_get ((fun k => (k, f k)) <$> ks) k
  = if decide (k ∈ ks) then Some (f k) else None.
Proof.
  induction ks as [|k' ks IH].
  - destruct (decide (k ∈ [])) as [Hin|]; [inversion Hin | done].
  - rewrite fmap_cons. cbn [dict_get]. rewrite IH.
    destruct (decide (k' = k)) as [->|Hne].
    + rewrite decide_True; [done | left].
    + destruct (decide (k ∈ ks)) as [Hin|Hin].
      * rewrite decide_True; [done | by right].
      * rewrite decide_False; [done|]. rewrite not_elem_of_cons. split; [congruence|done].
Qed.

Lemma dict_get_comp (f : string -> V) ks k :
  NoDup ks ->
  dict_get (dict_comp ks f) k = if decide (k ∈ ks) then Some (f k) else None.
Proof. intros H. rewrite dict_comp_NoDup by done. apply dict_get_fmap_keys. Qed.

End dict_facts.

(** ** The heap *)

Lemma elem_of_remove_first (x y : entry) l : y ∈ remove_first x l -> y ∈ l.
Proof.
  induction l as [|z l IH]; simpl; [done|].
  case_decide; rewrite ?elem_of_cons; [auto|]. intros [->|?]; auto.
Qed.

Lemma elem_of_remove_first_ne (x y : entry) l :
  y ∈ l -> y <> x -> y ∈ remove_first x l.
Proof.
  intros Hin Hne. induction l as [|z l IH]; simpl; [done|].
  apply elem_of_cons in Hin as [->|Hin].
  - rewrite decide_False by done. left.
  - case_decide; [done|]. right. auto.
Qed.

Lemma length_remove_first (x : entry) l :
  x ∈ l -> length l = S (length (remove_first x l)).
Proof.
  induction l as [|z l IH]; simpl; [intros H; inversion H|].
  rewrite elem_of_cons. intros Hin. case_decide; [done|].
  simpl. f_equal. apply IH. destruct Hin; [congruence|done].
Qed.

Lemma heap_min_elem x l : heap_min x l ∈ x :: l.
Proof.
  revert x. induction l as [|y l IH]; intros x; simpl; [left|].
  specialize (IH (if entry_lt y x then y else x)).
  apply elem_of_cons in IH as [->|IH].
  - destruct (entry_lt y x); [right; left | left].
  - right. by right.
Qed.

(** [heappop] returns a tuple of least first component. *)
Lemma heap_min_least x l y : y ∈ x :: l -> (heap_min x l).1 <= y.1.
Proof.
  revert x y. induction l as [|z l IH]; intros x y; simpl.
  - intros Hin. apply list_elem_of_singleton in Hin as ->. lia.
  - intros Hin. set (x' := if entry_lt z x then z else x).
    assert (Hm : x'.1 <= x.1 /\ x'.1 <= z.1).
    { subst x'. unfold entry_lt. destruct (z.1 <? x.1) eqn:E1; simpl.
      - apply Z.ltb_lt in E1. lia.
      - apply Z.ltb_ge in E1. destruct (z.1 =? x.1) eqn:E2; simpl.
        + apply Z.eqb_eq in E2. destruct (String.ltb z.2 x.2); lia.
        + lia. }
    assert (Hx' : (heap_min x' l).1 <= x'.1) by (apply IH; left).
    apply elem_of_cons in Hin as [->|Hin]; [lia|].
    apply elem_of_cons in Hin as [->|Hin]; [lia|].
    apply IH. by right.
Qed.

Lemma heappop_Some pq m pq' :
  heappop pq = Some (m, pq') ->
  m ∈ pq /\ pq' = remove_first m pq /\ forall y, y ∈ pq -> m.1 <= y.1.
Proof.
  destruct pq as [|x l]; simpl; [discriminate|].
  intros [= <- <-]. split; [apply heap_min_elem|].
  split; [done|]. apply heap_min_least.
Qed.

Lemma heappop_None pq : heappop pq = None -> pq = [].
Proof. by destruct pq. Qed.

(** ** The loops of [dijkstra] *)

Lemma dict_sum_set d k x y :
  dict_get d k = Some x -> dict_sum (dict_set d k y) = dict_sum d - x + y.
Proof.
  induction d as [|[k' v'] d IH]; simpl; [discriminate|].
  case_decide; simpl.
  - intros [= ->]. lia.
  - intros Hg. rewrite IH by done. lia.
Qed.

Lemma dict_sum_bounds d :
  (forall k x, (k, x) ∈ d -> 0 <= x <= maxsize) ->
  0 <= dict_sum d <= Z.of_nat (length d) * maxsize.
Proof.
  induction d as [|[k v] d IH]; intros Hr; simpl; [lia|].
  assert (0 <= v <= maxsize) by (apply (Hr k); left).
  assert (0 <= dict_sum d <= Z.of_nat (length d) * maxsize).
  { apply IH. intros k' x Hin. apply (Hr k'). by right. }
  lia.
Qed.

Section dijkstra_loops.
Variable graph : graph_t.
Variable start : string.
Hypothesis Hok : graph_ok graph.

Lemma relax_edge_inv u cd visited d pq v w :
  relax_inv graph start u cd visited d pq ->
  edge graph u v w ->
  exists d' pq',
    relax_edge cd (d, pq) (v, w) = Ok (d', pq') /\
    relax_inv graph start u cd (visited ++ [(v, w)]) d' pq' /\
    loop_measure d' pq' <= loop_measure d pq.
Proof.
  intros [Hkeys Hstart Hrange Hwalk Hqueue Hcur Hoth Hvis] Hedge.
  pose proof (ok_nonneg _ Hok _ _ _ Hedge) as Hw.
  pose proof (ok_closed _ Hok _ _ _ Hedge) as Hv.
  rewrite <- Hkeys in Hv. apply dict_get_is_Some in Hv as [dn Hdn].
  pose proof (Hrange _ _ Hcur) as Hcd.
  pose proof (Hrange _ _ Hdn) as Hdnr.
  unfold relax_edge, getitem. rewrite Hdn. simpl.
  destruct (Z.ltb_spec (cd + w) dn) as [Hlt|Hge].
  - (* the neighbour gets the shorter distance and is pushed *)
    assert (Hvu : v <> u) by (intros ->; rewrite Hcur in Hdn; injection Hdn; lia).
    assert (Hvs : v <> start) by (intros ->; rewrite Hstart in Hdn; injection Hdn; lia).
    eexists _, _. split; [reflexivity|]. split; [split|].
    + rewrite dict_keys_set_present; [done|].
      apply dict_get_is_Some. eauto.
    + by rewrite dict_get_set_ne.
    + intros v' x. rewrite dict_get_set. case_decide; [intros [= <-]; lia | eauto].
    + intros v' x. rewrite dict_get_set. case_decide; [|eauto].
      subst v'. intros [= <-] Hx. apply walk_snoc with (u := u); [|done].
      apply Hwalk; [done | lia].
    + intros x v' Hin. unfold heappush in Hin. apply elem_of_cons in Hin as [[= -> ->]|Hin].
      * split; [lia|]. exists (cd + w). by rewrite dict_get_set_eq.
      * destruct (Hqueue _ _ Hin) as (Hx & y & Hy & Hle). split; [done|].
        rewrite dict_get_set. case_decide; [subst v'|by eauto].
        exists (cd + w). split; [done|]. rewrite Hdn in Hy. injection Hy as <-. lia.
    + by rewrite dict_get_set_ne.
    + intros u' v' w' x Hne He. rewrite dict_get_set. case_decide.
      * subst u'. intros [= <-] _. left. left.
      * intros Hu' Hx. destruct (Hoth _ _ _ _ Hne He Hu' Hx) as [Hin|(y & Hy & Hle)].
        -- left. by right.
        -- right. rewrite dict_get_set. case_decide; [subst v'|by eauto].
           exists (cd + w). split; [done|]. rewrite Hdn in Hy. injection Hy as <-. lia.
    + intros v' w' Hin. rewrite dict_get_set.
      apply elem_of_app in Hin as [Hin|Hin].
      * destruct (Hvis _ _ Hin) as (y & Hy & Hle).
        case_decide; [subst v'|by eauto].
        exists (cd + w). split; [done|]. rewrite Hdn in Hy. injection Hy as <-. lia.
      * apply list_elem_of_singleton in Hin as [= -> ->].
        rewrite decide_True by done. exists (cd + w). split; [done|lia].
    + unfold loop_measure, heappush. rewrite (dict_sum_set _ _ dn) by done.
      simpl length. lia.
  - (* nothing changes *)
    eexists _, _. split; [reflexivity|]. split; [split; try done|lia].
    intros v' w' Hin. apply elem_of_app in Hin as [Hin|Hin]; [eauto|].
    apply list_elem_of_singleton in Hin as [= -> ->]. eauto.
Qed.

Lemma relax_edges_inv u cd adj visited d pq :
  relax_inv graph start u cd visited d pq ->
  (forall v w, (v, w) ∈ adj -> edge graph u v w) ->
  exists d' pq',
    foldM (relax_edge cd) adj (d, pq) = Ok (d', pq') /\
    relax_inv graph start u cd (visited ++ adj) d' pq' /\
    loop_measure d' pq' <= loop_measure d pq.
Proof.
  revert visited d pq. induction adj as [|[v w] adj IH]; intros visited d pq Hinv Hadj.
  - exists d, pq. rewrite app_nil_r. simpl. split; [done|]. split; [done|lia].
  - destruct (relax_edge_inv u cd visited d pq v w Hinv) as (d1 & pq1 & Hstep & Hinv1 & Hm1).
    { apply Hadj. left. }
    destruct (IH (visited ++ [(v, w)]) d1 pq1 Hinv1) as (d2 & pq2 & Hrest & Hinv2 & Hm2).
    { intros v' w' Hin. apply Hadj. by right. }
    exists d2, pq2. rewrite foldM_cons, Hstep, bind_Ok. split; [done|].
    rewrite <- app_assoc in Hinv2. split; [done|lia].
Qed.

Lemma dijkstra_iter_inv d pq :
  dijkstra_inv graph start d pq ->
  match dijkstra_iter graph d pq with
  | Finished d' => d' = d /\ pq = []
  | Running d' pq' =>
      dijkstra_inv graph start d' pq' /\ loop_measure d' pq' < loop_measure d pq
  | Failed _ => False
  end.
Proof.
  intros [Hkeys Hstart Hrange Hwalk Hqueue Hrel].
  unfold dijkstra_iter. destruct (heappop pq) as [[[cd u] pq']|] eqn:Hpop.
  2:{ split; [done|]. by apply heappop_None. }
  apply heappop_Some in Hpop as (Hin & -> & _).
  destruct (Hqueue _ _ Hin) as (Hcd & y & Hy & Hle).
  assert (Hlen : loop_measure d (remove_first (cd, u) pq) < loop_measure d pq).
  { unfold loop_measure. rewrite (length_remove_first (cd, u) pq) by done. lia. }
  unfold getitem at 1. rewrite Hy.
  destruct (Z.gtb_spec cd y) as [Hstale|Hfresh].
  - (* a stale tuple *)
    split; [|done]. split; try done.
    + intros x v Hx. apply elem_of_remove_first in Hx. eauto.
    + intros u' v w x He Hu' Hx. destruct (Hrel _ _ _ _ He Hu' Hx) as [Hq|?]; [|by right].
      left. apply elem_of_remove_first_ne; [done|].
      intros [= -> ->]. rewrite Hy in Hu'. injection Hu'. lia.
  - assert (y = cd) as -> by lia. clear Hle Hfresh.
    assert (Hu : u ∈ dict_keys graph).
    { rewrite <- Hkeys. apply dict_get_is_Some. eauto. }
    apply dict_get_is_Some in Hu as [adj Hadj]. unfold getitem. rewrite Hadj.
    destruct (relax_edges_inv u cd adj [] d (remove_first (cd, u) pq))
      as (d' & pq' & -> & [Hk' Hs' Hr' Hw' Hq' Hc' Ho' Hv'] & Hm').
    { split; try done.
      - intros x v Hx. apply elem_of_remove_first in Hx. eauto.
      - intros u' v w x Hne He Hu' Hx.
        destruct (Hrel _ _ _ _ He Hu' Hx) as [Hq|?]; [|by right].
        left. apply elem_of_remove_first_ne; [done|]. congruence.
      - intros v w Hx. inversion Hx. }
    { intros v w Hx. exists adj. split; [done|].
      apply elem_of_dict_get; [|done]. eapply ok_adj_keys; eauto. }
    split; [|lia]. split; try done.
    intros u' v w x He Hu' Hx. destruct (decide (u' = u)) as [->|Hne].
    + right. rewrite Hc' in Hu'. injection Hu' as <-.
      apply Hv'. simpl. destruct He as (adj' & Ha' & Hvw).
      rewrite Hadj in Ha'. injection Ha' as <-. by apply dict_get_elem_of.
    + eauto.
Qed.

(** Each level of [dijkstra_while] ends the loop or uses up [2 ^ depth]
    units of the measure. *)
Lemma dijkstra_while_inv depth d pq :
  dijkstra_inv graph start d pq ->
  match dijkstra_while depth graph d pq with
  | Finished d' => dijkstra_inv graph start d' []
  | Running d' pq' =>
      dijkstra_inv graph start d' pq' /\
      loop_measure d' pq' + 2 ^ Z.of_nat depth <= loop_measure d pq
  | Failed _ => False
  end.
Proof.
  revert d pq. induction depth as [|depth IH]; intros d pq Hinv.
  - simpl dijkstra_while. pose proof (dijkstra_iter_inv d pq Hinv) as Hit.
    destruct (dijkstra_iter graph d pq) as [d' pq'|d'|e]; [|by destruct Hit as [-> ->]|done].
    destruct Hit. split; [done|]. change (2 ^ Z.of_nat 0) with 1. lia.
  - simpl dijkstra_while. pose proof (IH d pq Hinv) as H1.
    destruct (dijkstra_while depth graph d pq) as [d1 pq1|d1|e]; [|done|done].
    destruct H1 as [Hinv1 Hm1]. pose proof (IH d1 pq1 Hinv1) as H2.
    destruct (dijkstra_while depth graph d1 pq1) as [d2 pq2|d2|e]; [|done|done].
    destruct H2 as [Hinv2 Hm2]. split; [done|].
    rewrite Nat2Z.inj_succ, Z.pow_succ_r by lia. lia.
Qed.
End dijkstra_loops.

(** ** [dijkstra] returns, and what it returns *)

Section dijkstra_result.
Variable graph : graph_t.
Variable start : string.
Hypothesis Hok : graph_ok graph.
Hypothesis Hstart : start ∈ dict_keys graph.

Let distances0 : dict Z :=
  dict_set (dict_comp (dict_keys graph) (fun _ => maxsize)) start 0.

Lemma distances0_get v :
  dict_get distances0 v
  = if decide (start = v) then Some 0
    else if decide (v ∈ dict_keys graph) then Some maxsize else None.
Proof.
  unfold distances0. rewrite dict_get_set. case_decide; [done|].
  apply dict_get_comp, Hok.
Qed.

Lemma distances0_keys : dict_keys distances0 = dict_keys graph.
Proof.
  unfold distances0. pose proof (ok_keys _ Hok) as Hnd.
  rewrite dict_keys_set_present; rewrite dict_keys_comp; done.
Qed.

Lemma dijkstra_inv_init : dijkstra_inv graph start distances0 [(0, start)].
Proof.
  split.
  - apply distances0_keys.
  - rewrite distances0_get. by rewrite decide_True.
  - intros v x. rewrite distances0_get. unfold maxsize.
    repeat case_decide; intros [= <-]; lia.
  - intros v x. rewrite distances0_get.
    repeat case_decide; intros [= <-] Hx; [|lia].
    subst v. by apply walk_nil.
  - intros x v Hin. apply list_elem_of_singleton in Hin as [= -> ->].
    split; [lia|]. exists 0. rewrite distances0_get. by rewrite decide_True.
  - intros u v w x _. rewrite distances0_get.
    repeat case_decide; intros [= <-] Hx; [|lia].
    subst u. left. left.
Qed.

Lemma loop_measure_init :
  loop_measure distances0 [(0, start)] < 2 ^ Z.of_nat (64 + length graph).
Proof.
  pose proof dijkstra_inv_init as Hinv.
  assert (Hlen : length distances0 = length graph).
  { rewrite <- (length_fmap fst distances0), <- (length_fmap fst graph).
    apply (f_equal length distances0_keys). }
  assert (Hsum : 0 <= dict_sum distances0 <= Z.of_nat (length distances0) * maxsize).
  { apply dict_sum_bounds. intros k x Hin. apply (inv_range _ _ _ _ Hinv k).
    apply elem_of_dict_get; [|done]. rewrite distances0_keys. apply Hok. }
  rewrite Hlen in Hsum. unfold loop_measure. simpl length.
  rewrite Nat2Z.inj_add, Z.pow_add_r by lia.
  pose proof (Z.pow_gt_lin_r 2 (Z.of_nat (length graph))) as Hpow.
  unfold maxsize in *. change (2 ^ Z.of_nat 64) with (2 * 2 ^ 63).
  assert (0 < 2 ^ 63) by lia. nia.
Qed.

(** When the heap is empty, the recorded distance of a vertex is at most
    the weight of every path from [start] to it. *)
Lemma dijkstra_inv_lower d v a :
  dijkstra_inv graph start d [] ->
  walk graph start v a ->
  exists x, dict_get d v = Some x /\ x <= a /\ 0 <= x <= maxsize.
Proof.
  intros Hinv Hwalk. induction Hwalk as [_|u v a w Hwalk (x & Hx & Hle & Hr) Hedge].
  - exists 0. split; [apply Hinv|]. unfold maxsize. lia.
  - pose proof (ok_nonneg _ Hok _ _ _ Hedge) as Hw.
    pose proof (ok_closed _ Hok _ _ _ Hedge) as Hv.
    rewrite <- (inv_keys _ _ _ _ Hinv) in Hv.
    apply dict_get_is_Some in Hv as [y Hy].
    pose proof (inv_range _ _ _ _ Hinv _ _ Hy) as Hyr.
    exists y. split; [done|]. split; [|done].
    destruct (decide (x < maxsize)) as [Hlt|Hge]; [|lia].
    destruct (inv_relaxed _ _ _ _ Hinv _ _ _ _ Hedge Hx Hlt) as [Hin|(y' & Hy' & Hle')].
    + inversion Hin.
    + rewrite Hy in Hy'. injection Hy' as <-. lia.
Qed.

Lemma dijkstra_returns :
  exists d, dijkstra graph start = Some (Ok d) /\ dijkstra_inv graph start d [].
Proof.
  unfold dijkstra. fold distances0.
  pose proof (dijkstra_while_inv graph start Hok (64 + length graph)
                distances0 [(0, start)] dijkstra_inv_init) as Hw.
  destruct (dijkstra_while _ _ _ _) as [d' pq'|d'|e]; [|by eauto|done].
  exfalso. destruct Hw as [Hinv Hm].
  pose proof loop_measure_init as Hinit.
  assert (0 <= loop_measure d' pq'); [|lia].
  unfold loop_measure.
  assert (0 <= dict_sum d'); [|lia].
  apply dict_sum_bounds. intros k x Hin. apply (inv_range _ _ _ _ Hinv k).
  apply elem_of_dict_get; [|done]. rewrite (inv_keys _ _ _ _ Hinv). apply Hok.
Qed.
End dijkstra_result.

Lemma graph_okb_ok graph : graph_okb graph = true -> graph_ok graph.
Proof.
  unfold graph_okb. rewrite andb_true_iff, forallb_forall.
  intros [Hnd Hall]. apply bool_decide_eq_true in Hnd.
  assert (Hadj : forall u adj, dict_get graph u = Some adj ->
            NoDup (dict_keys adj) /\
            forall v w, dict_get adj v = Some w -> v ∈ dict_keys graph /\ 0 <= w).
  { intros u adj Hg. apply dict_get_elem_of, list_elem_of_In, Hall in Hg.
    apply andb_true_iff in Hg as [Hnd' Hws]. apply bool_decide_eq_true in Hnd'.
    split; [done|]. intros v w Ha. rewrite forallb_forall in Hws.
    apply dict_get_elem_of, list_elem_of_In, Hws in Ha.
    apply andb_true_iff in Ha as [Hv Hw]. apply bool_decide_eq_true in Hv.
    apply Z.leb_le in Hw. done. }
  split; [done | | |].
  - intros u adj Hg. by apply (Hadj u).
  - intros u v w (adj & Hg & Ha). by apply (proj2 (Hadj u adj Hg) v w).
  - intros u v w (adj & Hg & Ha). by apply (proj2 (Hadj u adj Hg) v w).
Qed.

Lemma dijkstra_while_Failed depth graph d pq e :
  dijkstra_iter graph d pq = Failed e -> dijkstra_while depth graph d pq = Failed e.
Proof.
  intros Hit. induction depth as [|depth IH]; simpl; [done|]. by rewrite IH.
Qed.

(** With a source that is no key of the graph, the first iteration raises
    at [graph[current_vertex]]. *)
Lemma dijkstra_unknown_source graph start :
  start ∉ dict_keys graph -> dijkstra graph start = Some (Raise (KeyError start)).
Proof.
  intros Hs. unfold dijkstra. rewrite (dijkstra_while_Failed _ _ _ _ (KeyError start)); [done|].
  unfold dijkstra_iter. cbn [heappop heap_min remove_first].
  rewrite decide_True by done. unfold getitem at 1. rewrite dict_get_set_eq.
  change (0 >? 0) with false. cbv iota. unfold getitem.
  apply dict_get_None in Hs. by rewrite Hs.
Qed.

(** ** Cells of a matrix *)

Lemma get_cell_Ok dist i j x :
  get_cell dist i j = Ok x <->
  exists row, dist !! i = Some row /\ row !! j = Some x.
Proof.
  unfold get_cell, list_getitem. destruct (dist !! i) as [row|]; simpl.
  - destruct (row !! j) as [y|] eqn:E; simpl.
    + split; [intros [= ->]; eauto | intros (r & [= <-] & Hr); congruence].
    + split; [done | intros (r & [= <-] & Hr); congruence].
  - split; [done | intros (r & Hr & _); done].
Qed.

Lemma set_cell_Ok dist i j x dist' :
  set_cell dist i j x = Ok dist' <->
  exists row, dist !! i = Some row /\ (j < length row)%nat /\
              dist' = <[i := <[j := x]> row]> dist.
Proof.
  unfold set_cell, list_getitem. destruct (dist !! i) as [row|]; simpl.
  - case_decide.
    + split; [intros [= <-]; eauto | intros (r & [= <-] & _ & ->); done].
    + split; [done | intros (r & [= <-] & ? & _); done].
  - split; [done | intros (r & Hr & _); done].
Qed.

Lemma get_set_cell dist i j x dist' i' j' :
  set_cell dist i j x = Ok dist' ->
  get_cell dist' i' j'
  = if decide (i' = i /\ j' = j) then Ok x else get_cell dist i' j'.
Proof.
  intros (row & Hrow & Hj & ->)%set_cell_Ok.
  pose proof (lookup_lt_Some _ _ _ Hrow) as Hi.
  unfold get_cell, list_getitem. destruct (decide (i' = i)) as [->|Hne].
  - rewrite list_lookup_insert_eq, Hrow by done. simpl.
    destruct (decide (j' = j)) as [->|Hnej].
    + rewrite list_lookup_insert_eq by done. by rewrite decide_True.
    + rewrite list_lookup_insert_ne by done. rewrite decide_False; [done|tauto].
  - rewrite list_lookup_insert_ne by done. rewrite decide_False; [done|tauto].
Qed.

Lemma square_get_cell n dist i j :
  square n dist -> (i < n)%nat -> (j < n)%nat -> exists x, get_cell dist i j = Ok x.
Proof.
  intros [Hlen Hrows] Hi Hj.
  destruct (lookup_lt_is_Some_2 dist i) as [row Hrow]; [lia|].
  pose proof (proj1 (Forall_lookup _ _) Hrows i row Hrow) as Hr. simpl in Hr.
  destruct (lookup_lt_is_Some_2 row j) as [x Hx]; [lia|].
  exists x. apply get_cell_Ok. eauto.
Qed.

Lemma square_set_cell n dist i j x :
  square n dist -> (i < n)%nat -> (j < n)%nat ->
  exists dist', set_cell dist i j x = Ok dist' /\ square n dist'.
Proof.
  intros [Hlen Hrows] Hi Hj.
  destruct (lookup_lt_is_Some_2 dist i) as [row Hrow]; [lia|].
  pose proof (proj1 (Forall_lookup _ _) Hrows i row Hrow) as Hr. simpl in Hr.
  eexists. split.
  - apply set_cell_Ok. exists row. split; [done|]. split; [lia|done].
  - split; [by rewrite length_insert|].
    apply Forall_insert; [done|]. by rewrite length_insert.
Qed.

Lemma set_cell_square n dist i j x dist' :
  set_cell dist i j x = Ok dist' -> square n dist -> square n dist'.
Proof.
  intros (row & Hrow & Hj & ->)%set_cell_Ok [Hlen Hrows].
  split; [by rewrite length_insert|].
  apply Forall_insert; [done|]. rewrite length_insert.
  apply (proj1 (Forall_lookup _ _) Hrows i row Hrow).
Qed.

Lemma set_cell_all_cells (P : Z -> Prop) dist i j x dist' :
  set_cell dist i j x = Ok dist' -> P x -> all_cells P dist -> all_cells P dist'.
Proof.
  intros (row & Hrow & Hj & ->)%set_cell_Ok Hx Hall.
  apply Forall_insert; [done|]. apply Forall_insert; [|done].
  apply (proj1 (Forall_lookup _ _) Hall i row Hrow).
Qed.

Lemma all_cells_get_cell (P : Z -> Prop) dist i j x :
  all_cells P dist -> get_cell dist i j = Ok x -> P x.
Proof.
  intros Hall (row & Hrow & Hx)%get_cell_Ok.
  pose proof (proj1 (Forall_lookup _ _) Hall i row Hrow) as Hr.
  apply (proj1 (Forall_lookup _ _) Hr j x Hx).
Qed.

(** ** One relaxation *)

Lemma relax_cell_Ok k i j dist dist' :
  relax_cell k i j dist = Ok dist' ->
  exists dij dik dkj,
    get_cell dist i j = Ok dij /\ get_cell dist i k = Ok dik /\
    get_cell dist k j = Ok dkj /\
    ((dik + dkj < dij /\ set_cell dist i j (dik + dkj) = Ok dist') \/
     (dij <= dik + dkj /\ dist' = dist)).
Proof.
  unfold relax_cell. intros H.
  apply bind_Ok_inv in H as (dij & Hij & H).
  apply bind_Ok_inv in H as (dik & Hik & H).
  apply bind_Ok_inv in H as (dkj & Hkj & H).
  exists dij, dik, dkj. repeat (split; [done|]).
  destruct (Z.gtb_spec dij (dik + dkj)) as [Hgt|Hle].
  - left. split; [lia|done].
  - right. injection H as <-. done.
Qed.

Lemma square_relax_cell n k i j dist :
  square n dist -> (k < n)%nat -> (i < n)%nat -> (j < n)%nat ->
  exists dist', relax_cell k i j dist = Ok dist' /\ square n dist'.
Proof.
  intros Hsq Hk Hi Hj. unfold relax_cell.
  destruct (square_get_cell n dist i j) as [dij ->]; try done.
  destruct (square_get_cell n dist i k) as [dik ->]; try done.
  destruct (square_get_cell n dist k j) as [dkj ->]; try done.
  rewrite !bind_Ok. destruct (dij >? dik + dkj).
  - by apply square_set_cell.
  - eauto.
Qed.

Lemma relax_cell_square n k i j dist dist' :
  relax_cell k i j dist = Ok dist' -> square n dist -> square n dist'.
Proof.
  intros (dij & dik & dkj & _ & _ & _ & [[_ Hset]| [_ ->]])%relax_cell_Ok; [|done].
  by eapply set_cell_square.
Qed.

(** A relaxation leaves every cell as it is or makes it smaller. *)
Lemma relax_cell_decreases k i j dist dist' i' j' x :
  relax_cell k i j dist = Ok dist' ->
  get_cell dist i' j' = Ok x ->
  exists y, get_cell dist' i' j' = Ok y /\ y <= x.
Proof.
  intros (dij & dik & dkj & Hij & _ & _ & [[Hlt Hset]| [_ ->]])%relax_cell_Ok Hx.
  - rewrite (get_set_cell _ _ _ _ _ _ _ Hset). case_decide as Hc.
    + destruct Hc as [-> ->]. rewrite Hij in Hx. injection Hx as <-.
      eexists. split; [done|lia].
    + exists x. split; [done|lia].
  - exists x. split; [done|lia].
Qed.

(** ** The matrix D0 *)

Lemma list_index_Ok l x c : list_index l x = Ok c -> l !! c = Some x.
Proof.
  revert c. induction l as [|y l IH]; intros c; simpl; [done|].
  case_decide; [by intros [= <-]; subst|].
  intros (c' & Hc' & [= <-])%bind_Ok_inv. simpl. auto.
Qed.

Lemma list_index_elem_of l x : x ∈ l -> exists c, list_index l x = Ok c.
Proof.
  induction l as [|y l IH]; [intros H; inversion H|].
  rewrite elem_of_cons. intros Hin. simpl. case_decide; [eauto|].
  destruct IH as [c ->]; [destruct Hin; [congruence|done]|]. eauto.
Qed.

Lemma list_index_NoDup l c x : NoDup l -> l !! c = Some x -> list_index l x = Ok c.
Proof.
  revert c. induction l as [|y l IH]; intros c Hnd; [done|].
  apply NoDup_cons in Hnd as [Hy Hnd]. destruct c as [|c]; simpl.
  - intros [= ->]. by rewrite decide_True.
  - intros Hc. rewrite decide_False.
    + by rewrite (IH c).
    + intros ->. apply Hy. by eapply list_elem_of_lookup_2.
Qed.

Lemma square_fresh_matrix n : square n (fresh_matrix n).
Proof.
  unfold fresh_matrix. split; [apply length_replicate|].
  apply Forall_replicate, length_replicate.
Qed.

Lemma all_cells_fresh_matrix (P : Z -> Prop) n : P maxsize -> all_cells P (fresh_matrix n).
Proof. intros H. by apply Forall_replicate, Forall_replicate. Qed.

Section initial_matrix_facts.
Variable graph : graph_t.
Variable vertices : list string.
Let n := length vertices.

Lemma set_edges_row_invariant (P : matrix -> Prop) dist i dist' :
  (forall d r c w u v d', P d -> edge graph u v w ->
     set_cell d r c w = Ok d' -> P d') ->
  P dist -> set_edges_row graph vertices dist i = Ok dist' -> P dist'.
Proof.
  intros Hset Hd. unfold set_edges_row.
  intros (vi & Hvi & H)%bind_Ok_inv. apply bind_Ok_inv in H as (adj & Hadj & H).
  revert H. apply foldM_invariant; [|done].
  intros d j d' _ Hp H. apply bind_Ok_inv in H as (w & Hw & H).
  apply bind_Ok_inv in H as (c & Hc & H).
  apply (Hset d i c w vi j d'); [done| |done].
  exists adj. by split; apply getitem_Ok.
Qed.

(** Whatever holds of the fresh matrix and is kept by writing 0 or the
    weight of an edge in a cell holds of D0. *)
Lemma initial_matrix_invariant (P : matrix -> Prop) dist :
  P (fresh_matrix n) ->
  (forall d r c d', P d -> set_cell d r c 0 = Ok d' -> P d') ->
  (forall d r c w u v d', P d -> edge graph u v w ->
     set_cell d r c w = Ok d' -> P d') ->
  initial_matrix graph vertices = Ok dist -> P dist.
Proof.
  intros Hfresh Hzero Hedge. unfold initial_matrix. fold n.
  intros (d1 & Hd1 & Hd)%bind_Ok_inv.
  assert (P d1) as Hp1.
  { revert Hd1. apply foldM_invariant; [|done]. intros d i d' _. apply Hzero. }
  revert Hd. apply foldM_invariant; [|done].
  intros d i d' _ Hp. by apply set_edges_row_invariant.
Qed.

Lemma initial_matrix_square dist :
  initial_matrix graph vertices = Ok dist -> square n dist.
Proof.
  apply initial_matrix_invariant.
  - apply square_fresh_matrix.
  - intros d r c d' Hsq Hset. by eapply set_cell_square.
  - intros d r c w u v d' Hsq _ Hset. by eapply set_cell_square.
Qed.

Lemma initial_matrix_all_cells (P : Z -> Prop) dist :
  P maxsize -> P 0 -> (forall u v w, edge graph u v w -> P w) ->
  initial_matrix graph vertices = Ok dist -> all_cells P dist.
Proof.
  intros Hmax Hzero Hedge. apply initial_matrix_invariant.
  - by apply all_cells_fresh_matrix.
  - intros d r c d' Hall Hset. by eapply set_cell_all_cells.
  - intros d r c w u v d' Hall He Hset. eapply set_cell_all_cells; eauto.
Qed.

Lemma initial_matrix_returns :
  fw_ok graph vertices -> exists dist, initial_matrix graph vertices = Ok dist.
Proof.
  intros [Hkeys Hclosed]. unfold initial_matrix. fold n.
  destruct (foldM_total (square n) (fun d i => set_cell d i i 0) (seq 0 n)
              (fresh_matrix n)) as (d1 & Hd1 & Hsq1).
  { intros d i Hi%elem_of_seq Hsq. apply square_set_cell; [done|lia..]. }
  { apply square_fresh_matrix. }
  unfold set_diagonal. rewrite Hd1, bind_Ok.
  destruct (foldM_total (square n) (set_edges_row graph vertices) (seq 0 n) d1)
    as (d2 & Hd2 & _); [|done|by eauto].
  intros d i Hi%elem_of_seq Hsq. unfold set_edges_row.
  destruct (lookup_lt_is_Some_2 vertices i) as [vi Hvi]; [fold n; lia|].
  rewrite (list_getitem_Some _ _ _ Hvi), bind_Ok.
  assert (Hin : vi ∈ dict_keys graph).
  { apply Hkeys. by eapply list_elem_of_lookup_2. }
  apply dict_get_is_Some in Hin as [adj Hadj].
  rewrite (getitem_Some _ _ _ Hadj), bind_Ok. apply foldM_total; [|done].
  intros d' j Hj Hsq'. apply dict_get_is_Some in Hj as [w Hw].
  rewrite (getitem_Some _ _ _ Hw), bind_Ok.
  destruct (list_index_elem_of vertices j) as [c Hc].
  { apply (Hclosed vi j w). by exists adj. }
  rewrite Hc, bind_Ok. apply square_set_cell; [done|lia|].
  apply list_index_Ok, lookup_lt_Some in Hc. done.
Qed.
End initial_matrix_facts.

(** ** The pivot passes *)

Lemma elem_of_pass_schedule n k k' i j :
  (k', i, j) ∈ pass_schedule n k <-> k' = k /\ (i < n)%nat /\ (j < n)%nat.
Proof.
  unfold pass_schedule. rewrite list_elem_of_In, in_flat_map. split.
  - intros (i' & Hi'%list_elem_of_In%elem_of_seq & Hin%list_elem_of_In).
    apply list_elem_of_fmap in Hin as (j' & [= -> -> ->] & Hj'%elem_of_seq). lia.
  - intros (-> & Hi & Hj). exists i. split.
    + apply list_elem_of_In, elem_of_seq. lia.
    + apply list_elem_of_In, list_elem_of_fmap. exists j. split; [done|].
      apply elem_of_seq. lia.
Qed.

Lemma length_pass_schedule n k : length (pass_schedule n k) = (n * n)%nat.
Proof.
  unfold pass_schedule.
  assert (forall l : list nat,
    length (flat_map (fun i => map (fun j => (k, i, j)) (seq 0 n)) l)
    = (length l * n)%nat) as Hlen.
  { induction l as [|i l IH]; [done|].
    cbn [flat_map]. rewrite length_app, IH, length_map, length_seq. simpl. lia. }
  by rewrite Hlen, length_seq.
Qed.

Lemma elem_of_schedule n k i j :
  (k, i, j) ∈ schedule n <-> (k < n)%nat /\ (i < n)%nat /\ (j < n)%nat.
Proof.
  unfold schedule. rewrite list_elem_of_In, in_flat_map. split.
  - intros (k' & Hk'%list_elem_of_In%elem_of_seq & Hin%list_elem_of_In).
    apply elem_of_pass_schedule in Hin as (-> & ? & ?). lia.
  - intros (Hk & Hi & Hj). exists k. split.
    + apply list_elem_of_In, elem_of_seq. lia.
    + by apply list_elem_of_In, elem_of_pass_schedule.
Qed.

Lemma pivot_pass_schedule n k dist :
  pivot_pass n k dist = foldM relax_at (pass_schedule n k) dist.
Proof.
  unfold pivot_pass, pass_schedule. rewrite foldM_flat_map.
  apply foldM_ext. intros d i _. unfold pivot_row. by rewrite foldM_map.
Qed.

Lemma pivot_pass_invariant (P : matrix -> Prop) n k dist dist' :
  (forall i j d d', (i < n)%nat -> (j < n)%nat ->
     P d -> relax_cell k i j d = Ok d' -> P d') ->
  P dist -> pivot_pass n k dist = Ok dist' -> P dist'.
Proof.
  intros Hrel Hp. rewrite pivot_pass_schedule. apply foldM_invariant; [|done].
  intros d [[k' i] j] d' (-> & Hi & Hj)%elem_of_pass_schedule. by apply Hrel.
Qed.

Lemma pivot_pass_total n k dist :
  square n dist -> (k < n)%nat ->
  exists dist', pivot_pass n k dist = Ok dist' /\ square n dist'.
Proof.
  intros Hsq Hk. rewrite pivot_pass_schedule. apply foldM_total; [|done].
  intros d [[k' i] j] (-> & Hi & Hj)%elem_of_pass_schedule Hd.
  by apply square_relax_cell.
Qed.

(** The list that the loop over the pivots builds: one matrix more than
    there are pivots, each the pass of the matrix before it, the last one
    the working matrix. *)
Lemma pivot_steps_snapshots n ks dist0 dist all_matrices :
  foldM (pivot_step n) ks (dist0, [dist0]) = Ok (dist, all_matrices) ->
  length all_matrices = S (length ks) /\
  all_matrices !! O = Some dist0 /\
  all_matrices !! length ks = Some dist /\
  forall t k, ks !! t = Some k ->
    exists a b, all_matrices !! t = Some a /\ all_matrices !! S t = Some b /\
                pivot_pass n k a = Ok b.
Proof.
  revert dist all_matrices. induction ks as [|k ks IH] using rev_ind;
    intros dist all_matrices.
  - intros [= <- <-]. repeat split; done.
  - rewrite foldM_app. intros ([d1 all1] & H1 & H2)%bind_Ok_inv.
    destruct (IH _ _ H1) as (Hlen & H0 & Hlast & Hchain).
    rewrite foldM_singleton in H2. unfold pivot_step in H2.
    apply bind_Ok_inv in H2 as (d2 & Hpass & [= <- <-]).
    rewrite !length_app. cbn [length]. split; [lia|].
    split; [by apply lookup_app_l_Some|].
    split.
    { rewrite lookup_app_r by lia.
      replace (length ks + 1 - length all1)%nat with O by lia. done. }
    intros t k' Ht. apply lookup_app_Some in Ht as [Ht|[Hge Ht]].
    + destruct (Hchain _ _ Ht) as (a & b & Ha & Hb & Hab).
      exists a, b. split; [by apply lookup_app_l_Some|].
      split; [by apply lookup_app_l_Some|done].
    + apply list_lookup_singleton_Some in Ht as [Ht ->].
      assert (t = length ks) as -> by lia.
      exists d1, d2. split; [by apply lookup_app_l_Some|]. split; [|done].
      rewrite lookup_app_r by lia.
      replace (S (length ks) - length all1)%nat with O by lia. done.
Qed.

Lemma pivot_steps_total n ks dist0 all0 :
  square n dist0 -> (forall k, k ∈ ks -> (k < n)%nat) ->
  exists dist all_matrices, foldM (pivot_step n) ks (dist0, all0) = Ok (dist, all_matrices).
Proof.
  intros Hsq Hks.
  destruct (foldM_total (fun st : matrix * list matrix => square n st.1)
              (pivot_step n) ks (dist0, all0)) as ([d a] & Hd & _); [|done|by eauto].
  intros [d a] k Hk Hd. simpl in Hd.
  destruct (pivot_pass_total n k d Hd (Hks k Hk)) as (d' & Hd' & Hsq').
  exists (d', a ++ [d']). unfold pivot_step. by rewrite Hd', bind_Ok.
Qed.

Lemma floyd_warshall_returns graph vertices :
  fw_ok graph vertices ->
  exists dist all_matrices, floyd_warshall graph vertices = Ok (dist, all_matrices).
Proof.
  intros Hok. unfold floyd_warshall.
  destruct (initial_matrix_returns graph vertices Hok) as [d0 Hd0].
  rewrite Hd0, bind_Ok. apply pivot_steps_total.
  - by eapply initial_matrix_square.
  - intros k Hk%elem_of_seq. lia.
Qed.

(** What [floyd_warshall] returns, step by step. *)
Lemma floyd_warshall_snapshots graph vertices dist all_matrices :
  floyd_warshall graph vertices = Ok (dist, all_matrices) ->
  length all_matrices = S (length vertices) /\
  all_matrices !! length vertices = Some dist /\
  (exists dist0, initial_matrix graph vertices = Ok dist0 /\
                 all_matrices !! O = Some dist0) /\
  forall k, (k < length vertices)%nat ->
    exists a b, all_matrices !! k = Some a /\ all_matrices !! S k = Some b /\
                pivot_pass (length vertices) k a = Ok b.
Proof.
  unfold floyd_warshall. cbv zeta. intros (d0 & Hd0 & Hloop)%bind_Ok_inv.
  apply pivot_steps_snapshots in Hloop as (Hlen & H0 & Hlast & Hchain).
  rewrite length_seq in Hlen, Hlast. repeat split; try done; [by eauto|].
  intros k Hk. apply Hchain. by apply lookup_seq_lt.
Qed.

(** Every snapshot is square, and whatever D0 satisfies and a relaxation
    keeps holds of every snapshot. *)
Lemma floyd_warshall_invariant (P : matrix -> Prop) graph vertices dist all_matrices :
  (forall dist0, initial_matrix graph vertices = Ok dist0 -> P dist0) ->
  (forall k i j d d', P d -> relax_cell k i j d = Ok d' -> P d') ->
  floyd_warshall graph vertices = Ok (dist, all_matrices) ->
  forall k a, all_matrices !! k = Some a -> P a.
Proof.
  intros Hinit Hrel Hfw.
  destruct (floyd_warshall_snapshots _ _ _ _ Hfw) as (Hlen & _ & (d0 & Hd0 & H0) & Hchain).
  induction k as [|k IH]; intros a Ha.
  - rewrite H0 in Ha. injection Ha as <-. auto.
  - assert (k < length vertices)%nat as Hk.
    { apply lookup_lt_Some in Ha. lia. }
    destruct (Hchain k Hk) as (a' & b & Ha' & Hb & Hab).
    rewrite Ha in Hb. injection Hb as <-.
    revert Hab. apply pivot_pass_invariant; [|by apply IH].
    intros i j d d' _ _. apply Hrel.
Qed.

Lemma weights_withinb_ok lo hi graph u v w :
  weights_withinb lo hi graph = true -> edge graph u v w -> lo <= w <= hi.
Proof.
  unfold weights_withinb. rewrite forallb_forall. intros Hall (adj & Hg & Ha).
  apply dict_get_elem_of, list_elem_of_In, Hall in Hg. rewrite forallb_forall in Hg.
  apply dict_get_elem_of, list_elem_of_In, Hg in Ha. lia.
Qed.

(** ** The working matrix between two relaxations *)

Lemma take_schedule n k :
  (k <= n)%nat -> take (k * (n * n)) (schedule n) = flat_map (pass_schedule n) (seq 0 k).
Proof.
  intros Hk. unfold schedule.
  assert (seq 0 n = seq 0 k ++ seq k (n - k)) as ->.
  { rewrite <- seq_app. f_equal. lia. }
  rewrite flat_map_app. apply take_app_length'.
  assert (forall l, length (flat_map (pass_schedule n) l) = (length l * (n * n))%nat) as Hlen.
  { induction l as [|a l IH]; [done|].
    cbn [flat_map]. rewrite length_app, length_pass_schedule, IH. simpl. lia. }
  by rewrite Hlen, length_seq.
Qed.

Lemma working_matrix_passes graph vertices k :
  (k <= length vertices)%nat ->
  working_matrix graph vertices (k * (length vertices * length vertices))
  = (initial_matrix graph vertices ≫=
     foldM (fun d k => pivot_pass (length vertices) k d) (seq 0 k)).
Proof.
  intros Hk. unfold working_matrix. rewrite take_schedule by done.
  destruct (initial_matrix graph vertices) as [d0|e]; [|done]. rewrite !bind_Ok.
  rewrite foldM_flat_map. apply foldM_ext. intros d k' _.
  by rewrite pivot_pass_schedule.
Qed.

(** Snapshot [k] is the working matrix after the [k * n * n] relaxations
    of the first [k] passes. *)
Lemma working_matrix_snapshot graph vertices dist all_matrices k a :
  floyd_warshall graph vertices = Ok (dist, all_matrices) ->
  all_matrices !! k = Some a ->
  working_matrix graph vertices (k * (length vertices * length vertices)) = Ok a.
Proof.
  intros Hfw.
  destruct (floyd_warshall_snapshots _ _ _ _ Hfw) as (Hlen & _ & (d0 & Hd0 & H0) & Hchain).
  revert a. induction k as [|k IH]; intros a Ha.
  - rewrite H0 in Ha. injection Ha as <-. unfold working_matrix.
    by rewrite Hd0, bind_Ok.
  - assert (k < length vertices)%nat as Hk.
    { apply lookup_lt_Some in Ha. lia. }
    destruct (Hchain k Hk) as (a' & b & Ha' & Hb & Hab).
    rewrite Ha in Hb. injection Hb as <-.
    specialize (IH a' Ha'). rewrite working_matrix_passes in IH |- * by lia.
    rewrite Hd0, bind_Ok in IH |- *.
    rewrite seq_S, foldM_app, IH, bind_Ok, foldM_singleton. done.
Qed.

Lemma working_matrix_invariant (P : matrix -> Prop) graph vertices t dist :
  (forall dist0, initial_matrix graph vertices = Ok dist0 -> P dist0) ->
  (forall k i j d d', P d -> relax_cell k i j d = Ok d' -> P d') ->
  working_matrix graph vertices t = Ok dist -> P dist.
Proof.
  intros Hinit Hrel. unfold working_matrix. intros (d0 & Hd0 & H)%bind_Ok_inv.
  revert H. apply foldM_invariant; [|by apply Hinit].
  intros d [[k i] j] d' _. apply Hrel.
Qed.

Lemma relax_cell_all_cells_le k i j dist dist' :
  all_cells (fun x => x <= maxsize) dist ->
  relax_cell k i j dist = Ok dist' ->
  all_cells (fun x => x <= maxsize) dist'.
Proof.
  intros Hall (dij & dik & dkj & Hij & _ & _ & [[Hlt Hset]| [_ ->]])%relax_cell_Ok; [|done].
  eapply set_cell_all_cells; [done| |done]. simpl.
  pose proof (all_cells_get_cell _ _ _ _ _ Hall Hij) as Hle. simpl in Hle. lia.
Qed.

Lemma relax_cell_all_cells_within k i j dist dist' :
  all_cells (fun x => 0 <= x <= maxsize) dist ->
  relax_cell k i j dist = Ok dist' ->
  all_cells (fun x => 0 <= x <= maxsize) dist'.
Proof.
  intros Hall (dij & dik & dkj & Hij & Hik & Hkj & [[Hlt Hset]| [_ ->]])%relax_cell_Ok; [|done].
  eapply set_cell_all_cells; [done| |done]. simpl.
  pose proof (all_cells_get_cell _ _ _ _ _ Hall Hij) as H1.
  pose proof (all_cells_get_cell _ _ _ _ _ Hall Hik) as H2.
  pose proof (all_cells_get_cell _ _ _ _ _ Hall Hkj) as H3.
  simpl in *. lia.
Qed.

Example scenario_input :
  input_graph scenario_labels scenario_lines = Ok (scenario_graph, scenario_labels).
Proof. vm_compute. reflexivity. Qed.

(** The scenario of the specification, from A. *)
Example scenario_dijkstra :
  dijkstra scenario_graph "A" = Some (Ok [("A", 0); ("B", 4); ("C", 6)])%string.
Proof. vm_compute. reflexivity. Qed.

(** The scenario of the specification, all pairs: the distance from
    A to C is 6, through B, from the snapshot after pivot B on. *)
Example scenario_floyd_warshall :
  floyd_warshall scenario_graph scenario_labels = Ok (scenario_dist, scenario_snapshots).
Proof. vm_compute. reflexivity. Qed.

(** ** Computations on the store *)

Lemma prog_bind_eq {A B : Type} (p : prog A) (k : A -> prog B) h :
  (p ≫= k) h = match p h with Ok (a, h') => k a h' | Raise e => Raise e end.
Proof. reflexivity. Qed.

Lemma sim_bind {A A' B B' : Type} (R : A -> store -> B -> Prop)
    (R' : A' -> store -> B' -> Prop) (p : prog A) (k : A -> prog A')
    (q : result B) (k' : B -> result B') h :
  sim R (p h) q ->
  (forall a h' b, R a h' b -> sim R' (k a h') (k' b)) ->
  sim R' ((p ≫= k) h) (q ≫= k').
Proof.
  intros Hp Hk. rewrite prog_bind_eq. unfold sim in Hp.
  destruct (p h) as [[a h']|e], q as [b|e']; try done.
  rewrite bind_Ok. by apply Hk.
Qed.

Lemma sim_lift {A : Type} (R : A -> store -> A -> Prop) (r : result A) h :
  (forall a, R a h a) -> sim R (lift r h) r.
Proof. intros HR. destruct r; simpl; auto. Qed.

Lemma sim_foldP {A S B : Type} (R : S -> store -> B -> Prop)
    (f : S -> A -> prog S) (g : B -> A -> result B) l s h b :
  (forall a s h b, a ∈ l -> R s h b -> sim R (f s a h) (g b a)) ->
  R s h b -> sim R (foldP f l s h) (foldM g l b).
Proof.
  revert s h b. induction l as [|a l IH]; intros s h b Hstep HR; [done|].
  cbn [foldP]. rewrite foldM_cons. apply (sim_bind R).
  - apply Hstep; [left|done].
  - intros s' h' b' HR'. apply IH; [|done].
    intros a' s1 h1 b1 Hin. apply Hstep. by right.
Qed.

Lemma foldP_app {A S : Type} (f : S -> A -> prog S) l1 l2 s h :
  foldP f (l1 ++ l2) s h = (foldP f l1 s ≫= foldP f l2) h.
Proof.
  revert s h. induction l1 as [|a l1 IH]; intros s h; [done|].
  rewrite <- app_comm_cons. cbn [foldP]. rewrite !prog_bind_eq.
  destruct (f s a h) as [[s' h']|e]; [|done]. rewrite IH. by rewrite prog_bind_eq.
Qed.

(** ** Matrices in the store *)

Lemma matrix_at_holds h m d :
  matrix_at h m = Some d <-> exists rows, holds h m rows d.
Proof.
  unfold matrix_at, rows_at, holds. split.
  - destruct (h !! m) as [[cells|rows]|]; try done. simpl.
    intros Hm%mapM_Some. exists rows. split; [done|].
    eapply Forall2_impl; [done|]. intros r row. unfold row_at.
    by destruct (h !! r) as [[cells|?]|]; intros [= ->].
  - intros (rows & -> & Hrows). simpl. apply mapM_Some.
    eapply Forall2_impl; [done|]. intros r row Hr. unfold row_at. by rewrite Hr.
Qed.

Lemma holds_objects_at h m rows d : holds h m rows d -> objects_at h m = m :: rows.
Proof. intros [Hm _]. unfold objects_at, rows_at. by rewrite Hm. Qed.

Lemma holds_lt h m rows d x : holds h m rows d -> x ∈ m :: rows -> (x < length h)%nat.
Proof.
  intros [Hm Hrows] [->|Hx]%elem_of_cons; [by eapply lookup_lt_Some|].
  apply list_elem_of_lookup in Hx as [i Hi].
  destruct (Forall2_lookup_l _ _ _ _ _ Hrows Hi) as (row & _ & Hr).
  by eapply lookup_lt_Some.
Qed.

Lemma holds_outer_not_row h m rows d : holds h m rows d -> m ∉ rows.
Proof.
  intros [Hm Hrows] Hin. apply list_elem_of_lookup in Hin as [i Hi].
  destruct (Forall2_lookup_l _ _ _ _ _ Hrows Hi) as (row & _ & Hr). congruence.
Qed.

Lemma holds_app h h2 m rows d : holds h m rows d -> holds (h ++ h2) m rows d.
Proof.
  intros [Hm Hrows]. split; [by apply lookup_app_l_Some|].
  eapply Forall2_impl; [done|]. intros r row Hr. by apply lookup_app_l_Some.
Qed.

(** A matrix none of whose objects is written is left as it is. *)
Lemma holds_frame h0 h (written : list nat) m rows d :
  (forall l, l ∉ written -> h !! l = h0 !! l) ->
  (forall x, x ∈ m :: rows -> x ∉ written) ->
  holds h0 m rows d -> holds h m rows d.
Proof.
  intros Hsame Hdisj [Hm Hrows]. split.
  - rewrite Hsame; [done|]. apply Hdisj. left.
  - apply Forall2_same_length_lookup. split; [by eapply Forall2_length|].
    intros i r row Hr Hrow. rewrite Hsame.
    + apply (Forall2_lookup_lr _ _ _ _ _ _ Hrows Hr Hrow).
    + apply Hdisj. right. by eapply list_elem_of_lookup_2.
Qed.

(** ** The loops on the store against the loops on values *)

Lemma Forall2_lookup_None_l {A B} (P : A -> B -> Prop) l k i :
  Forall2 P l k -> l !! i = None -> k !! i = None.
Proof.
  intros HF Hl. apply lookup_ge_None. apply lookup_ge_None in Hl.
  by rewrite <- (Forall2_length _ _ _ HF).
Qed.

Lemma load_cell_eq h dist rows d i j :
  holds h dist rows d ->
  load_cell dist i j h
  = match get_cell d i j with Ok x => Ok (x, h) | Raise e => Raise e end.
Proof.
  intros [Hm Hrows]. unfold load_cell, get_cell.
  rewrite prog_bind_eq. unfold read_refs at 1. rewrite Hm.
  rewrite prog_bind_eq. destruct (rows !! i) as [r|] eqn:Hr.
  - destruct (Forall2_lookup_l _ _ _ _ _ Hrows Hr) as (row & Hrow & Hcells).
    rewrite (list_getitem_Some _ _ _ Hr), (list_getitem_Some _ _ _ Hrow).
    cbn [lift]. rewrite bind_Ok, prog_bind_eq. unfold read_ints at 1.
    rewrite Hcells. by destruct (list_getitem row j).
  - pose proof (Forall2_lookup_None_l _ _ _ _ Hrows Hr) as Hd.
    unfold list_getitem. by rewrite Hr, Hd.
Qed.

Lemma store_cell_sim h dist rows d i j x :
  holds h dist rows d -> NoDup rows ->
  sim (fun _ h' d' => holds h' dist rows d' /\ length h' = length h /\
                      forall l, l ∉ rows -> h' !! l = h !! l)
      (store_cell dist i j x h) (set_cell d i j x).
Proof.
  intros Hholds Hnd. pose proof Hholds as [Hm Hrows]. unfold store_cell, set_cell.
  rewrite prog_bind_eq. unfold read_refs at 1. rewrite Hm.
  rewrite prog_bind_eq. destruct (rows !! i) as [r|] eqn:Hr.
  2:{ pose proof (Forall2_lookup_None_l _ _ _ _ Hrows Hr) as Hd.
      unfold list_getitem. by rewrite Hr, Hd. }
  destruct (Forall2_lookup_l _ _ _ _ _ Hrows Hr) as (row & Hrow & Hcells).
  rewrite (list_getitem_Some _ _ _ Hr), (list_getitem_Some _ _ _ Hrow).
  cbn [lift]. rewrite bind_Ok, prog_bind_eq. unfold read_ints at 1.
  rewrite Hcells. case_decide; [|done]. unfold write. cbn [sim].
  assert (r ∈ rows) as Hin by (by eapply list_elem_of_lookup_2).
  assert (dist ∉ rows) as Hout by (by eapply (holds_outer_not_row h dist rows d)).
  split; [split|split].
  - rewrite list_lookup_insert_ne; [done|]. by intros ->.
  - apply Forall2_same_length_lookup. split.
    { rewrite length_insert. by eapply Forall2_length. }
    intros i' r' row' Hr' Hrow'. destruct (decide (i' = i)) as [->|Hne].
    + rewrite Hr in Hr'. injection Hr' as <-.
      rewrite list_lookup_insert_eq in Hrow' by (by eapply lookup_lt_Some).
      injection Hrow' as <-. rewrite list_lookup_insert_eq; [done|].
      by eapply lookup_lt_Some.
    + rewrite list_lookup_insert_ne in Hrow' by done.
      rewrite list_lookup_insert_ne.
      * apply (Forall2_lookup_lr _ _ _ _ _ _ Hrows Hr' Hrow').
      * intros <-. apply Hne. by eapply NoDup_lookup.
  - by rewrite length_insert.
  - intros l Hl. rewrite list_lookup_insert_ne; [done|]. by intros ->.
Qed.

Section store_dist.
Variables (dist : nat) (rows : list nat).
Hypothesis Hnd : NoDup rows.
Variable h0 : store.

Let R : unit -> store -> matrix -> Prop :=
  fun _ h d => dist_rel dist rows h0 h d.

Lemma sim_load_cell h d i j (k : Z -> prog unit) (k' : Z -> result matrix) :
  holds h dist rows d ->
  (forall x, sim R (k x h) (k' x)) ->
  sim R ((load_cell dist i j ≫= k) h) (get_cell d i j ≫= k').
Proof.
  intros Hholds Hk. rewrite prog_bind_eq, (load_cell_eq h dist rows d) by done.
  destruct (get_cell d i j) as [x|e]; [|done]. rewrite bind_Ok. apply Hk.
Qed.

Lemma sim_store_cell h d i j x :
  R tt h d -> sim R (store_cell dist i j x h) (set_cell d i j x).
Proof.
  intros (Hholds & Hlen & Hsame).
  pose proof (store_cell_sim h dist rows d i j x Hholds Hnd) as Hst.
  unfold sim in *. destruct (store_cell dist i j x h) as [[[] h']|e],
    (set_cell d i j x) as [d'|e']; try done.
  destruct Hst as (Hholds' & Hlen' & Hsame').
  split; [done|]. split; [congruence|].
  intros l Hl. rewrite Hsame' by done. by apply Hsame.
Qed.

Lemma sim_relax_cell h d k i j :
  R tt h d -> sim R (store_relax_cell dist k i j h) (relax_cell k i j d).
Proof.
  intros HR. pose proof HR as (Hholds & _). unfold store_relax_cell, relax_cell.
  apply sim_load_cell; [done|]. intros dij.
  apply sim_load_cell; [done|]. intros dik.
  apply sim_load_cell; [done|]. intros dkj.
  destruct (dij >? dik + dkj); [by apply sim_store_cell | done].
Qed.

Lemma sim_pivot_pass n k h d :
  R tt h d -> sim R (store_pivot_pass n dist k h) (pivot_pass n k d).
Proof.
  intros HR. unfold store_pivot_pass, pivot_pass. apply sim_foldP; [|done].
  intros i [] h1 d1 _ HR1. unfold pivot_row. apply sim_foldP; [|done].
  intros j [] h2 d2 _ HR2. by apply sim_relax_cell.
Qed.

Lemma sim_set_diagonal n h d :
  R tt h d -> sim R (store_set_diagonal n dist h) (set_diagonal n d).
Proof.
  intros HR. unfold store_set_diagonal, set_diagonal. apply sim_foldP; [|done].
  intros i [] h1 d1 _ HR1. by apply sim_store_cell.
Qed.

Lemma sim_set_edges_row graph vertices h d i :
  R tt h d ->
  sim R (store_set_edges_row graph vertices dist i h)
        (set_edges_row graph vertices d i).
Proof.
  intros HR. unfold store_set_edges_row, set_edges_row.
  rewrite prog_bind_eq. destruct (list_getitem vertices i) as [vi|e]; [|done].
  cbn [lift]. rewrite bind_Ok, prog_bind_eq.
  destruct (getitem graph vi) as [adj|e]; [|done].
  cbn [lift]. rewrite bind_Ok. apply sim_foldP; [|done].
  intros j [] h1 d1 _ HR1. rewrite prog_bind_eq.
  destruct (getitem adj j) as [w|e]; [|done].
  cbn [lift]. rewrite bind_Ok, prog_bind_eq.
  destruct (list_index vertices j) as [c|e]; [|done].
  cbn [lift]. rewrite bind_Ok. by apply sim_store_cell.
Qed.

Lemma sim_set_edges graph vertices n h d :
  R tt h d ->
  sim R (foldP (fun _ i => store_set_edges_row graph vertices dist i) (seq 0 n) tt h)
        (set_edges graph vertices n d).
Proof.
  intros HR. unfold set_edges. apply sim_foldP; [|done].
  intros i [] h1 d1 _ HR1. by apply sim_set_edges_row.
Qed.
End store_dist.

(** ** New objects *)

Lemma alloc_rows_eq (o : obj) (l : list nat) rows0 h :
  foldP (fun rows _ => r ← alloc o; mret (rows ++ [r])) l rows0 h
  = Ok (rows0 ++ seq (length h) (length l), h ++ replicate (length l) o).
Proof.
  revert rows0 h. induction l as [|a l IH]; intros rows0 h.
  - simpl. by rewrite !app_nil_r.
  - cbn [foldP]. rewrite !prog_bind_eq. unfold alloc at 1.
    cbv iota beta. unfold mret at 1, prog_ret at 1. cbv iota beta. rewrite IH. rewrite length_app. simpl.
    rewrite Nat.add_1_r, <- !app_assoc. done.
Qed.

Lemma new_matrix_spec n h :
  exists h2 rows,
    new_matrix n h = Ok (length h + n, h ++ h2)%nat /\
    holds (h ++ h2) (length h + n) rows (fresh_matrix n) /\ NoDup rows.
Proof.
  exists (replicate n (IntList (replicate n maxsize)) ++ [RefList (seq (length h) n)]),
         (seq (length h) n).
  unfold new_matrix. rewrite prog_bind_eq, alloc_rows_eq, length_seq. cbn [app].
  unfold alloc. rewrite length_app, length_replicate, <- app_assoc.
  split; [done|]. split; [split|apply NoDup_seq].
  - rewrite app_assoc. rewrite lookup_app_r; rewrite length_app, length_replicate; [|lia].
    by rewrite Nat.sub_diag.
  - apply Forall2_same_length_lookup. unfold fresh_matrix.
    split; [by rewrite length_seq, length_replicate|].
    intros i r row [-> Hi]%lookup_seq [-> _]%lookup_replicate.
    rewrite lookup_app_r by lia. rewrite lookup_app_l by (rewrite length_replicate; lia).
    apply lookup_replicate. split; [done|lia].
Qed.

Lemma deepcopy_rows_spec base rows d : forall memo h,
  Forall2 (fun r row => h !! r = Some (IntList row)) rows d ->
  (forall i r r', memo !! i = Some (r, r') ->
     (base <= r')%nat /\ exists row, h !! r = Some (IntList row) /\
                                     h !! r' = Some (IntList row)) ->
  (base <= length h)%nat ->
  exists copies h2,
    deepcopy_rows memo rows h = Ok (copies, h ++ h2) /\
    Forall2 (fun r' row => (h ++ h2) !! r' = Some (IntList row)) copies d /\
    Forall (fun r' => (base <= r')%nat) copies.
Proof.
  revert d. induction rows as [|r rows IH]; intros d memo h Hrows Hmemo Hbase.
  - apply Forall2_nil_inv_l in Hrows as ->. exists [], []. rewrite app_nil_r.
    repeat split; constructor.
  - apply Forall2_cons_inv_l in Hrows as (row & d' & Hr & Hrows & ->).
    cbn [deepcopy_rows].
    destruct (list_find (fun p : nat * nat => p.1 = r) memo) as [[i [r0 r']]|] eqn:Hfind.
    + apply list_find_Some in Hfind as (Hi & Hr0 & _). simpl in Hr0. subst r0.
      destruct (Hmemo _ _ _ Hi) as (Hb & row' & Hrow' & Hcopy).
      rewrite Hr in Hrow'. injection Hrow' as <-.
      destruct (IH d' memo h Hrows Hmemo Hbase) as (copies & h2 & Hcp & Hall & Hfresh).
      exists (r' :: copies), h2. rewrite prog_bind_eq, Hcp.
      split; [done|]. split; constructor; try done. by apply lookup_app_l_Some.
    + rewrite prog_bind_eq. unfold read_ints at 1. rewrite Hr.
      rewrite prog_bind_eq. unfold alloc at 1.
      destruct (IH d' ((r, length h) :: memo) (h ++ [IntList row]))
        as (copies & h2 & Hcp & Hall & Hfresh).
      * eapply Forall2_impl; [done|]. intros r1 row1 H1. by apply lookup_app_l_Some.
      * intros [|i] r1 r1'; simpl.
        -- intros [= <- <-]. split; [done|]. exists row.
           split; [by apply lookup_app_l_Some|].
           rewrite lookup_app_r by lia. by rewrite Nat.sub_diag.
        -- intros Hi. destruct (Hmemo _ _ _ Hi) as (Hb & row1 & H1 & H1').
           split; [done|]. exists row1. split; by apply lookup_app_l_Some.
      * rewrite length_app. simpl. lia.
      * exists (length h :: copies), ([IntList row] ++ h2).
        rewrite prog_bind_eq, Hcp, app_assoc. split; [done|].
        split; constructor; try done.
        apply lookup_app_l_Some. rewrite lookup_app_r by lia. by rewrite Nat.sub_diag.
Qed.

Lemma deepcopy_spec h dist rows d :
  holds h dist rows d ->
  exists h2 c copies,
    deepcopy dist h = Ok (c, h ++ h2) /\
    holds (h ++ h2) c copies d /\
    Forall (fun x => (length h <= x)%nat) (c :: copies).
Proof.
  intros [Hm Hrows]. unfold deepcopy. 
  destruct (deepcopy_rows_spec (length h) rows d [] h Hrows) as (copies & h2 & Hcp & Hall & Hfresh);
    [done | lia |].
  exists (h2 ++ [RefList copies]), (length (h ++ h2)), copies.
  rewrite prog_bind_eq. unfold read_refs at 1. rewrite Hm.
  rewrite prog_bind_eq, Hcp. unfold alloc. rewrite app_assoc.
  split; [done|]. split; [split|].
  - rewrite lookup_app_r by lia. by rewrite Nat.sub_diag.
  - eapply Forall2_impl; [done|]. intros r row Hr. by apply lookup_app_l_Some.
  - constructor; [rewrite length_app; lia | done].
Qed.

(** ** Snapshots stay apart *)

Lemma fw_rep_snapshot h dist all_matrices d snapshots c :
  fw_rep h dist all_matrices d snapshots ->
  c ∈ all_matrices ->
  exists m rows, holds h c rows m.
Proof.
  intros Hrep Hc. apply list_elem_of_lookup in Hc as [k Hk].
  destruct (Forall2_lookup_l _ _ _ _ _ (rep_all _ _ _ _ _ Hrep) Hk) as (m & _ & Hm).
  apply matrix_at_holds in Hm as [rows Hm]. eauto.
Qed.

(** Writing in the rows of [dist] keeps what holds between two pivots. *)
Lemma fw_rep_frame h0 h dist rows all_matrices d0 d snapshots :
  fw_rep h0 dist all_matrices d0 snapshots ->
  holds h0 dist rows d0 ->
  dist_rel dist rows h0 h d ->
  fw_rep h dist all_matrices d snapshots.
Proof.
  intros Hrep Hd0 (Hd & Hlen & Hsame).
  assert (NoDup rows) as Hnd.
  { destruct (rep_dist _ _ _ _ _ Hrep) as (rows' & [Hm' _] & Hnd).
    destruct Hd0 as [Hm _]. congruence. }
  assert (forall c m rows_c, c ∈ all_matrices -> holds h0 c rows_c m -> holds h c rows_c m)
    as Hkeep.
  { intros c m rows_c Hc Hcm. apply (holds_frame h0 h rows); [done| |done].
    intros x Hx Hxr. apply (rep_sep _ _ _ _ _ Hrep c x Hc).
    - by rewrite (holds_objects_at _ _ _ _ Hcm).
    - rewrite (holds_objects_at _ _ _ _ Hd0). by right. }
  assert (forall c, c ∈ all_matrices -> objects_at h c = objects_at h0 c) as Hobj.
  { intros c Hc. destruct (fw_rep_snapshot _ _ _ _ _ _ Hrep Hc) as (m & rows_c & Hcm).
    rewrite (holds_objects_at _ _ _ _ Hcm).
    by rewrite (holds_objects_at _ _ _ _ (Hkeep _ _ _ Hc Hcm)). }
  split.
  - eauto.
  - pose proof (rep_all _ _ _ _ _ Hrep) as Hall.
    apply Forall2_same_length_lookup. split; [by eapply Forall2_length|].
    intros k c m Hc Hm.
    pose proof (Forall2_lookup_lr _ _ _ _ _ _ Hall Hc Hm) as Hcm. simpl in Hcm.
    apply matrix_at_holds in Hcm as [rows_c Hcm]. apply matrix_at_holds.
    exists rows_c. apply Hkeep; [by eapply list_elem_of_lookup_2 | done].
  - intros c x Hc. rewrite (Hobj c Hc).
    rewrite (holds_objects_at _ _ _ _ Hd), <- (holds_objects_at _ _ _ _ Hd0).
    by apply (rep_sep _ _ _ _ _ Hrep).
  - intros k k' c c' x Hne Hc Hc'.
    rewrite (Hobj c), (Hobj c') by (by eapply list_elem_of_lookup_2).
    by apply (rep_distinct _ _ _ _ _ Hrep k k').
Qed.

(** [all_matrices.append(copy.deepcopy(dist))] keeps it too. *)
Lemma fw_rep_deepcopy h dist all_matrices d snapshots :
  fw_rep h dist all_matrices d snapshots ->
  exists h2 c,
    deepcopy dist h = Ok (c, h ++ h2) /\
    fw_rep (h ++ h2) dist (all_matrices ++ [c]) d (snapshots ++ [d]).
Proof.
  intros Hrep. destruct (rep_dist _ _ _ _ _ Hrep) as (rows & Hd & Hnd).
  destruct (deepcopy_spec h dist rows d Hd) as (h2 & c & copies & Hcp & Hc & Hfresh).
  exists h2, c. split; [done|].
  assert (forall c', c' ∈ all_matrices ->
            objects_at (h ++ h2) c' = objects_at h c' /\
            forall x, x ∈ objects_at h c' -> (x < length h)%nat) as Hold.
  { intros c' Hc'. destruct (fw_rep_snapshot _ _ _ _ _ _ Hrep Hc') as (m & rows_c & Hcm).
    rewrite (holds_objects_at _ _ _ _ Hcm).
    rewrite (holds_objects_at _ _ _ _ (holds_app h h2 _ _ _ Hcm)).
    split; [done|]. intros x. by apply (holds_lt h c' rows_c m). }
  assert (objects_at (h ++ h2) dist = objects_at h dist /\
          forall x, x ∈ objects_at h dist -> (x < length h)%nat) as [Hdobj Hdlt].
  { rewrite (holds_objects_at _ _ _ _ Hd).
    rewrite (holds_objects_at _ _ _ _ (holds_app h h2 _ _ _ Hd)).
    split; [done|]. intros x. by apply (holds_lt h dist rows d). }
  assert (forall x, x ∈ objects_at (h ++ h2) c -> (length h <= x)%nat) as Hnew.
  { intros x. rewrite (holds_objects_at _ _ _ _ Hc).
    intros Hx. by apply (proj1 (Forall_forall _ _) Hfresh). }
  pose proof (Forall2_length _ _ _ (rep_all _ _ _ _ _ Hrep)) as Hlen.
  split.
  - exists rows. split; [by apply holds_app | done].
  - apply Forall2_app.
    + eapply Forall2_impl; [apply (rep_all _ _ _ _ _ Hrep)|].
      intros c' m (rows_c & Hcm)%matrix_at_holds. apply matrix_at_holds.
      exists rows_c. by apply holds_app.
    + constructor; [|constructor]. apply matrix_at_holds. eauto.
  - intros c' x Hc' Hx. rewrite Hdobj. apply elem_of_app in Hc' as [Hc'|Hc'].
    + rewrite (proj1 (Hold c' Hc')) in Hx. by apply (rep_sep _ _ _ _ _ Hrep c').
    + apply list_elem_of_singleton in Hc' as ->. intros Hxd.
      apply Hnew in Hx. apply Hdlt in Hxd. lia.
  - intros k k' c1 c2 x Hne H1 H2 Hx1 Hx2.
    apply lookup_app_Some in H1 as [H1|[Hk1 H1]];
      apply lookup_app_Some in H2 as [H2|[Hk2 H2]].
    + pose proof (list_elem_of_lookup_2 _ _ _ H1) as Hin1.
      pose proof (list_elem_of_lookup_2 _ _ _ H2) as Hin2.
      rewrite (proj1 (Hold _ Hin1)) in Hx1. rewrite (proj1 (Hold _ Hin2)) in Hx2.
      by apply (rep_distinct _ _ _ _ _ Hrep k k' c1 c2 x).
    + apply list_lookup_singleton_Some in H2 as [_ <-].
      pose proof (list_elem_of_lookup_2 _ _ _ H1) as Hin1.
      rewrite (proj1 (Hold _ Hin1)) in Hx1.
      apply (proj2 (Hold _ Hin1)) in Hx1. apply Hnew in Hx2. lia.
    + apply list_lookup_singleton_Some in H1 as [_ <-].
      pose proof (list_elem_of_lookup_2 _ _ _ H2) as Hin2.
      rewrite (proj1 (Hold _ Hin2)) in Hx2.
      apply (proj2 (Hold _ Hin2)) in Hx2. apply Hnew in Hx1. lia.
    + apply list_lookup_singleton_Some in H1 as [? _].
      apply list_lookup_singleton_Some in H2 as [? _]. lia.
Qed.

(** ** The whole run on the store against the run on values *)

Lemma sim_initial_matrix graph vertices h :
  sim (fun dist h' d => exists rows, holds h' dist rows d /\ NoDup rows)
      (store_initial_matrix graph vertices h) (initial_matrix graph vertices).
Proof.
  unfold store_initial_matrix, initial_matrix. cbv zeta.
  destruct (new_matrix_spec (length vertices) h) as (h2 & rows & Hnew & Hholds & Hnd).
  rewrite prog_bind_eq, Hnew.
  set (dist := (length h + length vertices)%nat) in *.
  set (h1 := h ++ h2) in *.
  assert (dist_rel dist rows h1 h1 (fresh_matrix (length vertices))) as Hrel.
  { split; [done|]. split; done. }
  apply (sim_bind (fun _ h' d => dist_rel dist rows h1 h' d)).
  { by apply sim_set_diagonal. }
  intros [] h3 d3 Hrel3. rewrite prog_bind_eq.
  pose proof (sim_set_edges dist rows Hnd h1 graph vertices (length vertices) h3 d3 Hrel3)
    as Hsim.
  unfold sim in Hsim |- *.
  destruct (foldP _ _ _ h3) as [[[] h4]|e], (set_edges _ _ _ d3) as [d4|e']; try done.
  exists rows. split; [apply Hsim | done].
Qed.

Lemma floyd_warshall_upto_all graph vertices :
  floyd_warshall graph vertices = floyd_warshall_upto (length vertices) graph vertices.
Proof. reflexivity. Qed.

Lemma sim_pivot_step n dist all0 snapshots0 st h ps k :
  run_rel dist all0 snapshots0 st h ps ->
  sim (run_rel dist all0 snapshots0) (store_pivot_step n st k h) (pivot_step n ps k).
Proof.
  destruct st as [dist' all_matrices], ps as [d snapshots].
  intros (Hrep & Hdist & Hpre1 & Hpre2). simpl in *. subst dist'.
  unfold store_pivot_step, pivot_step.
  destruct (rep_dist _ _ _ _ _ Hrep) as (rows & Hd & Hnd).
  apply (sim_bind (fun _ h' d' => dist_rel dist rows h h' d')).
  { apply sim_pivot_pass; [done|]. split; [done|]. split; done. }
  intros [] h1 d1 Hrel. rewrite prog_bind_eq.
  pose proof (fw_rep_frame _ _ _ _ _ _ _ _ Hrep Hd Hrel) as Hrep1.
  destruct (fw_rep_deepcopy _ _ _ _ _ Hrep1) as (h2 & c & -> & Hrep2).
  split; [done|]. split; [done|]. simpl.
  split; by apply prefix_app_r.
Qed.

Lemma sim_pivot_steps n dist all0 snapshots0 st h ps ks :
  run_rel dist all0 snapshots0 st h ps ->
  sim (run_rel dist all0 snapshots0)
      (foldP (store_pivot_step n) ks st h) (foldM (pivot_step n) ks ps).
Proof.
  intros Hrel. apply sim_foldP; [|done].
  intros k st1 h1 ps1 _ Hrel1. by apply sim_pivot_step.
Qed.

Lemma sim_floyd_warshall_upto m graph vertices h :
  sim (fun st h' ps => fw_rep h' st.1 st.2 ps.1 ps.2)
      (store_floyd_warshall_upto m graph vertices h)
      (floyd_warshall_upto m graph vertices).
Proof.
  unfold store_floyd_warshall_upto, floyd_warshall_upto. cbv zeta.
  apply (sim_bind (fun dist h' d => exists rows, holds h' dist rows d /\ NoDup rows)).
  { apply sim_initial_matrix. }
  intros dist h1 d0 (rows & Hd & Hnd). rewrite prog_bind_eq.
  destruct (fw_rep_deepcopy h1 dist [] d0 []) as (h2 & c & -> & Hrep).
  { split; [by eauto|constructor| |].
    - intros c x Hc. inversion Hc.
    - intros k k' c c' x _ Hc. done. }
  simpl in Hrep.
  pose proof (sim_pivot_steps (length vertices) dist [c] [d0] (dist, [c]) (h1 ++ h2)
                (d0, [d0]) (seq 0 m)) as Hsim.
  unfold sim in Hsim |- *.
  destruct (foldP _ _ _ _) as [[st h3]|e], (foldM _ _ _) as [ps|e']; try done;
    apply Hsim; done.
Qed.

Lemma store_floyd_warshall_upto_continue k m graph vertices h st h_k :
  (k <= m)%nat ->
  store_floyd_warshall_upto k graph vertices h = Ok (st, h_k) ->
  store_floyd_warshall_upto m graph vertices h
  = foldP (store_pivot_step (length vertices)) (seq k (m - k)) st h_k.
Proof.
  intros Hkm. unfold store_floyd_warshall_upto. cbv zeta. rewrite !prog_bind_eq.
  destruct (store_initial_matrix graph vertices h) as [[dist h1]|e]; [|done].
  rewrite !prog_bind_eq. destruct (deepcopy dist h1) as [[c h2]|e]; [|done].
  intros Hk. replace m with (k + (m - k))%nat at 1 by lia.
  by rewrite seq_app, foldP_app, prog_bind_eq, Hk.
Qed.

Lemma floyd_warshall_upto_snapshots m graph vertices dist all_matrices :
  floyd_warshall_upto m graph vertices = Ok (dist, all_matrices) ->
  length all_matrices = S m /\ all_matrices !! m = Some dist.
Proof.
  unfold floyd_warshall_upto. cbv zeta. intros (d0 & _ & Hloop)%bind_Ok_inv.
  apply pivot_steps_snapshots in Hloop as (Hlen & _ & Hlast & _).
  by rewrite length_seq in Hlen, Hlast.
Qed.

(** The store model returns what the model on values returns. *)
Lemma store_floyd_warshall_refines graph vertices :
  sim (fun st h ps =>
         matrix_at h st.1 = Some ps.1 /\
         Forall2 (fun c m => matrix_at h c = Some m) st.2 ps.2)
      (store_floyd_warshall graph vertices []) (floyd_warshall graph vertices).
Proof.
  unfold store_floyd_warshall. rewrite floyd_warshall_upto_all.
  pose proof (sim_floyd_warshall_upto (length vertices) graph vertices []) as Hsim.
  unfold sim in *.
  destruct (store_floyd_warshall_upto _ _ _ _) as [[st h]|e],
    (floyd_warshall_upto _ _ _) as [ps|e']; try done.
  split; [|apply Hsim]. destruct (rep_dist _ _ _ _ _ Hsim) as (rows & Hd & _).
  apply matrix_at_holds. eauto.
Qed.


Example scenario_store_floyd_warshall :
  exists dist all_matrices h,
    store_floyd_warshall scenario_graph scenario_labels [] = Ok ((dist, all_matrices), h) /\
    matrix_at h dist = Some scenario_dist /\
    (matrix_at h <$> all_matrices) = Some <$> scenario_snapshots.
Proof. eexists _, _, _. vm_compute. repeat split. Qed.

(** ** The graph that [input_graph] builds *)

Section dict_comp_facts.
Context {V : Type}.
Implicit Types (d : dict V) (k : string) (v : V).

Lemma NoDup_dict_keys_set d k v :
  NoDup (dict_keys d) -> NoDup (dict_keys (dict_set d k v)).
Proof.
  intros Hnd. destruct (decide (k ∈ dict_keys d)) as [Hin|Hout].
  - by rewrite dict_keys_set_present.
  - rewrite dict_keys_set_absent by done. apply NoDup_app.
    split; [done|]. split; [|apply NoDup_singleton].
    intros x Hx ->%list_elem_of_singleton. done.
Qed.

Lemma dict_get_fold_set (f : string -> V) ks d k :
  dict_get (fold_left (fun d k => dict_set d k (f k)) ks d) k
  = if decide (k ∈ ks) then Some (f k) else dict_get d k.
Proof.
  revert d. induction ks as [|k0 ks IH]; intros d; simpl.
  - destruct (decide (k ∈ [])) as [Hin|]; [inversion Hin | done].
  - rewrite IH, dict_get_set. destruct (decide (k ∈ ks)) as [Hin|Hout].
    + rewrite decide_True; [done | by right].
    + destruct (decide (k0 = k)) as [->|Hne].
      * rewrite decide_True; [done | left].
      * rewrite decide_False; [done|]. rewrite not_elem_of_cons. split; [congruence|done].
Qed.

Lemma NoDup_dict_keys_fold_set (f : string -> V) ks d :
  NoDup (dict_keys d) ->
  NoDup (dict_keys (fold_left (fun d k => dict_set d k (f k)) ks d)).
Proof.
  revert d. induction ks as [|k0 ks IH]; intros d Hnd; simpl; [done|].
  apply IH. by apply NoDup_dict_keys_set.
Qed.

Lemma dict_get_comp_any (f : string -> V) ks k :
  dict_get (dict_comp ks f) k = if decide (k ∈ ks) then Some (f k) else None.
Proof. unfold dict_comp. by rewrite dict_get_fold_set. Qed.

Lemma NoDup_dict_keys_comp (f : string -> V) ks : NoDup (dict_keys (dict_comp ks f)).
Proof. apply NoDup_dict_keys_fold_set. constructor. Qed.

Lemma elem_of_dict_keys_comp (f : string -> V) ks k :
  k ∈ dict_keys (dict_comp ks f) <-> k ∈ ks.
Proof.
  rewrite <- dict_get_is_Some, dict_get_comp_any.
  destruct (decide (k ∈ ks)) as [Hin|Hout]; split; intros H; done.
Qed.

Lemma dict_set_same d k v : dict_get d k = Some v -> dict_set d k v = d.
Proof.
  induction d as [|[k' v'] d IH]; simpl; [done|].
  case_decide; [by intros [= ->]; subst | intros Hg; by rewrite IH].
Qed.
End dict_comp_facts.

Lemma read_vertices_eq labels : read_vertices labels = labels.
Proof.
  unfold read_vertices. 
  assert (forall acc, fold_left add_vertex labels acc = acc ++ labels) as H; [|apply H].
  induction labels as [|l labels IH]; intros acc; simpl; [by rewrite app_nil_r|].
  rewrite IH. unfold add_vertex. by rewrite <- app_assoc.
Qed.

Lemma built_empty_graph vertices : built vertices (empty_graph vertices).
Proof.
  unfold empty_graph. split.
  - apply NoDup_dict_keys_comp.
  - apply elem_of_dict_keys_comp.
  - intros u adj. rewrite dict_get_comp_any. case_decide; [|done].
    intros [= <-]. split; [constructor | done].
Qed.

Lemma add_edge_built vertices graph u v w :
  built vertices graph ->
  exists r, add_edge vertices graph u v w = Ok r /\ built vertices (default graph r).
Proof.
  intros Hb. unfold add_edge.
  destruct (decide (u ∈ vertices)) as [Hu|Hu].
  2:{ rewrite (bool_decide_eq_true_2 (u ∉ vertices)) by done. simpl. by exists None. }
  destruct (decide (v ∈ vertices)) as [Hv|Hv].
  2:{ rewrite (bool_decide_eq_true_2 (v ∉ vertices)) by done.
      rewrite orb_true_r. by exists None. }
  rewrite (bool_decide_eq_false_2 (u ∉ vertices)) by tauto.
  rewrite (bool_decide_eq_false_2 (v ∉ vertices)) by tauto. simpl.
  pose proof Hu as Hk. apply (built_keys _ _ Hb) in Hk.
  pose proof Hk as [adj Hadj]%dict_get_is_Some.
  rewrite (getitem_Some _ _ _ Hadj), bind_Ok. eexists. split; [done|]. simpl.
  destruct (built_adj _ _ Hb _ _ Hadj) as [Hnd Hws]. split.
  - rewrite dict_keys_set_present by done. apply Hb.
  - intros x. rewrite dict_keys_set_present by done. apply Hb.
  - intros u' adj'. rewrite dict_get_set. case_decide; [|apply Hb].
    intros [= <-]. split; [by apply NoDup_dict_keys_set|].
    intros v' w'. rewrite dict_get_set. case_decide; [|apply Hws].
    intros [= <-]. subst v'. split; [done|lia].
Qed.

Lemma read_edges_built vertices graph lines :
  built vertices graph ->
  exists graph', read_edges vertices graph lines = Ok graph' /\ built vertices graph'.
Proof.
  intros Hb. unfold read_edges. apply foldM_total; [|done].
  intros g [[u v] w] _ Hg. destruct (add_edge_built vertices g u v w Hg) as (r & -> & Hr).
  rewrite bind_Ok. eauto.
Qed.

Lemma built_graph_ok vertices graph : built vertices graph -> graph_ok graph.
Proof.
  intros [Hnd Hkeys Hadj]. split; [done | | |].
  - intros u adj Hg. by apply (Hadj u).
  - intros u v w (adj & Hg & Ha). apply Hkeys. by apply (proj2 (Hadj u adj Hg) v w).
  - intros u v w (adj & Hg & Ha). by apply (proj2 (Hadj u adj Hg) v w).
Qed.

Lemma built_fw_ok vertices graph : built vertices graph -> fw_ok graph vertices.
Proof.
  intros [Hnd Hkeys Hadj]. split.
  - intros v. apply Hkeys.
  - intros u v w (adj & Hg & Ha). by apply (proj2 (Hadj u adj Hg) v w).
Qed.

(** [input_graph] raises nothing, returns the labels as read, and builds
    a graph with non-negative weights whose keys are these labels. *)
Lemma input_graph_built labels lines :
  exists graph, input_graph labels lines = Ok (graph, labels) /\ built labels graph.
Proof.
  unfold input_graph. rewrite read_vertices_eq.
  destruct (read_edges_built labels (empty_graph labels) lines) as (g & -> & Hg).
  { apply built_empty_graph. }
  rewrite bind_Ok. eauto.
Qed.

Lemma input_graph_Ok labels lines graph vertices :
  input_graph labels lines = Ok (graph, vertices) ->
  vertices = labels /\ graph_ok graph /\ fw_ok graph vertices /\
  forall v, v ∈ vertices <-> v ∈ dict_keys graph.
Proof.
  destruct (input_graph_built labels lines) as (g & -> & Hg). intros [= <- <-].
  split; [done|]. split; [by eapply built_graph_ok|]. split; [by apply built_fw_ok|].
  intros v. symmetry. apply Hg.
Qed.

(** ** The cells of D0 *)

Lemma get_cell_fresh_matrix n i j :
  (i < n)%nat -> (j < n)%nat -> get_cell (fresh_matrix n) i j = Ok maxsize.
Proof.
  intros Hi Hj. apply get_cell_Ok. exists (replicate n maxsize).
  split; by apply lookup_replicate.
Qed.

Lemma set_diagonal_cells l dist dist' i j :
  foldM (fun d i => set_cell d i i 0) l dist = Ok dist' ->
  get_cell dist' i j
  = if decide (i = j /\ i ∈ l) then Ok 0 else get_cell dist i j.
Proof.
  revert dist. induction l as [|r l IH]; intros dist.
  - intros [= <-]. rewrite decide_False; [done|]. intros [_ Hin]. inversion Hin.
  - rewrite foldM_cons. intros (d1 & Hset & Hrest)%bind_Ok_inv.
    rewrite (IH _ Hrest), (get_set_cell _ _ _ _ _ _ _ Hset).
    destruct (decide (i = j /\ i ∈ l)) as [[-> Hin]|Hno].
    + rewrite decide_True; [done|]. split; [done | by right].
    + destruct (decide (i = r /\ j = r)) as [[-> ->]|Hne].
      * rewrite decide_True; [done|]. split; [done | left].
      * rewrite decide_False; [done|]. intros [-> [->|Hin]%elem_of_cons]; tauto.
Qed.

Section edges_cells.
Variable graph : graph_t.
Variable vertices : list string.
Hypothesis Hnd : NoDup vertices.

Lemma set_edges_keys_cells (adj : dict Z) r ks dist dist' i j vj :
  vertices !! j = Some vj ->
  foldM (fun d k =>
           w ← getitem adj k;
           c ← list_index vertices k;
           set_cell d r c w) ks dist = Ok dist' ->
  get_cell dist' i j
  = match dict_get adj vj with
    | Some w => if decide (i = r /\ vj ∈ ks) then Ok w else get_cell dist i j
    | None => get_cell dist i j
    end.
Proof.
  intros Hj. revert dist. induction ks as [|k ks IH]; intros dist.
  - intros [= <-]. destruct (dict_get adj vj); [|done].
    rewrite decide_False; [done|]. intros [_ Hin]. inversion Hin.
  - rewrite foldM_cons. intros (d1 & Hstep & Hrest)%bind_Ok_inv.
    apply bind_Ok_inv in Hstep as (w & Hw%getitem_Ok & Hstep).
    apply bind_Ok_inv in Hstep as (c & Hc%list_index_Ok & Hset).
    rewrite (IH _ Hrest), (get_set_cell _ _ _ _ _ _ _ Hset).
    assert (j = c <-> vj = k) as Hjc.
    { split; [intros ->; congruence | intros ->; by eapply NoDup_lookup]. }
    destruct (dict_get adj vj) as [w'|] eqn:Hvj.
    + destruct (decide (i = r /\ vj ∈ ks)) as [[-> Hin]|Hno].
      * rewrite decide_True; [done|]. split; [done | by right].
      * destruct (decide (i = r /\ j = c)) as [[-> Hjc']|Hne].
        -- apply Hjc in Hjc'. subst k. rewrite decide_True; [congruence|].
           split; [done | left].
        -- rewrite decide_False; [done|].
           intros [-> [->|Hin]%elem_of_cons]; [|tauto].
           apply Hne. split; [done|]. by apply Hjc.
    + rewrite decide_False; [done|]. intros [-> Hjc'%Hjc]. congruence.
Qed.

Lemma set_edges_row_cells r dist dist' i j vj :
  vertices !! j = Some vj ->
  set_edges_row graph vertices dist r = Ok dist' ->
  exists vr adj,
    vertices !! r = Some vr /\ dict_get graph vr = Some adj /\
    get_cell dist' i j
    = match dict_get adj vj with
      | Some w => if decide (i = r) then Ok w else get_cell dist i j
      | None => get_cell dist i j
      end.
Proof.
  intros Hj. unfold set_edges_row.
  intros (vr & Hvr%list_getitem_Ok & H)%bind_Ok_inv.
  apply bind_Ok_inv in H as (adj & Hadj%getitem_Ok & H).
  exists vr, adj. split; [done|]. split; [done|].
  rewrite (set_edges_keys_cells adj r _ _ _ i j vj Hj H).
  destruct (dict_get adj vj) as [w|] eqn:Hvj; [|done].
  destruct (decide (i = r)) as [->|Hne].
  - rewrite decide_True; [done|]. split; [done|].
    apply dict_get_is_Some. eauto.
  - rewrite decide_False; [done | tauto].
Qed.

Lemma set_edges_cells l dist dist' i j vi vj :
  NoDup l ->
  vertices !! i = Some vi -> vertices !! j = Some vj ->
  foldM (set_edges_row graph vertices) l dist = Ok dist' ->
  i ∈ l ->
  exists adj,
    dict_get graph vi = Some adj /\
    get_cell dist' i j
    = match dict_get adj vj with
      | Some w => Ok w
      | None => get_cell dist i j
      end.
Proof.
  intros Hl Hi Hj. revert dist. induction l as [|r l IH]; intros dist Hfold Hin.
  { inversion Hin. }
  apply NoDup_cons in Hl as [Hr Hl].
  rewrite foldM_cons in Hfold. apply bind_Ok_inv in Hfold as (d1 & Hrow & Hrest).
  destruct (set_edges_row_cells r dist d1 i j vj Hj Hrow) as (vr & adj & Hvr & Hadj & Hcell).
  apply elem_of_cons in Hin as [->|Hin].
  - rewrite Hi in Hvr. injection Hvr as <-. exists adj. split; [done|].
    assert (get_cell d1 r j
            = match dict_get adj vj with
              | Some w => Ok w
              | None => get_cell dist r j
              end) as <-.
    { rewrite Hcell. destruct (dict_get adj vj); [|done]. by rewrite decide_True. }
    clear Hcell.
    (* the later rows leave row [r] as it is *)
    clear IH Hrow. revert d1 Hrest. induction l as [|r' l IHl]; intros d1.
    + by intros [= <-].
    + rewrite foldM_cons. intros (d2 & Hrow & Hrest)%bind_Ok_inv.
      apply not_elem_of_cons in Hr as [Hne Hr]. apply NoDup_cons in Hl as [_ Hl].
      rewrite (IHl Hr Hl _ Hrest).
      destruct (set_edges_row_cells r' d1 d2 r j vj Hj Hrow) as (? & adj' & _ & _ & ->).
      destruct (dict_get adj' vj); [|done]. by rewrite decide_False.
  - destruct (IH Hl d1 Hrest Hin) as (adj' & Hadj' & Hcell').
    exists adj'. split; [done|]. rewrite Hcell', Hcell.
    destruct (dict_get adj' vj); [done|].
    assert (i <> r) by (by intros ->).
    destruct (dict_get adj vj); [|done]. by rewrite decide_False.
Qed.

(** The cell of D0 in row [i] and column [j]: the weight of the edge
    from vertex [i] to vertex [j] when the graph has one, also for
    [i = j]; otherwise 0 on the diagonal and [sys.maxsize] elsewhere. *)
Lemma initial_matrix_cells dist i j vi vj :
  initial_matrix graph vertices = Ok dist ->
  vertices !! i = Some vi -> vertices !! j = Some vj ->
  exists adj,
    dict_get graph vi = Some adj /\
    get_cell dist i j
    = Ok (match dict_get adj vj with
          | Some w => w
          | None => if decide (i = j) then 0 else maxsize
          end).
Proof.
  unfold initial_matrix, set_diagonal, set_edges. cbv zeta.
  intros (d1 & Hd1 & Hd)%bind_Ok_inv Hi Hj.
  pose proof (lookup_lt_Some _ _ _ Hi) as Hi'.
  pose proof (lookup_lt_Some _ _ _ Hj) as Hj'.
  destruct (set_edges_cells (seq 0 (length vertices)) d1 dist i j vi vj)
    as (adj & Hadj & Hcell); try done.
  { apply NoDup_seq. }
  { apply elem_of_seq. lia. }
  exists adj. split; [done|]. rewrite Hcell.
  destruct (dict_get adj vj); [done|].
  rewrite (set_diagonal_cells _ _ _ i j Hd1).
  destruct (decide (i = j)) as [->|Hne].
  - rewrite decide_True; [done|]. split; [done|]. apply elem_of_seq. lia.
  - rewrite decide_False by tauto. by apply get_cell_fresh_matrix.
Qed.
End edges_cells.

(** ** The diagonal *)

(** On a graph with non-negative weights in which no vertex has an edge
    of positive weight to itself, the diagonal of every snapshot is 0. *)
Lemma floyd_warshall_diagonal graph vertices dist all_matrices k a i :
  NoDup vertices ->
  (forall u v w, edge graph u v w -> 0 <= w) ->
  (forall v w, edge graph v v w -> w = 0) ->
  floyd_warshall graph vertices = Ok (dist, all_matrices) ->
  all_matrices !! k = Some a ->
  (i < length vertices)%nat ->
  get_cell a i i = Ok 0.
Proof.
  intros Hnd Hnonneg Hloop Hfw Ha Hi.
  set (P := fun d : matrix =>
              all_cells (fun x => 0 <= x) d /\
              forall i, (i < length vertices)%nat -> get_cell d i i = Ok 0).
  assert (P a) as [_ Hdiag]; [|by apply Hdiag].
  revert Ha. apply (floyd_warshall_invariant P graph vertices dist all_matrices); [| |done].
  - intros d0 Hd0. split.
    + revert Hd0. apply initial_matrix_all_cells; [unfold maxsize; lia | lia | done].
    + intros i' Hi'. destruct (lookup_lt_is_Some_2 vertices i' Hi') as [vi Hvi].
      destruct (initial_matrix_cells graph vertices Hnd d0 i' i' vi vi Hd0 Hvi Hvi)
        as (adj & Hadj & ->).
      destruct (dict_get adj vi) as [w|] eqn:Hw.
      * f_equal. apply (Hloop vi). by exists adj.
      * by rewrite decide_True.
  - intros k' i' j' d d' [Hall Hdiag'] Hrel. split.
    + apply relax_cell_Ok in Hrel
        as (dij & dik & dkj & Hij & Hik & Hkj & [[Hlt Hset]| [_ ->]]); [|done].
      eapply set_cell_all_cells; [done| |done]. simpl.
      pose proof (all_cells_get_cell _ _ _ _ _ Hall Hik) as H2.
      pose proof (all_cells_get_cell _ _ _ _ _ Hall Hkj) as H3.
      simpl in *. lia.
    + intros i0 Hi0. specialize (Hdiag' i0 Hi0).
      apply relax_cell_Ok in Hrel
        as (dij & dik & dkj & Hij & Hik & Hkj & [[Hlt Hset]| [_ ->]]); [|done].
      rewrite (get_set_cell _ _ _ _ _ _ _ Hset). case_decide as Hc; [|done].
      destruct Hc as [-> ->]. rewrite Hdiag' in Hij. injection Hij as <-.
      pose proof (all_cells_get_cell _ _ _ _ _ Hall Hik) as H2.
      pose proof (all_cells_get_cell _ _ _ _ _ Hall Hkj) as H3.
      simpl in *. lia.
Qed.

(** ** One pivot pass, and the paths it accounts for *)

Lemma get_cell_cell n dist i j :
  square n dist -> (i < n)%nat -> (j < n)%nat -> get_cell dist i j = Ok (cell dist i j).
Proof.
  intros Hsq Hi Hj. destruct (square_get_cell n dist i j Hsq Hi Hj) as [x Hx].
  unfold cell. by rewrite Hx.
Qed.

Lemma foldM_prefix {A B : Type} (Q : list A -> B -> Prop) (f : B -> A -> result B) l b b' :
  Q [] b ->
  (forall visited a b1 b2, a ∈ l -> Q visited b1 -> f b1 a = Ok b2 -> Q (visited ++ [a]) b2) ->
  foldM f l b = Ok b' -> Q l b'.
Proof.
  intros Hb Hstep.
  assert (forall visited b, (forall a, a ∈ l -> a ∈ l) -> Q visited b ->
            forall l', (forall a, a ∈ l' -> a ∈ l) ->
            foldM f l' b = Ok b' -> Q (visited ++ l') b') as Hgen.
  { intros visited b0 _ Hq l'. revert visited b0 Hq.
    induction l' as [|a l' IH]; intros visited b0 Hq Hsub.
    - intros [= <-]. by rewrite app_nil_r.
    - rewrite foldM_cons. intros (b1 & H1 & H2)%bind_Ok_inv.
      replace (visited ++ a :: l') with ((visited ++ [a]) ++ l') by (by rewrite <- app_assoc).
      apply (IH _ b1); [|intros a' Ha'; apply Hsub; by right|done].
      apply (Hstep visited a b0 b1); [apply Hsub; left|done|done]. }
  intros Hfold. apply (Hgen [] b); auto.
Qed.

(** One pass replaces every cell by the smaller of the cell and the sum
    through the pivot, all sums taken in the matrix before the pass. *)
Lemma pivot_pass_min n k dist :
  square n dist -> all_cells (fun x => 0 <= x) dist -> (k < n)%nat ->
  exists dist',
    pivot_pass n k dist = Ok dist' /\ square n dist' /\
    forall i j, (i < n)%nat -> (j < n)%nat ->
      cell dist' i j = Z.min (cell dist i j) (cell dist i k + cell dist k j).
Proof.
  intros Hsq Hpos Hk.
  destruct (pivot_pass_total n k dist Hsq Hk) as (dist' & Hpass & Hsq').
  exists dist'. split; [done|]. split; [done|].
  assert (forall i j, (i < n)%nat -> (j < n)%nat -> 0 <= cell dist i j) as Hcpos.
  { intros i j Hi Hj. apply (all_cells_get_cell _ _ _ _ _ Hpos (get_cell_cell n _ _ _ Hsq Hi Hj)). }
  set (Q := fun (visited : list (nat * nat * nat)) (d : matrix) =>
              square n d /\
              forall i j, (i < n)%nat -> (j < n)%nat ->
                cell d i j = if decide ((k, i, j) ∈ visited)
                             then Z.min (cell dist i j) (cell dist i k + cell dist k j)
                             else cell dist i j).
  assert (Q (pass_schedule n k) dist') as [_ HQ].
  { rewrite pivot_pass_schedule in Hpass. revert Hpass. apply foldM_prefix.
    - split; [done|]. intros i j _ _. rewrite decide_False; [done|apply not_elem_of_nil].
    - intros visited [[k' i0] j0] d1 d2 (-> & Hi0 & Hj0)%elem_of_pass_schedule [Hsq1 Hc1] Hrel.
      simpl in Hrel. split; [by eapply relax_cell_square|].
      assert (cell d1 i0 k = cell dist i0 k) as Hik.
      { rewrite Hc1 by done. case_decide; [|done].
        pose proof (Hcpos k k Hk Hk). lia. }
      assert (cell d1 k j0 = cell dist k j0) as Hkj.
      { rewrite Hc1 by done. case_decide; [|done].
        pose proof (Hcpos k k Hk Hk). lia. }
      pose proof (Hc1 i0 j0 Hi0 Hj0) as Hij.
      apply relax_cell_Ok in Hrel
        as (dij & dik & dkj & Hgij & Hgik & Hgkj & Hcase).
      rewrite (get_cell_cell n _ _ _ Hsq1 Hi0 Hj0) in Hgij. injection Hgij as <-.
      rewrite (get_cell_cell n _ _ _ Hsq1 Hi0 Hk) in Hgik. injection Hgik as <-.
      rewrite (get_cell_cell n _ _ _ Hsq1 Hk Hj0) in Hgkj. injection Hgkj as <-.
      rewrite Hik, Hkj in Hcase.
      intros i j Hi Hj. destruct (decide (i = i0 /\ j = j0)) as [[-> ->]|Hne].
      + rewrite decide_True by (apply elem_of_app; right; left).
        destruct Hcase as [[Hlt Hset]|[Hle ->]].
        * unfold cell at 1. rewrite (get_set_cell _ _ _ _ _ _ _ Hset).
          rewrite decide_True by done.
          revert Hij. case_decide; intros Hij; lia.
        * revert Hij. case_decide; intros Hij; lia.
      + assert ((k, i, j) ∈ visited ++ [(k, i0, j0)] <-> (k, i, j) ∈ visited) as Hmem.
        { rewrite elem_of_app, list_elem_of_singleton. split; [|tauto].
          intros [?|[= -> ->]]; tauto. }
        assert (cell d2 i j = cell d1 i j) as ->.
        { destruct Hcase as [[Hlt Hset]|[Hle ->]]; [|done].
          unfold cell. rewrite (get_set_cell _ _ _ _ _ _ _ Hset).
          by rewrite decide_False. }
        rewrite Hc1 by done.
        destruct (decide ((k, i, j) ∈ visited)) as [Hin|Hout].
        * rewrite decide_True; [done | by apply Hmem].
        * rewrite decide_False; [done | by rewrite Hmem]. }
  intros i j Hi Hj. rewrite HQ by done. rewrite decide_True; [done|].
  by apply elem_of_pass_schedule.
Qed.

Lemma path_cost_app c i p1 v p2 j :
  path_cost c i (p1 ++ v :: p2) j = path_cost c i p1 v + path_cost c v p2 j.
Proof.
  revert i. induction p1 as [|u p1 IH]; intros i; simpl; [done|]. rewrite IH. lia.
Qed.

Lemma path_cost_nonneg n c i p j :
  (forall a b, (a < n)%nat -> (b < n)%nat -> 0 <= c a b) ->
  (i < n)%nat -> (j < n)%nat -> Forall (fun v => (v < n)%nat) p ->
  0 <= path_cost c i p j.
Proof.
  intros Hc Hi Hj Hp. revert i Hi. induction Hp as [|v p Hv Hp IH]; intros i Hi; simpl.
  - by apply Hc.
  - pose proof (Hc i v Hi Hv). pose proof (IH v Hv). lia.
Qed.

Section min_plus.
Variable n : nat.
Variable c : nat -> nat -> Z.
Hypothesis Hc : forall a b, (a < n)%nat -> (b < n)%nat -> 0 <= c a b.

Lemma least_below_0 : least_below n c 0 c.
Proof.
  split.
  - intros i j p _ _ Hp. destruct Hp as [|v p Hv _]; [simpl; lia | lia].
  - intros i j _ _. exists []. split; [constructor | done].
Qed.

Lemma least_below_from_pivot k d p j :
  (k < n)%nat -> least_below n c k d -> (j < n)%nat ->
  Forall (fun v => (v < S k)%nat) p ->
  d k j <= path_cost c k p j.
Proof.
  intros Hk [Hlow _] Hj.
  assert (forall len p, (length p < len)%nat ->
            Forall (fun v => (v < S k)%nat) p -> d k j <= path_cost c k p j) as Hgen.
  { clear p. induction len as [|len IH]; intros p Hlen Hp; [lia|].
    destruct (decide (k ∈ p)) as [Hin|Hout].
    - apply list_elem_of_split_l in Hin as (q1 & q2 & -> & Hq1).
      apply Forall_app in Hp as [Hp1 Hp2]. apply Forall_cons in Hp2 as [_ Hp2].
      rewrite path_cost_app.
      assert (0 <= path_cost c k q1 k).
      { apply (path_cost_nonneg n); try done.
        eapply Forall_impl; [apply Hp1|]. simpl. lia. }
      assert (d k j <= path_cost c k q2 j); [|lia].
      apply IH; [|done]. rewrite length_app in Hlen. simpl in Hlen. lia.
    - apply Hlow; try done. apply Forall_forall. intros v Hv.
      pose proof (proj1 (Forall_forall _ _) Hp v Hv) as Hlt. simpl in Hlt.
      assert (v <> k) by (by intros ->). lia. }
  apply (Hgen (S (length p))). lia.
Qed.

Lemma least_below_S k d d' :
  (k < n)%nat -> least_below n c k d ->
  (forall i j, (i < n)%nat -> (j < n)%nat -> d' i j = Z.min (d i j) (d i k + d k j)) ->
  least_below n c (S k) d'.
Proof.
  intros Hk Hd Hmin. pose proof Hd as [Hlow Hpath]. split.
  - intros i j p Hi Hj Hp. rewrite Hmin by done.
    destruct (decide (k ∈ p)) as [Hin|Hout].
    + apply list_elem_of_split_l in Hin as (p1 & p2 & -> & Hp1).
      apply Forall_app in Hp as [Hp1' Hp2]. apply Forall_cons in Hp2 as [_ Hp2].
      rewrite path_cost_app.
      assert (d i k <= path_cost c i p1 k).
      { apply Hlow; try done. apply Forall_forall. intros v Hv.
        pose proof (proj1 (Forall_forall _ _) Hp1' v Hv) as Hlt. simpl in Hlt.
        assert (v <> k) by (by intros ->). lia. }
      pose proof (least_below_from_pivot k d p2 j Hk Hd Hj Hp2). lia.
    + assert (d i j <= path_cost c i p j); [|lia].
      apply Hlow; try done. apply Forall_forall. intros v Hv.
      pose proof (proj1 (Forall_forall _ _) Hp v Hv) as Hlt. simpl in Hlt.
      assert (v <> k) by (by intros ->). lia.
  - intros i j Hi Hj. rewrite Hmin by done.
    destruct (Z.le_gt_cases (d i j) (d i k + d k j)) as [Hle|Hgt].
    + destruct (Hpath i j Hi Hj) as (p & Hp & Heq). exists p. split.
      * eapply Forall_impl; [apply Hp|]. simpl. lia.
      * lia.
    + destruct (Hpath i k Hi Hk) as (p1 & Hp1 & Heq1).
      destruct (Hpath k j Hk Hj) as (p2 & Hp2 & Heq2).
      exists (p1 ++ k :: p2). split.
      * apply Forall_app. split; [eapply Forall_impl; [apply Hp1|]; simpl; lia|].
        apply Forall_cons. split; [lia|]. eapply Forall_impl; [apply Hp2|]. simpl. lia.
      * rewrite path_cost_app. lia.
Qed.

(** Once every vertex has been a pivot, no detour is shorter. *)
Lemma least_below_triangle d i j k :
  least_below n c n d -> (i < n)%nat -> (j < n)%nat -> (k < n)%nat ->
  d i j <= c i j /\ d i j <= d i k + d k j.
Proof.
  intros [Hlow Hpath] Hi Hj Hk. split.
  - apply (Hlow i j []); [done..|constructor].
  - destruct (Hpath i k Hi Hk) as (p1 & Hp1 & ->).
    destruct (Hpath k j Hk Hj) as (p2 & Hp2 & ->).
    rewrite <- path_cost_app. apply Hlow; try done.
    apply Forall_app. split; [done|]. by apply Forall_cons.
Qed.
End min_plus.

(** ** The matrix returned by [floyd_warshall] and the paths of the graph *)

Lemma relax_cell_all_cells_nonneg k i j dist dist' :
  all_cells (fun x => 0 <= x) dist ->
  relax_cell k i j dist = Ok dist' ->
  all_cells (fun x => 0 <= x) dist'.
Proof.
  intros Hall (dij & dik & dkj & Hij & Hik & Hkj & [[Hlt Hset]| [_ ->]])%relax_cell_Ok; [|done].
  eapply set_cell_all_cells; [done| |done]. simpl.
  pose proof (all_cells_get_cell _ _ _ _ _ Hall Hik) as H2.
  pose proof (all_cells_get_cell _ _ _ _ _ Hall Hkj) as H3.
  simpl in *. lia.
Qed.

Lemma walk_app graph a b c x y :
  walk graph a b x -> walk graph b c y -> walk graph a c (x + y).
Proof.
  intros Hab Hbc. induction Hbc as [_|u v y w _ IH Hedge].
  - by rewrite Z.add_0_r.
  - rewrite Z.add_assoc. by eapply walk_snoc.
Qed.

Section floyd_warshall_paths.
Variable graph : graph_t.
Variable vertices : list string.
Variables (dist : matrix) (all_matrices : list matrix).
Hypothesis Hnd : NoDup vertices.
Hypothesis Hclosed : forall u v w, edge graph u v w -> v ∈ vertices.
Hypothesis Hnonneg : forall u v w, edge graph u v w -> 0 <= w.
Hypothesis Hfw : floyd_warshall graph vertices = Ok (dist, all_matrices).

Lemma snapshots_least_below d0 k a :
  all_matrices !! O = Some d0 ->
  all_matrices !! k = Some a ->
  square (length vertices) a /\ all_cells (fun x => 0 <= x) a /\
  least_below (length vertices) (cell d0) k (cell a).
Proof.
  intros H0.
  destruct (floyd_warshall_snapshots _ _ _ _ Hfw) as (Hlen & _ & (d0' & Hd0 & H0') & Hchain).
  rewrite H0 in H0'. injection H0' as <-.
  assert (square (length vertices) d0) as Hsq0 by (by eapply initial_matrix_square).
  assert (all_cells (fun x => 0 <= x) d0) as Hpos0.
  { revert Hd0. apply initial_matrix_all_cells; [unfold maxsize; lia | lia | done]. }
  revert a. induction k as [|k IH]; intros a Ha.
  - rewrite H0 in Ha. injection Ha as <-.
    split; [done|]. split; [done|]. apply least_below_0.
  - assert (k < length vertices)%nat as Hk.
    { apply lookup_lt_Some in Ha. lia. }
    destruct (Hchain k Hk) as (a' & b & Ha' & Hb & Hab).
    rewrite Ha in Hb. injection Hb as <-.
    destruct (IH a' Ha') as (Hsq & Hpos & Hleast).
    destruct (pivot_pass_min _ k a' Hsq Hpos Hk) as (a2 & Ha2 & Hsq2 & Hmin).
    rewrite Hab in Ha2. injection Ha2 as <-.
    split; [done|]. split.
    + revert Hab. apply pivot_pass_invariant; [|done].
      intros i j d d' _ _ Hd Hrel. by eapply relax_cell_all_cells_nonneg.
    + apply (least_below_S (length vertices) (cell d0)) with (d := cell a'); try done.
      intros x y Hx Hy.
      apply (all_cells_get_cell _ _ _ _ _ Hpos0 (get_cell_cell _ _ _ _ Hsq0 Hx Hy)).
Qed.

Lemma walk_stays s v a :
  s ∈ vertices -> walk graph s v a -> v ∈ vertices.
Proof. intros Hs Hw. destruct Hw as [_|u v a w _ Hedge]; [done|]. by eapply Hclosed. Qed.

(** The cell of the final matrix is at most the weight of every path of
    one edge or more. *)
Lemma floyd_warshall_lower i vi v a :
  vertices !! i = Some vi ->
  walk graph vi v a ->
  forall j, vertices !! j = Some v -> (i = j /\ a = 0) \/ cell dist i j <= a.
Proof.
  intros Hi Hwalk.
  destruct (floyd_warshall_snapshots _ _ _ _ Hfw) as (_ & Hlast & (d0 & Hd0 & H0) & _).
  destruct (snapshots_least_below d0 (length vertices) dist H0 Hlast) as (Hsq & Hpos & Hleast).
  induction Hwalk as [_|u v a w Hwalk IH Hedge]; intros j Hj.
  - left. split; [|done]. by eapply NoDup_lookup.
  - right.
    assert (u ∈ vertices) as Hu.
    { eapply walk_stays; [|done]. by eapply list_elem_of_lookup_2. }
    apply list_elem_of_lookup in Hu as [ju Hju].
    pose proof (lookup_lt_Some _ _ _ Hi) as Hi'.
    pose proof (lookup_lt_Some _ _ _ Hj) as Hj'.
    pose proof (lookup_lt_Some _ _ _ Hju) as Hju'.
    assert (cell d0 ju j = w) as Hw.
    { destruct (initial_matrix_cells graph vertices Hnd d0 ju j u v Hd0 Hju Hj)
        as (adj & Hadj & Hcell).
      destruct Hedge as (adj' & Hadj' & Hvw). rewrite Hadj in Hadj'. injection Hadj' as <-.
      unfold cell. rewrite Hcell. by rewrite Hvw. }
    destruct (least_below_triangle _ _ (cell dist) ju j ju Hleast Hju' Hj' Hju') as [Hdirect _].
    destruct (IH ju Hju) as [[-> ->]|Hle].
    + lia.
    + destruct (least_below_triangle _ _ (cell dist) i j ju Hleast Hi' Hj' Hju') as [_ Htri].
      lia.
Qed.

(** A cell below [sys.maxsize] is the weight of a path of the graph. *)
Lemma floyd_warshall_realized k a i j vi vj x :
  all_matrices !! k = Some a ->
  vertices !! i = Some vi -> vertices !! j = Some vj ->
  get_cell a i j = Ok x -> x < maxsize ->
  walk graph vi vj x.
Proof.
  intros Ha. revert i j vi vj x.
  set (P := fun d : matrix =>
              square (length vertices) d /\ all_cells (fun x => 0 <= x) d /\
              forall i j vi vj x,
                vertices !! i = Some vi -> vertices !! j = Some vj ->
                get_cell d i j = Ok x -> x < maxsize -> walk graph vi vj x).
  assert (P a) as (_ & _ & HP); [|done].
  revert Ha. apply (floyd_warshall_invariant P graph vertices dist all_matrices); [| |done].
  - intros d0 Hd0. split; [by eapply initial_matrix_square|]. split.
    { revert Hd0. apply initial_matrix_all_cells; [unfold maxsize; lia | lia | done]. }
    intros i j vi vj x Hi Hj Hx Hlt.
    destruct (initial_matrix_cells graph vertices Hnd d0 i j vi vj Hd0 Hi Hj)
      as (adj & Hadj & Hcell).
    rewrite Hcell in Hx. injection Hx as <-.
    assert (vi ∈ dict_keys graph) as Hkey by (apply dict_get_is_Some; eauto).
    destruct (dict_get adj vj) as [w|] eqn:Hw.
    + replace w with (0 + w) by lia. apply walk_snoc with (u := vi); [by apply walk_nil|].
      by exists adj.
    + case_decide; [|lia]. subst j. rewrite Hi in Hj. injection Hj as <-.
      by apply walk_nil.
  - intros k' i' j' d d' (Hsq & Hpos & HP) Hrel.
    split; [by eapply relax_cell_square|].
    split; [by eapply relax_cell_all_cells_nonneg|].
    intros i j vi vj x Hi Hj Hx Hlt.
    apply relax_cell_Ok in Hrel
      as (dij & dik & dkj & Hij & Hik & Hkj & [[Hsum Hset]| [_ ->]]); [|by eauto].
    rewrite (get_set_cell _ _ _ _ _ _ _ Hset) in Hx. case_decide as Hc; [|by eauto].
    destruct Hc as [-> ->]. injection Hx as <-.
    pose proof (all_cells_get_cell _ _ _ _ _ Hpos Hik) as H2.
    pose proof (all_cells_get_cell _ _ _ _ _ Hpos Hkj) as H3. simpl in H2, H3.
    assert (k' < length vertices)%nat as Hk'.
    { apply get_cell_Ok in Hkj as (row & Hrow & _). apply lookup_lt_Some in Hrow.
      destruct Hsq as [Hlen _]. lia. }
    destruct (lookup_lt_is_Some_2 vertices k' Hk') as [vk Hvk].
    apply walk_app with (b := vk); [apply (HP i' k') | apply (HP k' j')]; try done; lia.
Qed.
End floyd_warshall_paths.

(** ** The claims on [dijkstra] *)

(** C1, as amended.  On a directed graph with non-negative weights and a
    source that is a vertex of it, [dijkstra] returns a mapping over the
    vertices of the graph in which the source maps to 0, a vertex that the
    source does not reach maps to [sys.maxsize], and a vertex that it
    reaches maps to the least total weight of a path from the source when
    that weight is below [sys.maxsize], and to [sys.maxsize] otherwise. *)
Theorem dijkstra_min_distance_capped (graph : graph_t) (start : string) :
  graph_ok graph ->
  start ∈ dict_keys graph ->
  exists d,
    dijkstra graph start = Some (Ok d) /\
    dict_keys d = dict_keys graph /\
    dict_get d start = Some 0 /\
    forall v, v ∈ dict_keys graph ->
      exists x,
        dict_get d v = Some x /\
        (~ reachable graph start v -> x = maxsize) /\
        (forall m, min_distance graph start v m -> x = Z.min m maxsize).
Proof.
  intros Hok Hstart.
  destruct (dijkstra_returns graph start Hok Hstart) as (d & Hd & Hinv).
  exists d. split; [done|]. split; [apply Hinv|]. split; [apply Hinv|].
  intros v Hv. rewrite <- (inv_keys _ _ _ _ Hinv) in Hv.
  apply dict_get_is_Some in Hv as [x Hx]. exists x. split; [done|].
  pose proof (inv_range _ _ _ _ Hinv _ _ Hx) as Hr.
  split.
  - intros Hnr. destruct (decide (x < maxsize)) as [Hlt|]; [|lia].
    exfalso. apply Hnr. exists x. by apply (inv_walk _ _ _ _ Hinv).
  - intros m [Hwalk Hmin].
    destruct (dijkstra_inv_lower graph start Hok d v m Hinv Hwalk) as (x' & Hx' & Hle & _).
    rewrite Hx in Hx'. injection Hx' as <-.
    destruct (decide (x < maxsize)) as [Hlt|]; [|lia].
    pose proof (Hmin x (inv_walk _ _ _ _ Hinv _ _ Hx Hlt)). lia.
Qed.

Lemma dijkstra_min_distance_capped_witness :
  exists d,
    dijkstra scenario_graph "A" = Some (Ok d) /\
    dict_keys d = dict_keys scenario_graph /\
    dict_get d "A" = Some 0 /\
    forall v, v ∈ dict_keys scenario_graph ->
      exists x,
        dict_get d v = Some x /\
        (~ reachable scenario_graph "A" v -> x = maxsize) /\
        (forall m, min_distance scenario_graph "A" v m -> x = Z.min m maxsize).
Proof.
  apply (dijkstra_min_distance_capped scenario_graph "A").
  - apply graph_okb_ok. vm_compute. reflexivity.
  - left.
Defined.

Lemma heavy_edge_walks v a :
  walk heavy_edge_graph "A" v a ->
  (v = "A" /\ a = 0) \/ (v = "B" /\ a = maxsize + 1).
Proof.
  induction 1 as [_|u v a w _ IH (adj & Hg & Ha)]; [by left|].
  right. destruct IH as [[-> ->]|[-> ->]]; cbn in Hg; injection Hg as <-.
  - cbn in Ha. case_decide; [|done]. injection Ha as <-. done.
  - discriminate.
Qed.

(** C1, as stated, fails on an edge heavier than [sys.maxsize]: B is
    reached from A, the least weight of a path is [sys.maxsize + 1], and B
    maps to [sys.maxsize]. *)
Lemma dijkstra_min_distance_heavy_edge :
  graph_ok heavy_edge_graph /\
  "A" ∈ dict_keys heavy_edge_graph /\
  ~ (forall d v m,
       dijkstra heavy_edge_graph "A" = Some (Ok d) ->
       v ∈ dict_keys heavy_edge_graph ->
       min_distance heavy_edge_graph "A" v m ->
       dict_get d v = Some m).
Proof.
  split; [apply graph_okb_ok; vm_compute; reflexivity|].
  split; [left|].
  intros Hclaim.
  specialize (Hclaim [("A", 0); ("B", maxsize)]%string "B"%string (maxsize + 1)).
  assert (Hneq : Some maxsize <> Some (maxsize + 1)) by (intros [=]; lia).
  apply Hneq. apply Hclaim.
  - vm_compute. reflexivity.
  - right. left.
  - split.
    + replace (maxsize + 1) with (0 + (maxsize + 1)) by lia.
      apply walk_snoc with (u := "A"%string); [apply walk_nil; left|].
      exists [("B", maxsize + 1)]%string. split; reflexivity.
    + intros a Hw. apply heavy_edge_walks in Hw as [[? _]|[_ ->]]; [done|lia].
Qed.

(** C8.  On the graph and the vertex list that [input_graph] builds, a
    source that is not a vertex is refused, by the menu with its message
    and by [dijkstra] itself with a [KeyError] on that label; with a source
    that is a vertex the computation returns distances, so the unknown
    source is the only way it fails. *)
Theorem unknown_source_only_error labels lines graph vertices source :
  input_graph labels lines = Ok (graph, vertices) ->
  (source ∉ vertices ->
     single_source_query graph vertices source = InvalidSourceVertex /\
     dijkstra graph source = Some (Raise (KeyError source))) /\
  (source ∈ vertices ->
     exists d,
       single_source_query graph vertices source = QueryResult (Some (Ok d)) /\
       dijkstra graph source = Some (Ok d)).
Proof.
  intros (_ & Hok & _ & Hvs)%input_graph_Ok. unfold single_source_query.
  split; intros Hs.
  - rewrite bool_decide_eq_false_2 by done. split; [done|].
    apply dijkstra_unknown_source. by rewrite <- Hvs.
  - rewrite bool_decide_eq_true_2 by done.
    destruct (dijkstra_returns graph source Hok) as (d & Hd & _); [by apply Hvs|].
    exists d. by rewrite Hd.
Qed.

Lemma unknown_source_only_error_witness :
  ("D" ∉ scenario_labels ->
     single_source_query scenario_graph scenario_labels "D" = InvalidSourceVertex /\
     dijkstra scenario_graph "D" = Some (Raise (KeyError "D"))) /\
  ("D" ∈ scenario_labels ->
     exists d,
       single_source_query scenario_graph scenario_labels "D"
       = QueryResult (Some (Ok d)) /\
       dijkstra scenario_graph "D" = Some (Ok d)).
Proof.
  apply (unknown_source_only_error scenario_labels scenario_lines).
  vm_compute. reflexivity.
Defined.

(** ** The claim on the vertices read *)

(** C7, as amended.  Adding a vertex never fails: the label is appended
    to the ordered vertex sequence, already there or not.  In the
    dictionary built from the sequence the label has an empty set of
    outgoing edges; a label that was there keeps its one entry, and a new
    one gets an entry at the end. *)
Theorem add_vertex_always_appends vertices label :
  add_vertex vertices label = vertices ++ [label] /\
  dict_get (empty_graph (add_vertex vertices label)) label = Some [] /\
  (label ∈ vertices ->
     empty_graph (add_vertex vertices label) = empty_graph vertices) /\
  (label ∉ vertices ->
     empty_graph (add_vertex vertices label) = empty_graph vertices ++ [(label, [])]).
Proof.
  assert (empty_graph (add_vertex vertices label)
          = dict_set (empty_graph vertices) label []) as Hset.
  { unfold empty_graph, dict_comp, add_vertex. by rewrite fold_left_app. }
  split; [done|]. rewrite Hset. split; [apply dict_get_set_eq|]. split; intros Hl.
  - apply dict_set_same. unfold empty_graph. rewrite dict_get_comp_any.
    by rewrite decide_True.
  - apply dict_set_absent. unfold empty_graph. by rewrite elem_of_dict_keys_comp.
Qed.

(** C7, as stated, fails: a label that is already there is read again
    without any error, and the vertex sequence then holds it twice. *)
Lemma duplicate_vertex_accepted :
  add_vertex ["A"]%string "A" = ["A"; "A"]%string /\
  add_vertex ["A"]%string "A" <> ["A"]%string /\
  input_graph ["A"; "A"]%string [] = Ok ([("A", [])], ["A"; "A"])%string.
Proof.
  split; [reflexivity|]. split; [discriminate|]. vm_compute. reflexivity.
Qed.

(** ** The claims on [floyd_warshall] *)

(** C3.  In the snapshot sequence that [floyd_warshall] returns, every
    cell of snapshot [k + 1] is at most the same cell of snapshot [k]. *)
Theorem snapshots_non_increasing graph vertices dist all_matrices k i j :
  floyd_warshall graph vertices = Ok (dist, all_matrices) ->
  (k < length vertices)%nat -> (i < length vertices)%nat -> (j < length vertices)%nat ->
  exists a b x y,
    all_matrices !! k = Some a /\ all_matrices !! S k = Some b /\
    get_cell a i j = Ok x /\ get_cell b i j = Ok y /\ y <= x.
Proof.
  intros Hfw Hk Hi Hj.
  destruct (floyd_warshall_snapshots _ _ _ _ Hfw) as (_ & _ & _ & Hchain).
  destruct (Hchain k Hk) as (a & b & Ha & Hb & Hab).
  assert (square (length vertices) a) as Hsq.
  { revert Ha. apply (floyd_warshall_invariant _ graph vertices dist all_matrices);
      [apply initial_matrix_square | | done].
    intros k' i' j' d d' Hd Hrel. by eapply relax_cell_square. }
  destruct (square_get_cell _ _ i j Hsq Hi Hj) as [x Hx].
  assert (exists y, get_cell b i j = Ok y /\ y <= x) as (y & Hy & Hle).
  { revert Hab.
    apply (pivot_pass_invariant (fun d => exists y, get_cell d i j = Ok y /\ y <= x));
      [|exists x; split; [done|lia]].
    intros i' j' d d' _ _ (y & Hy & Hle) Hrel.
    destruct (relax_cell_decreases _ _ _ _ _ _ _ _ Hrel Hy) as (z & Hz & Hle').
    exists z. split; [done|lia]. }
  by exists a, b, x, y.
Qed.

Lemma snapshots_non_increasing_witness :
  exists a b x y,
    scenario_snapshots !! 1%nat = Some a /\ scenario_snapshots !! 2%nat = Some b /\
    get_cell a 0 2 = Ok x /\ get_cell b 0 2 = Ok y /\ y <= x.
Proof.
  apply (snapshots_non_increasing scenario_graph scenario_labels scenario_dist
           scenario_snapshots 1 0 2).
  - vm_compute. reflexivity.
  - simpl. lia.
  - simpl. lia.
  - simpl. lia.
Defined.

(** C5.  The matrix that [floyd_warshall] returns is the last of the
    [n + 1] snapshots it returns, snapshot [n]. *)
Theorem final_matrix_is_last_snapshot graph vertices dist all_matrices :
  floyd_warshall graph vertices = Ok (dist, all_matrices) ->
  length all_matrices = S (length vertices) /\
  all_matrices !! length vertices = Some dist.
Proof.
  intros Hfw. destruct (floyd_warshall_snapshots _ _ _ _ Hfw) as (Hlen & Hlast & _).
  done.
Qed.

Lemma final_matrix_is_last_snapshot_witness :
  length scenario_snapshots = S (length scenario_labels) /\
  scenario_snapshots !! length scenario_labels = Some scenario_dist.
Proof.
  apply (final_matrix_is_last_snapshot scenario_graph scenario_labels).
  vm_compute. reflexivity.
Defined.

(** C9, as amended.  When no edge weighs more than [sys.maxsize], every
    cell of the working matrix, after any number of relaxations, and every
    cell of every snapshot and of the final matrix is at most
    [sys.maxsize]. *)
Theorem cells_at_most_maxsize graph vertices :
  (forall u v w, edge graph u v w -> w <= maxsize) ->
  (forall t d, working_matrix graph vertices t = Ok d ->
     all_cells (fun x => x <= maxsize) d) /\
  (forall dist all_matrices,
     floyd_warshall graph vertices = Ok (dist, all_matrices) ->
     all_cells (fun x => x <= maxsize) dist /\
     Forall (all_cells (fun x => x <= maxsize)) all_matrices).
Proof.
  intros Hw.
  assert (forall d0, initial_matrix graph vertices = Ok d0 ->
            all_cells (fun x => x <= maxsize) d0) as Hinit.
  { intros d0. apply initial_matrix_all_cells; [lia | unfold maxsize; lia | done]. }
  split.
  - intros t d. apply working_matrix_invariant; [done|].
    intros k i j d1 d2 H1 H2. by eapply relax_cell_all_cells_le.
  - intros dist all_matrices Hfw.
    assert (forall k a, all_matrices !! k = Some a ->
              all_cells (fun x => x <= maxsize) a) as Hall.
    { apply (floyd_warshall_invariant _ graph vertices dist all_matrices); [done| |done].
      intros k i j d1 d2 H1 H2. by eapply relax_cell_all_cells_le. }
    split; [|by apply Forall_lookup].
    destruct (floyd_warshall_snapshots _ _ _ _ Hfw) as (_ & Hlast & _). eauto.
Qed.

Lemma cells_at_most_maxsize_witness :
  (forall t d, working_matrix scenario_graph scenario_labels t = Ok d ->
     all_cells (fun x => x <= maxsize) d) /\
  (forall dist all_matrices,
     floyd_warshall scenario_graph scenario_labels = Ok (dist, all_matrices) ->
     all_cells (fun x => x <= maxsize) dist /\
     Forall (all_cells (fun x => x <= maxsize)) all_matrices).
Proof.
  apply (cells_at_most_maxsize scenario_graph scenario_labels).
  intros u v w He. apply (weights_withinb_ok 0 maxsize scenario_graph u v w); [|done].
  vm_compute. reflexivity.
Defined.

(** C9, as stated, fails on an edge heavier than [sys.maxsize]: the pass
    of pivot B stores [sys.maxsize + 1] in the cell of A and C, and the
    final matrix holds it. *)
Lemma cells_above_maxsize_heavy_edge :
  floyd_warshall heavy_pivot_graph heavy_pivot_vertices
  = Ok ([[0; maxsize; maxsize + 1]; [maxsize; 0; 1]; [maxsize; maxsize; 0]],
        [ [[0; maxsize; 2 ^ 64]; [maxsize; 0; 1]; [maxsize; maxsize; 0]];
          [[0; maxsize; 2 ^ 64]; [maxsize; 0; 1]; [maxsize; maxsize; 0]];
          [[0; maxsize; maxsize + 1]; [maxsize; 0; 1]; [maxsize; maxsize; 0]];
          [[0; maxsize; maxsize + 1]; [maxsize; 0; 1]; [maxsize; maxsize; 0]] ]) /\
  ~ all_cells (fun x => x <= maxsize)
      [[0; maxsize; maxsize + 1]; [maxsize; 0; 1]; [maxsize; maxsize; 0]].
Proof.
  split; [vm_compute; reflexivity|].
  intros Hall. apply (all_cells_get_cell _ _ 0 2 (maxsize + 1)) in Hall; [simpl in Hall; lia|].
  reflexivity.
Qed.

(** C2, as amended.  When every edge weight is between 0 and
    [sys.maxsize], the relaxation that the loops run on the working matrix
    changes nothing when [dist[i][k]] or [dist[k][j]] is [sys.maxsize]. *)
Theorem sentinel_pivot_never_relaxes graph vertices t k i j d :
  (forall u v w, edge graph u v w -> 0 <= w <= maxsize) ->
  working_matrix graph vertices t = Ok d ->
  schedule (length vertices) !! t = Some (k, i, j) ->
  get_cell d i k = Ok maxsize \/ get_cell d k j = Ok maxsize ->
  relax_cell k i j d = Ok d.
Proof.
  intros Hw Hd Ht Hinf.
  apply list_elem_of_lookup_2, elem_of_schedule in Ht as (Hk & Hi & Hj).
  assert (square (length vertices) d /\ all_cells (fun x => 0 <= x <= maxsize) d)
    as [Hsq Hall].
  { revert Hd.
    apply (working_matrix_invariant (fun d => square (length vertices) d /\
             all_cells (fun x => 0 <= x <= maxsize) d)).
    - intros d0 Hd0. split; [by eapply initial_matrix_square|].
      revert Hd0. apply initial_matrix_all_cells; [unfold maxsize; lia..|done].
    - intros k' i' j' d1 d2 [H1 H2] Hrel.
      split; [by eapply relax_cell_square | by eapply relax_cell_all_cells_within]. }
  unfold relax_cell.
  destruct (square_get_cell _ _ i j Hsq Hi Hj) as [dij Hij].
  destruct (square_get_cell _ _ i k Hsq Hi Hk) as [dik Hik].
  destruct (square_get_cell _ _ k j Hsq Hk Hj) as [dkj Hkj].
  rewrite Hij, Hik, Hkj, !bind_Ok.
  pose proof (all_cells_get_cell _ _ _ _ _ Hall Hij) as H1.
  pose proof (all_cells_get_cell _ _ _ _ _ Hall Hik) as H2.
  pose proof (all_cells_get_cell _ _ _ _ _ Hall Hkj) as H3.
  simpl in H1, H2, H3.
  destruct (Z.gtb_spec dij (dik + dkj)) as [Hgt|]; [|done].
  exfalso. destruct Hinf as [Hinf|Hinf]; rewrite Hinf in *; simplify_eq; lia.
Qed.

Lemma sentinel_pivot_never_relaxes_witness :
  relax_cell 0 1 0 scenario_d0 = Ok scenario_d0.
Proof.
  apply (sentinel_pivot_never_relaxes scenario_graph scenario_labels 3 0 1 0 scenario_d0).
  - intros u v w He. apply (weights_withinb_ok 0 maxsize scenario_graph u v w); [|done].
    vm_compute. reflexivity.
  - vm_compute. reflexivity.
  - reflexivity.
  - left. reflexivity.
Defined.

(** C2, as stated, fails on an edge heavier than [sys.maxsize]: when the
    loops reach pivot B, row A, column C, [dist[A][B]] is [sys.maxsize],
    B is not reached from A, and the relaxation replaces [2 ^ 64] in the
    cell of A and C by [sys.maxsize + 1]. *)
Lemma sentinel_pivot_relaxes_heavy_edge :
  working_matrix heavy_pivot_graph heavy_pivot_vertices 11
  = Ok [[0; maxsize; 2 ^ 64]; [maxsize; 0; 1]; [maxsize; maxsize; 0]] /\
  schedule (length heavy_pivot_vertices) !! 11%nat = Some (1, 0, 2)%nat /\
  get_cell [[0; maxsize; 2 ^ 64]; [maxsize; 0; 1]; [maxsize; maxsize; 0]] 0 1
  = Ok maxsize /\
  relax_cell 1 0 2 [[0; maxsize; 2 ^ 64]; [maxsize; 0; 1]; [maxsize; maxsize; 0]]
  = Ok [[0; maxsize; maxsize + 1]; [maxsize; 0; 1]; [maxsize; maxsize; 0]] /\
  maxsize + 1 <> 2 ^ 64.
Proof.
  repeat split; try (vm_compute; reflexivity). unfold maxsize. lia.
Qed.

(** C10.  Snapshot [k], recorded after pivot [k], holds the working matrix
    of that moment; after any number of later pivots, and so at the final
    return, the same location holds the same matrix, and none of its
    objects, the list or its rows, is an object of [dist] or of another
    snapshot: each snapshot is a copy of its own. *)
Theorem snapshots_are_copies graph vertices k m st_k h_k st_m h_m :
  (k <= m)%nat ->
  store_floyd_warshall_upto k graph vertices [] = Ok (st_k, h_k) ->
  store_floyd_warshall_upto m graph vertices [] = Ok (st_m, h_m) ->
  exists c snapshot,
    st_k.2 !! k = Some c /\ st_m.2 !! k = Some c /\
    matrix_at h_k st_k.1 = Some snapshot /\
    matrix_at h_k c = Some snapshot /\
    matrix_at h_m c = Some snapshot /\
    (forall x, x ∈ objects_at h_m c -> x ∉ objects_at h_m st_m.1) /\
    (forall k' c' x, k' <> k -> st_m.2 !! k' = Some c' ->
       x ∈ objects_at h_m c -> x ∉ objects_at h_m c').
Proof.
  intros Hkm Hk Hm.
  pose proof (sim_floyd_warshall_upto k graph vertices []) as Hsim.
  rewrite Hk in Hsim. unfold sim in Hsim.
  destruct (floyd_warshall_upto k graph vertices) as [[d_k snaps_k]|e] eqn:Hpure; [|done].
  simpl in Hsim. destruct st_k as [dist_k all_k]. simpl in *.
  apply floyd_warshall_upto_snapshots in Hpure as [Hlen Hlast].
  destruct (Forall2_lookup_r _ _ _ _ _ (rep_all _ _ _ _ _ Hsim) Hlast) as (c & Hc & Hcm).
  rewrite (store_floyd_warshall_upto_continue k m graph vertices [] _ _ Hkm Hk) in Hm.
  assert (run_rel dist_k all_k snaps_k (dist_k, all_k) h_k (d_k, snaps_k)) as Hrel.
  { split; [done|]. split; [done|]. split; done. }
  pose proof (sim_pivot_steps (length vertices) dist_k all_k snaps_k (dist_k, all_k) h_k
                (d_k, snaps_k) (seq k (m - k)) Hrel) as Hrun.
  rewrite Hm in Hrun. unfold sim in Hrun.
  destruct (foldM _ _ _) as [[d_m snaps_m]|e]; [|done].
  destruct Hrun as (Hrep & Hdist & Hpre1 & Hpre2).
  destruct st_m as [dist_m all_m]. simpl in *.
  assert (all_m !! k = Some c) as Hc' by (by eapply prefix_lookup_Some).
  assert (snaps_m !! k = Some d_k) as Hs' by (by eapply prefix_lookup_Some).
  exists c, d_k. split; [done|]. split; [done|].
  split. { destruct (rep_dist _ _ _ _ _ Hsim) as (rows & Hd & _).
           apply matrix_at_holds. eauto. }
  split; [done|].
  split. { apply (Forall2_lookup_lr _ _ _ _ _ _ (rep_all _ _ _ _ _ Hrep) Hc' Hs'). }
  split.
  - intros x. apply (rep_sep _ _ _ _ _ Hrep). by eapply list_elem_of_lookup_2.
  - intros k' c' x Hne Hk' Hx. by apply (rep_distinct _ _ _ _ _ Hrep k k' c c' x).
Qed.

Lemma snapshots_are_copies_witness :
  exists c snapshot,
    scenario_run_1.1.2 !! 1%nat = Some c /\ scenario_run_3.1.2 !! 1%nat = Some c /\
    matrix_at scenario_run_1.2 scenario_run_1.1.1 = Some snapshot /\
    matrix_at scenario_run_1.2 c = Some snapshot /\
    matrix_at scenario_run_3.2 c = Some snapshot /\
    (forall x, x ∈ objects_at scenario_run_3.2 c ->
       x ∉ objects_at scenario_run_3.2 scenario_run_3.1.1) /\
    (forall k' c' x, k' <> 1%nat -> scenario_run_3.1.2 !! k' = Some c' ->
       x ∈ objects_at scenario_run_3.2 c -> x ∉ objects_at scenario_run_3.2 c').
Proof.
  apply (snapshots_are_copies scenario_graph scenario_labels 1 3
           scenario_run_1.1 scenario_run_1.2 scenario_run_3.1 scenario_run_3.2).
  - lia.
  - vm_compute. reflexivity.
  - vm_compute. reflexivity.
Defined.

(** C4 fails on a vertex with an edge to itself: the edge loop runs after
    the diagonal is set to 0 and overwrites it, so snapshot 0 holds the
    weight 5 on the diagonal. *)
Lemma initial_snapshot_self_loop :
  input_graph self_loop_vertices [("A", "A", 5%N)]%string
  = Ok (self_loop_graph, self_loop_vertices) /\
  initial_matrix self_loop_graph self_loop_vertices = Ok [[5]] /\
  floyd_warshall self_loop_graph self_loop_vertices = Ok ([[5]], [[[5]]; [[5]]]).
Proof. repeat split; vm_compute; reflexivity. Qed.

(** C6 fails on the same graph: the diagonal cell of the final matrix is
    5, where [dijkstra] gives 0 for the distance from A to A. *)
Lemma final_diagonal_self_loop :
  graph_ok self_loop_graph /\
  floyd_warshall self_loop_graph self_loop_vertices = Ok ([[5]], [[[5]]; [[5]]]) /\
  get_cell [[5]] 0 0 = Ok 5 /\
  dijkstra self_loop_graph "A" = Some (Ok [("A", 0)]%string).
Proof.
  split; [apply graph_okb_ok; vm_compute; reflexivity|].
  repeat split; vm_compute; reflexivity.
Qed.

(** ** Further properties *)


(** X2.  On a graph with non-negative weights the [while] loop of
    [dijkstra] ends, and [dijkstra] raises exactly when the source is no vertex of the
    graph. *)
Theorem dijkstra_total graph source :
  graph_ok graph ->
  (source ∉ dict_keys graph -> dijkstra graph source = Some (Raise (KeyError source))) /\
  (source ∈ dict_keys graph ->
     exists d, dijkstra graph source = Some (Ok d) /\ dict_keys d = dict_keys graph).
Proof.
  intros Hok. split; [apply dijkstra_unknown_source|].
  intros Hs. destruct (dijkstra_returns graph source Hok Hs) as (d & Hd & Hinv).
  exists d. split; [done | apply Hinv].
Qed.

Lemma dijkstra_total_witness :
  ("A" ∉ dict_keys scenario_graph ->
     dijkstra scenario_graph "A" = Some (Raise (KeyError "A"))) /\
  ("A" ∈ dict_keys scenario_graph ->
     exists d, dijkstra scenario_graph "A" = Some (Ok d) /\
               dict_keys d = dict_keys scenario_graph).
Proof.
  apply (dijkstra_total scenario_graph "A").
  apply graph_okb_ok. vm_compute. reflexivity.
Defined.

(** X3.  [floyd_warshall] raises nothing when every label of [vertices]
    is a key of the graph and every edge ends at a label of [vertices]. *)
Theorem floyd_warshall_total graph vertices :
  fw_ok graph vertices ->
  exists dist all_matrices,
    floyd_warshall graph vertices = Ok (dist, all_matrices) /\
    length all_matrices = S (length vertices) /\
    square (length vertices) dist.
Proof.
  intros Hok. destruct (floyd_warshall_returns graph vertices Hok) as (dist & all & Hfw).
  exists dist, all. split; [done|].
  destruct (floyd_warshall_snapshots _ _ _ _ Hfw) as (Hlen & Hlast & _).
  split; [done|]. revert Hlast.
  apply (floyd_warshall_invariant _ graph vertices dist all);
    [apply initial_matrix_square | | done].
  intros k i j d d' Hd Hrel. by eapply relax_cell_square.
Qed.

Lemma floyd_warshall_total_witness :
  exists dist all_matrices,
    floyd_warshall scenario_graph scenario_labels = Ok (dist, all_matrices) /\
    length all_matrices = S (length scenario_labels) /\
    square (length scenario_labels) dist.
Proof.
  apply (floyd_warshall_total scenario_graph scenario_labels).
  apply (input_graph_Ok scenario_labels scenario_lines). vm_compute. reflexivity.
Defined.

(** X4.  Snapshot 0, cell by cell, when no label is repeated: the weight of
    the edge from vertex [i] to vertex [j] when the graph has one, also
    for [i = j]; otherwise 0 on the diagonal and [sys.maxsize] elsewhere. *)
Theorem initial_snapshot_cells graph vertices dist all_matrices i j vi vj :
  NoDup vertices ->
  floyd_warshall graph vertices = Ok (dist, all_matrices) ->
  vertices !! i = Some vi -> vertices !! j = Some vj ->
  exists d0 adj,
    all_matrices !! O = Some d0 /\ dict_get graph vi = Some adj /\
    get_cell d0 i j
    = Ok (match dict_get adj vj with
          | Some w => w
          | None => if decide (i = j) then 0 else maxsize
          end).
Proof.
  intros Hnd Hfw Hi Hj.
  destruct (floyd_warshall_snapshots _ _ _ _ Hfw) as (_ & _ & (d0 & Hd0 & H0) & _).
  destruct (initial_matrix_cells graph vertices Hnd d0 i j vi vj Hd0 Hi Hj)
    as (adj & Hadj & Hcell).
  by exists d0, adj.
Qed.

Lemma initial_snapshot_cells_witness :
  exists d0 adj,
    scenario_snapshots !! O = Some d0 /\ dict_get scenario_graph "A" = Some adj /\
    get_cell d0 0 2
    = Ok (match dict_get adj "C" with
          | Some w => w
          | None => if decide (0 = 2)%nat then 0 else maxsize
          end).
Proof.
  apply (initial_snapshot_cells scenario_graph scenario_labels scenario_dist
           scenario_snapshots 0 2 "A" "C").
  - apply (bool_decide_unpack (NoDup scenario_labels)). vm_compute. exact I.
  - vm_compute. reflexivity.
  - reflexivity.
  - reflexivity.
Defined.

(** X5.  With non-negative weights, no repeated label and no edge of
    positive weight from a vertex to itself, the diagonal of every snapshot, and so
    of the final matrix, is 0. *)
Theorem diagonal_zero_without_self_loops graph vertices dist all_matrices k a i :
  NoDup vertices ->
  (forall u v w, edge graph u v w -> 0 <= w) ->
  (forall v w, edge graph v v w -> w = 0) ->
  floyd_warshall graph vertices = Ok (dist, all_matrices) ->
  all_matrices !! k = Some a ->
  (i < length vertices)%nat ->
  get_cell a i i = Ok 0 /\ get_cell dist i i = Ok 0.
Proof.
  intros Hnd Hnonneg Hloop Hfw Ha Hi. split.
  - by apply (floyd_warshall_diagonal graph vertices dist all_matrices k).
  - destruct (floyd_warshall_snapshots _ _ _ _ Hfw) as (_ & Hlast & _).
    by apply (floyd_warshall_diagonal graph vertices dist all_matrices (length vertices)).
Qed.

Lemma diagonal_zero_without_self_loops_witness :
  get_cell scenario_dist 1 1 = Ok 0 /\ get_cell scenario_dist 1 1 = Ok 0.
Proof.
  apply (diagonal_zero_without_self_loops scenario_graph scenario_labels scenario_dist
           scenario_snapshots 2 scenario_dist 1).
  - apply (bool_decide_unpack (NoDup scenario_labels)). vm_compute. exact I.
  - intros u v w He. apply (weights_withinb_ok 0 maxsize scenario_graph u v w); [|done].
    vm_compute. reflexivity.
  - intros v w (adj & Hg & Ha). exfalso. cbn in Hg.
    repeat (case_decide; simplify_eq); cbn in Ha;
      repeat (case_decide; simplify_eq).
  - vm_compute. reflexivity.
  - reflexivity.
  - simpl. lia.
Defined.

(** X6.  The run on the store of list objects and the run on values end
    with the same exception, or with a store in which the location returned
    for [dist] and the locations of [all_matrices] hold the matrix and the
    snapshots that the run on values returns. *)
Theorem store_floyd_warshall_agrees graph vertices :
  sim (fun st h ps =>
         matrix_at h st.1 = Some ps.1 /\
         Forall2 (fun c m => matrix_at h c = Some m) st.2 ps.2)
      (store_floyd_warshall graph vertices []) (floyd_warshall graph vertices).
Proof. apply store_floyd_warshall_refines. Qed.

(** X7.  With non-negative weights none above [sys.maxsize], no repeated
    label and every edge ending at a label of [vertices], the cell of the final
    matrix for two different vertices is [sys.maxsize] when the second is
    not reached from the first, and otherwise the least total weight of a
    path between them, or [sys.maxsize] when that is smaller. *)
Theorem floyd_warshall_min_distance_capped graph vertices dist all_matrices i j vi vj :
  NoDup vertices ->
  (forall u v w, edge graph u v w -> v ∈ vertices /\ 0 <= w <= maxsize) ->
  floyd_warshall graph vertices = Ok (dist, all_matrices) ->
  vertices !! i = Some vi -> vertices !! j = Some vj -> i <> j ->
  exists x,
    get_cell dist i j = Ok x /\
    (~ reachable graph vi vj -> x = maxsize) /\
    (forall m, min_distance graph vi vj m -> x = Z.min m maxsize).
Proof.
  intros Hnd Hedges Hfw Hi Hj Hne.
  assert (forall u v w, edge graph u v w -> v ∈ vertices) as Hclosed by (intros; by eapply Hedges).
  assert (forall u v w, edge graph u v w -> 0 <= w) as Hnonneg by (intros; by eapply Hedges).
  assert (forall u v w, edge graph u v w -> w <= maxsize) as Hle by (intros; by eapply Hedges).
  destruct (floyd_warshall_snapshots _ _ _ _ Hfw) as (_ & Hlast & (d0 & Hd0 & H0) & _).
  destruct (snapshots_least_below graph vertices dist all_matrices Hnonneg Hfw d0 _ dist H0 Hlast)
    as (Hsq & Hpos & _).
  pose proof (lookup_lt_Some _ _ _ Hi) as Hi'.
  pose proof (lookup_lt_Some _ _ _ Hj) as Hj'.
  pose proof (get_cell_cell _ _ _ _ Hsq Hi' Hj') as Hx.
  exists (cell dist i j). split; [done|].
  assert (cell dist i j <= maxsize) as Hmax.
  { assert (all_cells (fun x => x <= maxsize) dist) as Hd.
    { revert Hlast.
      apply (floyd_warshall_invariant _ graph vertices dist all_matrices); [| |done].
      - intros d1. apply initial_matrix_all_cells; [lia | unfold maxsize; lia | done].
      - intros k' i' j' d1 d2 H1 H2. by eapply relax_cell_all_cells_le. }
    apply (all_cells_get_cell _ _ _ _ _ Hd Hx). }
  split.
  - intros Hnr. destruct (decide (cell dist i j < maxsize)) as [Hlt|]; [|lia].
    exfalso. apply Hnr. exists (cell dist i j).
    by apply (floyd_warshall_realized graph vertices dist all_matrices Hnd Hnonneg Hfw
                (length vertices) dist i j).
  - intros m [Hwalk Hmin].
    destruct (floyd_warshall_lower graph vertices dist all_matrices Hnd Hclosed Hnonneg Hfw
                i vi vj m Hi Hwalk j Hj) as [[? _]|Hlow]; [done|].
    destruct (decide (cell dist i j < maxsize)) as [Hlt|]; [|lia].
    pose proof (Hmin _ (floyd_warshall_realized graph vertices dist all_matrices Hnd Hnonneg
                          Hfw (length vertices) dist i j vi vj _ Hlast Hi Hj Hx Hlt)).
    lia.
Qed.

Lemma floyd_warshall_min_distance_capped_witness :
  exists x,
    get_cell scenario_dist 0 2 = Ok x /\
    (~ reachable scenario_graph "A" "C" -> x = maxsize) /\
    (forall m, min_distance scenario_graph "A" "C" m -> x = Z.min m maxsize).
Proof.
  apply (floyd_warshall_min_distance_capped scenario_graph scenario_labels scenario_dist
           scenario_snapshots 0 2 "A" "C").
  - apply (bool_decide_unpack (NoDup scenario_labels)). vm_compute. exact I.
  - intros u v w He. split.
    + apply (ok_closed scenario_graph) in He; [done|].
      apply graph_okb_ok. vm_compute. reflexivity.
    + apply (weights_withinb_ok 0 maxsize scenario_graph u v w); [|done].
      vm_compute. reflexivity.
  - vm_compute. reflexivity.
  - reflexivity.
  - reflexivity.
  - lia.
Defined.

(** * The console *)

(** ** Computations on the console *)

Lemma io_bind_eq {A B : Type} (p : Console.io A) (k : A -> Console.io B) lines :
  (p ≫= k) lines
  = match (p lines).2 with
    | Console.Returns a rest => ((p lines).1 ++ (k a rest).1, (k a rest).2)
    | Console.Raises e => ((p lines).1, Console.Raises e)
    | Console.Unfinished => ((p lines).1, Console.Unfinished)
    end.
Proof.
  unfold mbind, Console.io_bind. destruct (p lines) as [out [a rest|e|]]; simpl; [|done..].
  by destruct (k a rest).
Qed.

Lemma io_bind_returns {A B : Type} (p : Console.io A) (k : A -> Console.io B) lines out a rest :
  p lines = (out, Console.Returns a rest) ->
  (p ≫= k) lines = (out ++ (k a rest).1, (k a rest).2).
Proof. intros H. by rewrite io_bind_eq, H. Qed.

Lemma io_bind_raises {A B : Type} (p : Console.io A) (k : A -> Console.io B) lines out e :
  p lines = (out, Console.Raises e) -> (p ≫= k) lines = (out, Console.Raises e).
Proof. intros H. by rewrite io_bind_eq, H. Qed.

Lemma io_bind_unfinished {A B : Type} (p : Console.io A) (k : A -> Console.io B) lines out :
  p lines = (out, Console.Unfinished) -> (p ≫= k) lines = (out, Console.Unfinished).
Proof. intros H. by rewrite io_bind_eq, H. Qed.

Lemma io_bind_ret {A B : Type} (a : A) (k : A -> Console.io B) lines :
  (mret a ≫= k) lines = k a lines.
Proof. rewrite io_bind_eq. simpl. by destruct (k a lines). Qed.

Lemma io_bind_emit {B : Type} e (k : unit -> Console.io B) lines :
  (Console.emit e ≫= k) lines = (e :: (k tt lines).1, (k tt lines).2).
Proof. by rewrite io_bind_eq. Qed.

Lemma io_bind_print {B : Type} text (k : unit -> Console.io B) lines :
  (Console.print text ≫= k) lines
  = (Console.Print text :: (k tt lines).1, (k tt lines).2).
Proof. apply io_bind_emit. Qed.

Lemma io_bind_of_result_Ok {A B : Type} (a : A) (k : A -> Console.io B) lines :
  (Console.of_result (Ok a) ≫= k) lines = k a lines.
Proof. rewrite io_bind_eq. simpl. by destruct (k a lines). Qed.

Lemma io_bind_input {B : Type} msg (k : string -> Console.io B) lines :
  (Console.input msg ≫= k) lines
  = match lines with
    | [] => ([Console.Prompt msg], Console.Raises Console.EOFError)
    | line :: rest => (Console.Prompt msg :: (k line rest).1, (k line rest).2)
    end.
Proof. rewrite io_bind_eq. by destruct lines. Qed.

Lemma advances_le {A : Type} d d' (p : Console.io A) :
  (d' <= d)%nat -> advances d p -> advances d' p.
Proof. intros Hle Hp lines out a rest H. specialize (Hp _ _ _ _ H). lia. Qed.

Lemma advances_ret {A : Type} (a : A) : advances 0 (mret a).
Proof. intros lines out a' rest [= _ _ <-]. lia. Qed.

Lemma advances_emit e : advances 0 (Console.emit e).
Proof. intros lines out a' rest [= _ _ <-]. lia. Qed.

Lemma advances_of_result {A : Type} (r : result A) : advances 0 (Console.of_result r).
Proof. intros lines out a rest. destruct r; intros ?; simplify_eq/=. lia. Qed.

Lemma advances_read_line : advances 1 Console.read_line.
Proof. intros [|l lines] out a rest; intros ?; simplify_eq/=. lia. Qed.

Lemma advances_bind {A B : Type} d1 d2 (p : Console.io A) (k : A -> Console.io B) :
  advances d1 p -> (forall a, advances d2 (k a)) -> advances (d1 + d2) (p ≫= k).
Proof.
  intros Hp Hk lines out b rest. rewrite io_bind_eq.
  destruct (p lines) as [out1 [a rest1|e|]] eqn:Hpl; simpl; [|done..].
  intros [= _ H]. specialize (Hp _ _ _ _ Hpl).
  destruct (k a rest1) as [out2 o] eqn:Hkl. simpl in H. subst o.
  specialize (Hk _ _ _ _ _ Hkl). lia.
Qed.

Lemma advances_bind_l {A B : Type} d (p : Console.io A) (k : A -> Console.io B) :
  advances d p -> (forall a, advances 0 (k a)) -> advances d (p ≫= k).
Proof. intros Hp Hk. eapply advances_le; [|by apply (advances_bind d 0)]. lia. Qed.

Lemma advances_bind_r {A B : Type} d (p : Console.io A) (k : A -> Console.io B) :
  advances 0 p -> (forall a, advances d (k a)) -> advances d (p ≫= k).
Proof. intros Hp Hk. by apply (advances_bind 0 d). Qed.

Lemma advances_input msg : advances 1 (Console.input msg).
Proof.
  apply (advances_bind_r 1); [apply advances_emit | intros _; apply advances_read_line].
Qed.

Lemma advances_foldIO {A B : Type} (f : B -> A -> Console.io B) l b :
  (forall b a, advances 0 (f b a)) -> advances 0 (Console.foldIO f l b).
Proof.
  intros Hf. revert b. induction l as [|a l IH]; intros b; simpl.
  - apply advances_ret.
  - apply (advances_bind_r 0); [apply Hf | apply IH].
Qed.

Lemma advances_for {A : Type} (l : list A) (body : A -> Console.io unit) :
  (forall a, advances 0 (body a)) -> advances 0 (Console.for_ l body).
Proof. intros Hb. apply advances_foldIO. intros _ a. apply Hb. Qed.

(** The turns of a [while True] whose body reads a line. *)
Lemma loop_enough {S A : Type} (body : S -> Console.io (S + A)) :
  (forall s, advances 1 (body s)) ->
  forall n m s lines,
    (length lines < n)%nat -> (length lines < m)%nat ->
    Console.loop n body s lines = Console.loop m body s lines.
Proof.
  intros Hadv. induction n as [|n IH]; intros m s lines Hn Hm; [lia|].
  destruct m as [|m]; [lia|]. simpl. rewrite !io_bind_eq.
  destruct (body s lines) as [out [[s'|a] rest|e|]] eqn:Hb; simpl; try done.
  specialize (Hadv _ _ _ _ _ Hb). rewrite (IH m); [done|lia..].
Qed.

Lemma while_true_unfold {S A : Type} (body : S -> Console.io (S + A)) s lines :
  (forall s, advances 1 (body s)) ->
  Console.while_true body s lines
  = (r ← body s;
     match r with
     | inl s' => Console.while_true body s'
     | inr a => mret a
     end) lines.
Proof.
  intros Hadv. unfold Console.while_true at 1. simpl. rewrite !io_bind_eq.
  destruct (body s lines) as [out [[s'|a] rest|e|]] eqn:Hb; simpl; try done.
  pose proof (Hadv _ _ _ _ _ Hb). unfold Console.while_true.
  rewrite (loop_enough body Hadv (length lines) (Datatypes.S (length rest))); [done|lia..].
Qed.

Lemma advances_while_true {S A : Type} (body : S -> Console.io (S + A)) s :
  (forall s, advances 1 (body s)) -> advances 1 (Console.while_true body s).
Proof.
  intros Hadv lines. remember (length lines) as n eqn:Hn.
  revert s lines Hn. induction (lt_wf n) as [n _ IH]. intros s lines -> out a rest.
  rewrite while_true_unfold by done. rewrite io_bind_eq.
  destruct (body s lines) as [out1 [[s'|a'] rest1|e|]] eqn:Hb; simpl; try done.
  - specialize (Hadv _ _ _ _ _ Hb).
    destruct (Console.while_true body s' rest1) as [out2 o] eqn:Hw. simpl.
    intros [= _ ->]. specialize (IH (length rest1) ltac:(lia) s' rest1 eq_refl _ _ _ Hw). lia.
  - intros [= _ _ <-]. by specialize (Hadv _ _ _ _ _ Hb).
Qed.

Section safe_input.
Context {T : Console.text_ops}.

Lemma safe_int_body_advances msg (u : unit) :
  advances 1
    (val ← Console.input msg;
     if Console.isdigit val then
       n ← Console.of_result (Console.int val); mret (inr n)
     else
       _ ← Console.print "<<<<===== INVALID INPUT! ENTER ONLY INTEGER =====>>>>";
       mret (inl tt) : Console.io (unit + Z)).
Proof.
  apply (advances_bind_l 1); [apply advances_input|]. intros val.
  destruct (Console.isdigit val).
  - apply (advances_bind_l 0); [apply advances_of_result | intros; apply advances_ret].
  - apply (advances_bind_l 0); [apply advances_emit | intros; apply advances_ret].
Qed.

Lemma safe_int_unfold msg lines :
  Console.safe_int msg lines
  = match lines with
    | [] => ([Console.Prompt msg], Console.Raises Console.EOFError)
    | val :: rest =>
        if Console.isdigit val then
          match Console.int val with
          | Ok n => ([Console.Prompt msg], Console.Returns n rest)
          | Raise e => ([Console.Prompt msg], Console.Raises (Console.Exception e))
          end
        else
          (Console.Prompt msg
           :: Console.Print "<<<<===== INVALID INPUT! ENTER ONLY INTEGER =====>>>>"
           :: (Console.safe_int msg rest).1,
           (Console.safe_int msg rest).2)
    end.
Proof.
  unfold Console.safe_int at 1.
  rewrite while_true_unfold by apply safe_int_body_advances.
  rewrite io_bind_eq, io_bind_input. destruct lines as [|val rest]; [done|].
  destruct (Console.isdigit val).
  - rewrite io_bind_eq. destruct (Console.int val) as [n|e]; done.
  - rewrite io_bind_print. done.
Qed.
End safe_input.

Section safe_input_facts.
Context {T : Console.text_ops}.

Lemma safe_str_body_advances msg (u : unit) :
  advances 1
    (val ← Console.input msg;
     if Console.isalpha val then mret (inr val)
     else
       _ ← Console.print "<<<<===== INVALID INPUT! ENTER ONLY STRING =====>>>>";
       mret (inl tt) : Console.io (unit + string)).
Proof.
  apply (advances_bind_l 1); [apply advances_input|]. intros val.
  destruct (Console.isalpha val).
  - apply advances_ret.
  - apply (advances_bind_l 0); [apply advances_emit | intros; apply advances_ret].
Qed.

Lemma safe_str_unfold msg lines :
  Console.safe_str msg lines
  = match lines with
    | [] => ([Console.Prompt msg], Console.Raises Console.EOFError)
    | val :: rest =>
        if Console.isalpha val then ([Console.Prompt msg], Console.Returns val rest)
        else
          (Console.Prompt msg
           :: Console.Print "<<<<===== INVALID INPUT! ENTER ONLY STRING =====>>>>"
           :: (Console.safe_str msg rest).1,
           (Console.safe_str msg rest).2)
    end.
Proof.
  unfold Console.safe_str at 1.
  rewrite while_true_unfold by apply safe_str_body_advances.
  rewrite io_bind_eq, io_bind_input. destruct lines as [|val rest]; [done|].
  destruct (Console.isalpha val); [done|].
  rewrite io_bind_print. done.
Qed.

Lemma advances_safe_int msg : advances 1 (Console.safe_int msg).
Proof. apply advances_while_true, safe_int_body_advances. Qed.

Lemma advances_safe_str msg : advances 1 (Console.safe_str msg).
Proof. apply advances_while_true, safe_str_body_advances. Qed.

End safe_input_facts.

(** X8.  [safe_int] asks until a line passes [isdigit]: every line before
    the first such line costs one prompt and one message, that line is
    read by [int], whose value or exception is the result, and the lines
    after it are left unread.  When no line passes, the input runs out and
    [EOFError] is raised after the last prompt. *)
Theorem safe_int_first_valid {T : Console.text_ops} msg bad val rest :
  Forall (fun line => Console.isdigit line = false) bad ->
  Console.isdigit val = true ->
  Console.safe_int msg bad
  = ((bad ≫= fun _ =>
        [Console.Prompt msg;
         Console.Print "<<<<===== INVALID INPUT! ENTER ONLY INTEGER =====>>>>"])
     ++ [Console.Prompt msg],
     Console.Raises Console.EOFError) /\
  Console.safe_int msg (bad ++ val :: rest)
  = ((bad ≫= fun _ =>
        [Console.Prompt msg;
         Console.Print "<<<<===== INVALID INPUT! ENTER ONLY INTEGER =====>>>>"])
     ++ [Console.Prompt msg],
     match Console.int val with
     | Ok n => Console.Returns n rest
     | Raise e => Console.Raises (Console.Exception e)
     end).
Proof.
  intros Hbad Hval. induction Hbad as [|line bad Hline _ [IH1 IH2]].
  - split; [done|]. simpl. rewrite safe_int_unfold, Hval.
    by destruct (Console.int val).
  - split; simpl.
    + by rewrite safe_int_unfold, Hline, IH1.
    + by rewrite safe_int_unfold, Hline, IH2.
Qed.

Lemma safe_int_first_valid_witness :
  Console.safe_int (T := Console.ascii_text) "n: " ["x"; EmptyString; "-3"]%string
  = ((["x"; EmptyString; "-3"]%string ≫= fun _ =>
        [Console.Prompt "n: ";
         Console.Print "<<<<===== INVALID INPUT! ENTER ONLY INTEGER =====>>>>"])
     ++ [Console.Prompt "n: "],
     Console.Raises Console.EOFError) /\
  Console.safe_int (T := Console.ascii_text) "n: "
    (["x"; EmptyString; "-3"]%string ++ "042"%string :: ["A"]%string)
  = ((["x"; EmptyString; "-3"]%string ≫= fun _ =>
        [Console.Prompt "n: ";
         Console.Print "<<<<===== INVALID INPUT! ENTER ONLY INTEGER =====>>>>"])
     ++ [Console.Prompt "n: "],
     match @Console.int Console.ascii_text "042" with
     | Ok n => Console.Returns n ["A"]%string
     | Raise e => Console.Raises (Console.Exception e)
     end).
Proof.
  apply (safe_int_first_valid (T := Console.ascii_text) "n: "
           ["x"; EmptyString; "-3"]%string "042" ["A"]%string).
  - repeat constructor.
  - reflexivity.
Defined.

(** X9.  [safe_str] asks until a line passes [isalpha] and returns that
    line as it is, leaving the lines after it unread; every line before it
    costs one prompt and one message.  When no line passes, [EOFError] is
    raised after the last prompt. *)
Theorem safe_str_first_valid {T : Console.text_ops} msg bad val rest :
  Forall (fun line => Console.isalpha line = false) bad ->
  Console.isalpha val = true ->
  Console.safe_str msg bad
  = ((bad ≫= fun _ =>
        [Console.Prompt msg;
         Console.Print "<<<<===== INVALID INPUT! ENTER ONLY STRING =====>>>>"])
     ++ [Console.Prompt msg],
     Console.Raises Console.EOFError) /\
  Console.safe_str msg (bad ++ val :: rest)
  = ((bad ≫= fun _ =>
        [Console.Prompt msg;
         Console.Print "<<<<===== INVALID INPUT! ENTER ONLY STRING =====>>>>"])
     ++ [Console.Prompt msg],
     Console.Returns val rest).
Proof.
  intros Hbad Hval. induction Hbad as [|line bad Hline _ [IH1 IH2]].
  - split; [done|]. simpl. by rewrite safe_str_unfold, Hval.
  - split; simpl.
    + by rewrite safe_str_unfold, Hline, IH1.
    + by rewrite safe_str_unfold, Hline, IH2.
Qed.

Lemma safe_str_first_valid_witness :
  Console.safe_str (T := Console.ascii_text) "v: " ["A1"; EmptyString; "7"]%string
  = ((["A1"; EmptyString; "7"]%string ≫= fun _ =>
        [Console.Prompt "v: ";
         Console.Print "<<<<===== INVALID INPUT! ENTER ONLY STRING =====>>>>"])
     ++ [Console.Prompt "v: "],
     Console.Raises Console.EOFError) /\
  Console.safe_str (T := Console.ascii_text) "v: "
    (["A1"; EmptyString; "7"]%string ++ "Home"%string :: ["B"]%string)
  = ((["A1"; EmptyString; "7"]%string ≫= fun _ =>
        [Console.Prompt "v: ";
         Console.Print "<<<<===== INVALID INPUT! ENTER ONLY STRING =====>>>>"])
     ++ [Console.Prompt "v: "],
     Console.Returns "Home"%string ["B"]%string).
Proof.
  apply (safe_str_first_valid (T := Console.ascii_text) "v: "
           ["A1"; EmptyString; "7"]%string "Home" ["B"]%string).
  - repeat constructor.
  - reflexivity.
Defined.

(** ** What a computation on the console leaves and returns *)

Section io_spec_rules.
Context (Q : Console.event -> Prop) (E : Console.stop -> Prop) (U : Prop).

Lemma io_spec_ret {A : Type} (P : A -> Prop) a : P a -> io_spec Q E U P (mret a).
Proof. intros Ha lines. split; [constructor | done]. Qed.

Lemma io_spec_mono {A : Type} (P P' : A -> Prop) p :
  (forall a, P a -> P' a) -> io_spec Q E U P p -> io_spec Q E U P' p.
Proof.
  intros HP Hp lines. destruct (Hp lines) as [Hout Ho]. split; [done|].
  destruct (p lines).2; auto.
Qed.

Lemma io_spec_bind {A B : Type} (P : A -> Prop) (R : B -> Prop) p (k : A -> Console.io B) :
  io_spec Q E U P p ->
  (forall a, P a -> io_spec Q E U R (k a)) ->
  io_spec Q E U R (p ≫= k).
Proof.
  intros Hp Hk lines. rewrite io_bind_eq. destruct (Hp lines) as [Hout Ho].
  destruct (p lines).2 as [a rest|e|]; simpl; [|done..].
  destruct (Hk a Ho rest) as [Hout' Ho']. split; [by apply Forall_app|done].
Qed.

Lemma io_spec_emit (P : unit -> Prop) e : Q e -> P tt -> io_spec Q E U P (Console.emit e).
Proof. intros He HP lines. split; [by repeat constructor | done]. Qed.

Lemma io_spec_of_result {A : Type} (P : A -> Prop) (r : result A) :
  match r with Ok a => P a | Raise e => E (Console.Exception e) end ->
  io_spec Q E U P (Console.of_result r).
Proof. intros Hr lines. destruct r; (split; [constructor | done]). Qed.

Lemma io_spec_unfinished {A : Type} (P : A -> Prop) :
  U -> io_spec Q E U P Console.unfinished.
Proof. intros HU lines. split; [constructor | done]. Qed.

Lemma io_spec_read_line (P : string -> Prop) :
  E Console.EOFError -> (forall line, P line) -> io_spec Q E U P Console.read_line.
Proof. intros HE HP [|line lines]; (split; [simpl; constructor | simpl; auto]). Qed.

Lemma io_spec_input (P : string -> Prop) msg :
  Q (Console.Prompt msg) -> E Console.EOFError -> (forall line, P line) ->
  io_spec Q E U P (Console.input msg).
Proof.
  intros HQ HE HP. apply (io_spec_bind (fun _ => True)); [by apply io_spec_emit|].
  intros _ _. by apply io_spec_read_line.
Qed.

Lemma io_spec_foldIO {A B : Type} (I : B -> Prop) (f : B -> A -> Console.io B) l b :
  I b ->
  (forall b a, a ∈ l -> I b -> io_spec Q E U I (f b a)) ->
  io_spec Q E U I (Console.foldIO f l b).
Proof.
  revert b. induction l as [|a l IH]; intros b Hb Hf; simpl.
  - by apply io_spec_ret.
  - apply (io_spec_bind I); [apply Hf; [left | done]|].
    intros b' Hb'. apply IH; [done|]. intros b'' a' Ha'. apply Hf. by right.
Qed.

Lemma io_spec_for {A : Type} (l : list A) (body : A -> Console.io unit) :
  (forall a, a ∈ l -> io_spec Q E U (fun _ => True) (body a)) ->
  io_spec Q E U (fun _ => True) (Console.for_ l body).
Proof. intros Hb. apply (io_spec_foldIO (fun _ => True)); [done|]. intros _ a Ha _. by apply Hb. Qed.

Lemma io_spec_while_true {S A : Type} (I : S -> Prop) (R : A -> Prop)
    (body : S -> Console.io (S + A)) s :
  (forall s, advances 1 (body s)) ->
  (forall s, I s ->
     io_spec Q E U (fun r => match r with inl s' => I s' | inr a => R a end) (body s)) ->
  I s ->
  io_spec Q E U R (Console.while_true body s).
Proof.
  intros Hadv Hbody Hs lines. remember (length lines) as n eqn:Hn.
  revert s Hs lines Hn. induction (lt_wf n) as [n _ IH]. intros s Hs lines ->.
  rewrite while_true_unfold by done. rewrite io_bind_eq.
  destruct (Hbody s Hs lines) as [Hout Ho].
  destruct (body s lines) as [out [[s'|a] rest|e|]] eqn:Hb; simpl in *.
  2:{ rewrite app_nil_r. by split. }
  2-3: by split.
  pose proof (Hadv _ _ _ _ _ Hb) as Hlen.
  destruct (IH (length rest) ltac:(lia) s' Ho rest eq_refl) as [Hout' Ho'].
  split; [by apply Forall_app | done].
Qed.

End io_spec_rules.

(** ** The functions of the console, one by one *)

Section console_specs.
Context {T : Console.text_ops}.
Context (Q : Console.event -> Prop) (E : Console.stop -> Prop) (U : Prop).
Context (Hq : quiet Q) (HE : E Console.EOFError).

Lemma io_spec_print (P : unit -> Prop) text :
  P tt -> io_spec Q E U P (Console.print text).
Proof. intros HP. apply io_spec_emit; [by apply Hq | done]. Qed.

Lemma io_spec_print_noend (P : unit -> Prop) text :
  P tt -> io_spec Q E U P (Console.print_noend text).
Proof. intros HP. apply io_spec_emit; [by apply Hq | done]. Qed.

Lemma safe_int_spec (P : Z -> Prop) msg :
  (forall s, Console.isdigit s = true ->
     match Console.int s with Ok n => P n | Raise e => E (Console.Exception e) end) ->
  io_spec Q E U P (Console.safe_int msg).
Proof.
  intros Hint. unfold Console.safe_int.
  apply (io_spec_while_true Q E U (fun _ => True) P);
    [apply safe_int_body_advances | | done].
  intros _ _. apply (io_spec_bind Q E U (fun _ => True)).
  { apply io_spec_input; [by apply Hq | done..]. }
  intros val _. destruct (Console.isdigit val) eqn:Hval.
  - apply (io_spec_bind Q E U P); [by apply io_spec_of_result, Hint|].
    intros n Hn. by apply io_spec_ret.
  - apply (io_spec_bind Q E U (fun _ => True)); [by apply io_spec_print|].
    intros _ _. by apply io_spec_ret.
Qed.

Lemma safe_str_spec (P : string -> Prop) msg :
  (forall s, Console.isalpha s = true -> P s) ->
  io_spec Q E U P (Console.safe_str msg).
Proof.
  intros Hstr. unfold Console.safe_str.
  apply (io_spec_while_true Q E U (fun _ => True) P);
    [apply safe_str_body_advances | | done].
  intros _ _. apply (io_spec_bind Q E U (fun _ => True)).
  { apply io_spec_input; [by apply Hq | done..]. }
  intros val _. destruct (Console.isalpha val) eqn:Hval.
  - apply io_spec_ret. by apply Hstr.
  - apply (io_spec_bind Q E U (fun _ => True)); [by apply io_spec_print|].
    intros _ _. by apply io_spec_ret.
Qed.

Lemma advances_edge_line vertices graph : advances 1 (Console.edge_line vertices graph).
Proof.
  unfold Console.edge_line. apply (advances_bind_l 1); [apply advances_read_line|].
  intros line.
  assert (advances 0
            (_ ← Console.print "<<<<===== INVALID FORMAT! USE: src dest weight =====>>>>";
             mret (inl graph) : Console.io (graph_t + graph_t))) as Hfmt.
  { apply (advances_bind_l 0); [apply advances_emit | intros; apply advances_ret]. }
  destruct (Console.split line) as [|u [|v [|w [|]]]]; try apply Hfmt.
  destruct (_ || _).
  { apply (advances_bind_l 0); [apply advances_emit | intros; apply advances_ret]. }
  destruct (negb _).
  { apply (advances_bind_l 0); [apply advances_emit | intros; apply advances_ret]. }
  apply (advances_bind_l 0); [apply advances_of_result|]. intros x.
  apply (advances_bind_l 0); [apply advances_of_result|]. intros adj.
  apply advances_ret.
Qed.

(** A turn of the edge loop leaves the graph as it is, or ends the loop
    with an edge set as [add_edge] sets it. *)
Lemma edge_line_spec vertices graph :
  (forall s, Console.isdigit s = true ->
     match Console.int s with
     | Ok n => 0 <= n
     | Raise e => E (Console.Exception e)
     end) ->
  built vertices graph ->
  io_spec Q E U
    (fun r => match r with
              | inl g => g = graph
              | inr g => exists u v w, u ∈ vertices /\ v ∈ vertices /\
                                       add_edge vertices graph u v w = Ok (Some g)
              end)
    (Console.edge_line vertices graph).
Proof.
  intros Hint Hb. unfold Console.edge_line.
  apply (io_spec_bind Q E U (fun _ => True)); [by apply io_spec_read_line|].
  intros line _.
  assert (io_spec Q E U
            (fun r => match r with
                      | inl g => g = graph
                      | inr g => exists u v w, u ∈ vertices /\ v ∈ vertices /\
                                   add_edge vertices graph u v w = Ok (Some g)
                      end)
            (_ ← Console.print "<<<<===== INVALID FORMAT! USE: src dest weight =====>>>>";
             mret (inl graph) : Console.io (graph_t + graph_t))) as Hfmt.
  { apply (io_spec_bind Q E U (fun _ => True)); [by apply io_spec_print|].
    intros _ _. by apply io_spec_ret. }
  destruct (Console.split line) as [|u [|v [|w [|]]]]; try apply Hfmt.
  destruct (decide (u ∈ vertices)) as [Hu|Hu].
  2:{ rewrite (bool_decide_eq_true_2 (u ∉ vertices)) by done. simpl.
      apply (io_spec_bind Q E U (fun _ => True)); [by apply io_spec_print|].
      intros _ _. by apply io_spec_ret. }
  destruct (decide (v ∈ vertices)) as [Hv|Hv].
  2:{ rewrite (bool_decide_eq_true_2 (v ∉ vertices)) by done. rewrite orb_true_r.
      apply (io_spec_bind Q E U (fun _ => True)); [by apply io_spec_print|].
      intros _ _. by apply io_spec_ret. }
  rewrite (bool_decide_eq_false_2 (u ∉ vertices)) by tauto.
  rewrite (bool_decide_eq_false_2 (v ∉ vertices)) by tauto. simpl.
  destruct (Console.isdigit w) eqn:Hw; simpl.
  2:{ apply (io_spec_bind Q E U (fun _ => True)); [by apply io_spec_print|].
      intros _ _. by apply io_spec_ret. }
  apply (io_spec_bind Q E U (fun x => 0 <= x)); [by apply io_spec_of_result, Hint|].
  intros x Hx.
  assert (is_Some (dict_get graph u)) as [adj Hadj].
  { apply dict_get_is_Some. by apply (built_keys _ _ Hb). }
  rewrite (getitem_Some _ _ _ Hadj).
  apply (io_spec_bind Q E U (fun a => a = adj)); [by apply io_spec_of_result|].
  intros ? ->. apply io_spec_ret. exists u, v, (Z.to_N x).
  split; [done|]. split; [done|]. unfold add_edge.
  rewrite (bool_decide_eq_false_2 (u ∉ vertices)) by tauto.
  rewrite (bool_decide_eq_false_2 (v ∉ vertices)) by tauto. simpl.
  rewrite (getitem_Some _ _ _ Hadj), bind_Ok. by rewrite Z2N.id.
Qed.

Lemma read_edges_snoc vertices graph0 edges graph u v w graph' :
  read_edges vertices graph0 edges = Ok graph ->
  add_edge vertices graph u v w = Ok (Some graph') ->
  read_edges vertices graph0 (edges ++ [(u, v, w)]) = Ok graph'.
Proof.
  unfold read_edges. intros H1 H2. rewrite foldM_app, H1, bind_Ok, foldM_singleton.
  by rewrite H2.
Qed.

Lemma read_edges_Ok_built vertices edges graph :
  read_edges vertices (empty_graph vertices) edges = Ok graph -> built vertices graph.
Proof.
  intros H. destruct (read_edges_built vertices (empty_graph vertices) edges)
    as (g & Hg & Hb); [apply built_empty_graph|]. congruence.
Qed.

(** [input_graph] on the console returns what [input_graph] on the labels
    and edges accepted returns. *)
Lemma input_graph_spec :
  (forall s, Console.isdigit s = true ->
     match Console.int s with
     | Ok n => 0 <= n
     | Raise e => E (Console.Exception e)
     end) ->
  io_spec Q E U
    (fun gv => Forall (fun v => Console.isalpha v = true) gv.2 /\
               exists edges,
                 Forall (fun '(u, v, _) => u ∈ gv.2 /\ v ∈ gv.2) edges /\
                 input_graph gv.2 edges = Ok gv)
    Console.input_graph.
Proof.
  intros Hint. unfold Console.input_graph.
  assert (forall s, Console.isdigit s = true ->
            match Console.int s with
            | Ok n => True
            | Raise e => E (Console.Exception e)
            end) as Hint'.
  { intros s Hs. specialize (Hint s Hs). by destruct (Console.int s). }
  apply (io_spec_bind Q E U (fun _ => True)); [by apply io_spec_print|]. intros _ _.
  apply (io_spec_bind Q E U (fun _ => True)); [by apply safe_int_spec|]. intros n _.
  apply (io_spec_bind Q E U (fun _ => True)); [by apply io_spec_print|]. intros _ _.
  apply (io_spec_bind Q E U (Forall (fun v => Console.isalpha v = true))).
  { apply io_spec_foldIO; [constructor|]. intros vertices i _ Hvs.
    apply (io_spec_bind Q E U (fun v => Console.isalpha v = true));
      [by apply safe_str_spec|].
    intros label Hl. apply io_spec_ret. unfold add_vertex.
    apply Forall_app. split; [done | by constructor]. }
  intros vertices Hvs. cbv zeta.
  apply (io_spec_bind Q E U (fun _ => True)); [by apply safe_int_spec|]. intros e _.
  apply (io_spec_bind Q E U (fun _ => True)); [by apply io_spec_print|]. intros _ _.
  apply (io_spec_bind Q E U
           (fun graph => exists edges,
              Forall (fun '(u, v, _) => u ∈ vertices /\ v ∈ vertices) edges /\
              read_edges vertices (empty_graph vertices) edges = Ok graph)).
  { apply io_spec_foldIO; [by exists [] |]. intros graph _ _ (edges & Hall & Hedges).
    apply (io_spec_while_true Q E U (fun g => g = graph));
      [apply advances_edge_line | | done].
    intros ? ->. eapply io_spec_mono; [|apply edge_line_spec; [done|]].
    - intros [g|g]; [done|]. intros (u & v & w & Hu & Hv & Hadd).
      exists (edges ++ [(u, v, w)]). split.
      + apply Forall_app. split; [done|]. by constructor.
      + by eapply read_edges_snoc.
    - by eapply read_edges_Ok_built. }
  intros graph (edges & Hall & Hedges). apply io_spec_ret. simpl.
  split; [done|]. exists edges. split; [done|].
  unfold input_graph. rewrite read_vertices_eq. by rewrite Hedges.
Qed.

End console_specs.

Lemma floyd_warshall_shapes graph vertices dist all_matrices :
  floyd_warshall graph vertices = Ok (dist, all_matrices) ->
  square (length vertices) dist /\
  Forall (square (length vertices)) all_matrices /\
  length all_matrices = S (length vertices).
Proof.
  intros Hfw.
  destruct (floyd_warshall_snapshots _ _ _ _ Hfw) as (Hlen & Hlast & _).
  assert (forall k a, all_matrices !! k = Some a -> square (length vertices) a) as Hsq.
  { apply (floyd_warshall_invariant _ graph vertices dist all_matrices);
      [apply initial_matrix_square | | done].
    intros k i j d d' Hd Hrel. by eapply relax_cell_square. }
  split; [by eapply Hsq|]. split; [|done].
  apply Forall_lookup. intros k a. apply Hsq.
Qed.

Lemma main_graph_total graph : exists G, Console.main_graph graph = Ok G.
Proof.
  unfold Console.main_graph.
  destruct (foldM_total (fun _ => True)
              (fun G u =>
                 adj ← getitem graph u;
                 foldM (fun G v =>
                          adj' ← getitem graph u;
                          w ← getitem adj' v;
                          Ok (Console.nx_add_edge G u v w)) (dict_keys adj) G)
              (dict_keys graph) []) as (G & HG & _); [|done|by exists G].
  intros G u [adj Hadj]%dict_get_is_Some _. cbv beta.
  rewrite (getitem_Some _ _ _ Hadj), bind_Ok.
  apply foldM_total; [|done].
  intros G' v [w Hw]%dict_get_is_Some _. cbv beta.
  rewrite bind_Ok, (getitem_Some _ _ _ Hw), bind_Ok. eauto.
Qed.

Lemma final_graph_total distances source :
  exists G, Console.final_graph distances (Some source) = Ok G.
Proof.
  unfold Console.final_graph.
  destruct (foldM_total (fun _ => True)
              (fun G '(node, cost) =>
                 if bool_decide (Some node ≠ Some source) && bool_decide (cost ≠ maxsize)
                 then Ok (Console.nx_add_edge G source node cost)
                 else Ok G)
              distances []) as (G & HG & _); [|done|by exists G].
  intros G [node cost] _ _. destruct (_ && _); eauto.
Qed.

Section display_specs.
Context {T : Console.text_ops}.
Context (Q : Console.event -> Prop) (E : Console.stop -> Prop) (U : Prop).
Context (Hq : quiet Q) (HE : E Console.EOFError).

Lemma display_dijkstra_spec distances source :
  io_spec Q E U (fun _ => True) (Console.display_dijkstra distances source).
Proof.
  unfold Console.display_dijkstra.
  apply (io_spec_bind Q E U (fun _ => True)); [by apply io_spec_print|]. intros _ _.
  apply (io_spec_bind Q E U (fun _ => True)); [by apply io_spec_print|]. intros _ _.
  apply io_spec_for. intros v [d Hd]%dict_get_is_Some.
  rewrite (getitem_Some _ _ _ Hd).
  apply (io_spec_bind Q E U (fun _ => True)); [by apply io_spec_of_result|].
  intros x _. by apply io_spec_print.
Qed.

Lemma print_matrix_spec vertices matrix :
  square (length vertices) matrix ->
  io_spec Q E U (fun _ => True) (Console.print_matrix vertices matrix).
Proof.
  intros Hsq. unfold Console.print_matrix.
  apply (io_spec_bind Q E U (fun _ => True)); [by apply io_spec_print_noend|]. intros _ _.
  apply (io_spec_bind Q E U (fun _ => True)).
  { apply io_spec_for. intros v _. by apply io_spec_print_noend. }
  intros _ _.
  apply (io_spec_bind Q E U (fun _ => True)); [by apply io_spec_print|]. intros _ _.
  apply io_spec_for. intros i Hi%elem_of_seq.
  destruct (lookup_lt_is_Some_2 vertices i) as [vi Hvi]; [lia|].
  rewrite (list_getitem_Some _ _ _ Hvi).
  apply (io_spec_bind Q E U (fun _ => True)); [by apply io_spec_of_result|]. intros vi' _.
  apply (io_spec_bind Q E U (fun _ => True)); [by apply io_spec_print_noend|]. intros _ _.
  apply (io_spec_bind Q E U (fun _ => True)); [|intros _ _; by apply io_spec_print].
  apply io_spec_for. intros j Hj%elem_of_seq.
  rewrite (get_cell_cell (length vertices)) by (done || lia).
  apply (io_spec_bind Q E U (fun _ => True)); [by apply io_spec_of_result|]. intros x _.
  case_decide; by apply io_spec_print_noend.
Qed.

Lemma display_floyd_spec dist vertices all_matrices :
  square (length vertices) dist ->
  Forall (square (length vertices)) all_matrices ->
  (length all_matrices <= S (length vertices))%nat ->
  io_spec Q E U (fun _ => True) (Console.display_floyd dist vertices all_matrices).
Proof.
  intros Hsq Hall Hlen. unfold Console.display_floyd.
  apply (io_spec_bind Q E U (fun _ => True)); [by apply io_spec_print|]. intros _ _.
  apply (io_spec_bind Q E U (fun _ => True)).
  { apply io_spec_for. intros [idx matrix] Hin.
    apply elem_of_zip_l in Hin as Hidx. apply elem_of_zip_r in Hin as Hm.
    apply elem_of_seq in Hidx.
    apply (io_spec_bind Q E U (fun _ => True)).
    - case_decide; [by apply io_spec_print|].
      destruct (lookup_lt_is_Some_2 vertices (idx - 1)) as [v Hv]; [lia|].
      rewrite (list_getitem_Some _ _ _ Hv).
      apply (io_spec_bind Q E U (fun _ => True)); [by apply io_spec_of_result|].
      intros x _. by apply io_spec_print.
    - intros _ _. apply print_matrix_spec. by eapply Forall_forall. }
  intros _ _.
  apply (io_spec_bind Q E U (fun _ => True)); [by apply io_spec_print|]. intros _ _.
  apply (io_spec_bind Q E U (fun _ => True)); [by apply io_spec_print|]. intros _ _.
  by apply print_matrix_spec.
Qed.

Lemma draw_main_graph_spec graph :
  (forall G, Console.main_graph graph = Ok G ->
             Q (Console.Show "Main Graph (Original User Input)" G)) ->
  io_spec Q E U (fun _ => True) (Console.draw_main_graph graph).
Proof.
  intros HQ. unfold Console.draw_main_graph.
  apply (io_spec_bind Q E U (fun _ => True)); [by apply io_spec_print|]. intros _ _.
  destruct (main_graph_total graph) as [G HG]. rewrite HG.
  apply (io_spec_bind Q E U (fun G' => G' = G)); [by apply io_spec_of_result|].
  intros ? ->. apply io_spec_emit; [by apply HQ | done].
Qed.

Lemma draw_final_graph_spec distances source :
  (forall G, Console.final_graph distances (Some source) = Ok G ->
             Q (Console.Show "Final Graph After Shortest Path (Dijkstra Result)" G)) ->
  io_spec Q E U (fun _ => True) (Console.draw_final_graph distances (Some source)).
Proof.
  intros HQ. unfold Console.draw_final_graph.
  apply (io_spec_bind Q E U (fun _ => True)); [by apply io_spec_print|]. intros _ _.
  destruct (final_graph_total distances source) as [G HG]. rewrite HG.
  apply (io_spec_bind Q E U (fun G' => G' = G)); [by apply io_spec_of_result|].
  intros ? ->. apply io_spec_emit; [by apply HQ | done].
Qed.

End display_specs.

(** ** The menu *)

Lemma advances_unfinished {A : Type} d : advances d (Console.unfinished (A := A)).
Proof. intros lines out a rest. discriminate. Qed.

Ltac advances0_with tac :=
  repeat (intros;
          first [ tac |
          match goal with
          | |- advances 0 (mret _) => apply advances_ret
          | |- advances 0 (Console.emit _) => apply advances_emit
          | |- advances 0 (Console.print _) => apply advances_emit
          | |- advances 0 (Console.print_noend _) => apply advances_emit
          | |- advances 0 (Console.of_result _) => apply advances_of_result
          | |- advances 0 Console.unfinished => apply advances_unfinished
          | |- advances 0 (Console.for_ _ _) => apply advances_for
          | |- advances 0 (_ ≫= _) => apply (advances_bind_l 0)
          | |- advances 0 (if ?b then _ else _) => destruct b
          | |- advances 0 (match ?x with _ => _ end) => destruct x
          end ]).

Ltac advances0 := advances0_with fail.

Section menu_specs.
Context {T : Console.text_ops}.

Lemma advances_display_dijkstra distances source :
  advances 0 (Console.display_dijkstra distances source).
Proof. unfold Console.display_dijkstra. advances0. Qed.

Lemma advances_print_matrix vertices matrix :
  advances 0 (Console.print_matrix vertices matrix).
Proof. unfold Console.print_matrix. advances0. Qed.

Lemma advances_display_floyd dist vertices all_matrices :
  advances 0 (Console.display_floyd dist vertices all_matrices).
Proof.
  unfold Console.display_floyd.
  advances0_with ltac:(apply advances_print_matrix).
Qed.

Lemma advances_draw_main_graph graph : advances 0 (Console.draw_main_graph graph).
Proof. unfold Console.draw_main_graph. advances0. Qed.

Lemma advances_draw_final_graph distances source :
  advances 0 (Console.draw_final_graph distances source).
Proof. unfold Console.draw_final_graph. advances0. Qed.

Lemma advances_menu graph vertices last :
  advances 1 (Console.menu graph vertices last).
Proof.
  unfold Console.menu.
  do 6 (apply (advances_bind_r 1); [apply advances_emit | intros _]).
  apply (advances_bind_l 1); [apply advances_safe_int|]. intros choice.
  repeat case_decide.
  - apply (advances_bind_l 0);
      [eapply advances_le; [|apply advances_safe_str]; lia|].
    intros source. destruct (single_source_query graph vertices source) as [|[r|]];
      advances0_with ltac:(apply advances_display_dijkstra).
  - advances0_with ltac:(apply advances_display_floyd).
  - advances0_with ltac:(apply advances_draw_main_graph).
  - advances0_with ltac:(apply advances_draw_final_graph).
  - advances0.
  - advances0.
Qed.

Context (Q : Console.event -> Prop) (E : Console.stop -> Prop) (U : Prop).
Context (Hq : quiet Q) (HE : E Console.EOFError).
Context (graph : graph_t) (vertices : list string).
Context (I : option (dict Z) * option string -> Prop).

Lemma menu_spec :
  (forall s, Console.isdigit s = true ->
     match Console.int s with
     | Ok _ => True
     | Raise e => E (Console.Exception e)
     end) ->
  (forall source, source ∈ vertices ->
     match dijkstra graph source with
     | Some (Ok d) => I (Some d, Some source)
     | Some (Raise e) => E (Console.Exception e)
     | None => U
     end) ->
  match floyd_warshall graph vertices with
  | Ok _ => True
  | Raise e => E (Console.Exception e)
  end ->
  (forall G, Console.main_graph graph = Ok G ->
             Q (Console.Show "Main Graph (Original User Input)" G)) ->
  (forall d s, I (Some d, s) ->
     exists source, s = Some source /\
       forall G, Console.final_graph d (Some source) = Ok G ->
         Q (Console.Show "Final Graph After Shortest Path (Dijkstra Result)" G)) ->
  forall last, I last ->
    io_spec Q E U (fun r => match r with inl last' => I last' | inr _ => True end)
      (Console.menu graph vertices last).
Proof.
  intros Hint Hdij Hfw Hmain Hfinal last Hlast. unfold Console.menu.
  do 6 (apply (io_spec_bind Q E U (fun _ => True)); [by apply io_spec_print | intros _ _]).
  apply (io_spec_bind Q E U (fun _ => True)); [by apply safe_int_spec|]. intros choice _.
  repeat case_decide.
  - apply (io_spec_bind Q E U (fun _ => True)); [by apply safe_str_spec|].
    intros source _. unfold single_source_query. case_bool_decide as Hsrc.
    + specialize (Hdij source Hsrc). destruct (dijkstra graph source) as [[d|e]|].
      * apply (io_spec_bind Q E U (fun d' => d' = d)); [by apply io_spec_of_result|].
        intros ? ->.
        apply (io_spec_bind Q E U (fun _ => True)); [by apply display_dijkstra_spec|].
        intros _ _. by apply io_spec_ret.
      * apply (io_spec_bind Q E U (fun _ => False)); [by apply io_spec_of_result|].
        by intros ? [].
      * by apply io_spec_unfinished.
    + apply (io_spec_bind Q E U (fun _ => True)); [by apply io_spec_print|].
      intros _ _. by apply io_spec_ret.
  - destruct (floyd_warshall graph vertices) as [[dist all_matrices]|e] eqn:Hrun.
    + apply (io_spec_bind Q E U (fun r => r = (dist, all_matrices)));
        [by apply io_spec_of_result|].
      intros ? ->. destruct (floyd_warshall_shapes _ _ _ _ Hrun) as (Hsq & Hall & Hlen).
      apply (io_spec_bind Q E U (fun _ => True)).
      { apply display_floyd_spec; [done..|lia]. }
      intros _ _. by apply io_spec_ret.
    + apply (io_spec_bind Q E U (fun _ => False)); [by apply io_spec_of_result|].
      by intros ? [].
  - apply (io_spec_bind Q E U (fun _ => True)); [by apply draw_main_graph_spec|].
    intros _ _. by apply io_spec_ret.
  - destruct last as [[d|] s]; simpl.
    + destruct (Hfinal d s Hlast) as (source & -> & HG).
      apply (io_spec_bind Q E U (fun _ => True)); [by apply draw_final_graph_spec|].
      intros _ _. by apply io_spec_ret.
    + apply (io_spec_bind Q E U (fun _ => True)); [by apply io_spec_print|].
      intros _ _. by apply io_spec_ret.
  - apply (io_spec_bind Q E U (fun _ => True)); [by apply io_spec_print|].
    intros _ _. by apply io_spec_ret.
  - apply (io_spec_bind Q E U (fun _ => True)); [by apply io_spec_print|].
    intros _ _. by apply io_spec_ret.
Qed.

End menu_specs.

(** ** The whole run *)

Section quiet_input.
Context {T : Console.text_ops}.
Context (Q : Console.event -> Prop) (Hq : quiet Q).

Lemma edge_line_quiet vertices graph :
  io_spec Q (fun _ => True) True (fun _ => True) (Console.edge_line vertices graph).
Proof.
  unfold Console.edge_line.
  apply (io_spec_bind _ _ _ (fun _ => True)); [by apply io_spec_read_line|].
  intros line _.
  assert (forall text,
            io_spec Q (fun _ => True) True (fun _ => True)
              (_ ← Console.print text; mret (inl graph) : Console.io (graph_t + graph_t)))
    as Hmsg.
  { intros text. apply (io_spec_bind _ _ _ (fun _ => True)); [by apply io_spec_print|].
    intros _ _. by apply io_spec_ret. }
  destruct (Console.split line) as [|u [|v [|w [|]]]]; try apply Hmsg.
  destruct (_ || _); [apply Hmsg|]. destruct (negb _); [apply Hmsg|].
  apply (io_spec_bind _ _ _ (fun _ => True)).
  { apply io_spec_of_result. by destruct (Console.int w). }
  intros x _. apply (io_spec_bind _ _ _ (fun _ => True)).
  { apply io_spec_of_result. by destruct (getitem graph u). }
  intros adj _. by apply io_spec_ret.
Qed.

Lemma input_graph_quiet :
  io_spec Q (fun _ => True) True (fun _ => True) Console.input_graph.
Proof.
  unfold Console.input_graph.
  assert (forall msg, io_spec Q (fun _ => True) True (fun _ => True) (Console.safe_int msg))
    as Hint.
  { intros msg. apply safe_int_spec; [done..|]. intros s _. by destruct (Console.int s). }
  apply (io_spec_bind _ _ _ (fun _ => True)); [by apply io_spec_print|]. intros _ _.
  apply (io_spec_bind _ _ _ (fun _ => True)); [apply Hint|]. intros n _.
  apply (io_spec_bind _ _ _ (fun _ => True)); [by apply io_spec_print|]. intros _ _.
  apply (io_spec_bind _ _ _ (fun _ => True)).
  { apply io_spec_foldIO; [done|]. intros vertices i _ _.
    apply (io_spec_bind _ _ _ (fun _ => True)); [by apply safe_str_spec|].
    intros label _. by apply io_spec_ret. }
  intros vertices _. cbv zeta.
  apply (io_spec_bind _ _ _ (fun _ => True)); [apply Hint|]. intros e _.
  apply (io_spec_bind _ _ _ (fun _ => True)); [by apply io_spec_print|]. intros _ _.
  apply (io_spec_bind _ _ _ (fun _ => True)); [|intros; by apply io_spec_ret].
  apply io_spec_foldIO; [done|]. intros graph _ _ _.
  apply (io_spec_while_true _ _ _ (fun _ => True));
    [apply advances_edge_line | | done].
  intros g _. eapply io_spec_mono; [|apply edge_line_quiet]. by intros [?|?].
Qed.

End quiet_input.




Lemma ascii_digits_parse : digits_parse Console.ascii_text.
Proof.
  intros s Hs. simpl in *. unfold Console.ascii_int. rewrite Hs.
  assert (forall l acc, forallb Console.ascii_digit l = true -> 0 <= acc ->
            0 <= fold_left (fun n c => 10 * n + (Z.of_N (Ascii.N_of_ascii c) - 48)) l acc)
    as Hfold.
  { induction l as [|c l IH]; intros acc Hl Hacc; simpl in *; [done|].
    apply andb_true_iff in Hl as [Hc Hl]. apply IH; [done|].
    unfold Console.ascii_digit in Hc. apply andb_true_iff in Hc as [Hc _].
    apply N.leb_le in Hc. lia. }
  eexists (Z.to_N _). rewrite Z2N.id; [done|]. apply Hfold; [|done].
  unfold Console.ascii_isdigit in Hs. by destruct s.
Qed.




(** ** The edges of the graph read *)

Lemma add_edge_edge vertices graph x y w r u v c :
  built vertices graph ->
  add_edge vertices graph x y w = Ok r ->
  edge (default graph r) u v c <->
  if decide (u = x /\ v = y /\ x ∈ vertices /\ y ∈ vertices) then c = Z.of_N w
  else edge graph u v c.
Proof.
  intros Hb. unfold add_edge.
  destruct (decide (x ∈ vertices)) as [Hx|Hx].
  2:{ rewrite (bool_decide_eq_true_2 (x ∉ vertices)) by done. simpl. intros [= <-].
      rewrite decide_False by tauto. done. }
  destruct (decide (y ∈ vertices)) as [Hy|Hy].
  2:{ rewrite (bool_decide_eq_true_2 (y ∉ vertices)) by done. rewrite orb_true_r.
      intros [= <-]. rewrite decide_False by tauto. done. }
  rewrite (bool_decide_eq_false_2 (x ∉ vertices)) by tauto.
  rewrite (bool_decide_eq_false_2 (y ∉ vertices)) by tauto. simpl.
  assert (is_Some (dict_get graph x)) as [adj Hadj].
  { apply dict_get_is_Some. by apply (built_keys _ _ Hb). }
  rewrite (getitem_Some _ _ _ Hadj), bind_Ok. intros [= <-]. simpl.
  unfold edge. setoid_rewrite dict_get_set.
  destruct (decide (u = x)) as [->|Hux].
  - rewrite (decide_True (P := x = x)) by done.
    destruct (decide (v = y)) as [->|Hvy].
    + rewrite decide_True by done. split.
      * intros (adj' & [= <-] & Hc). rewrite dict_get_set_eq in Hc. congruence.
      * intros ->. eexists. split; [done|]. apply dict_get_set_eq.
    + rewrite decide_False by tauto. split.
      * intros (adj' & [= <-] & Hc). rewrite dict_get_set_ne in Hc by done. eauto.
      * intros (adj' & Hadj' & Hc). eexists. split; [done|].
        rewrite dict_get_set_ne by done. congruence.
  - rewrite (decide_False (P := x = u)) by done. rewrite decide_False by tauto. done.
Qed.

Lemma empty_graph_no_edge vertices u v c : ~ edge (empty_graph vertices) u v c.
Proof.
  intros (adj & Hadj & Hc). unfold empty_graph in Hadj.
  rewrite dict_get_comp_any in Hadj. case_decide; [|done]. by injection Hadj as <-.
Qed.

Lemma read_edges_edges vertices lines graph u v c :
  read_edges vertices (empty_graph vertices) lines = Ok graph ->
  edge graph u v c <->
  exists before w after,
    lines = before ++ (u, v, w) :: after /\ c = Z.of_N w /\
    u ∈ vertices /\ v ∈ vertices /\ forall w', (u, v, w') ∉ after.
Proof.
  revert graph. induction lines as [|[[x y] w] lines IH] using rev_ind; intros graph.
  - intros [= <-]. split; [by intros ?%empty_graph_no_edge|].
    intros (before & w & after & Heq & _). by destruct before.
  - unfold read_edges. rewrite foldM_app.
    intros (g1 & Hg1 & Hlast)%bind_Ok_inv. rewrite foldM_singleton in Hlast.
    apply bind_Ok_inv in Hlast as (r & Hadd & [= <-]).
    pose proof (read_edges_Ok_built _ _ _ Hg1) as Hb.
    rewrite (add_edge_edge _ _ _ _ _ _ u v c Hb Hadd). case_decide as Hcase.
    + destruct Hcase as (-> & -> & Hx & Hy). split.
      * intros ->. exists lines, w, []. repeat split; try done. intros w' Hin. inversion Hin.
      * intros (before & w1 & after & Heq & -> & _ & _ & Hno).
        destruct after as [|a after _] using rev_ind.
        -- apply app_inj_tail in Heq as [_ [= ->]]. done.
        -- rewrite app_comm_cons, app_assoc in Heq.
           apply app_inj_tail in Heq as [_ <-].
           exfalso. apply (Hno w). apply elem_of_app. right. left.
    + rewrite (IH g1 Hg1). split.
      * intros (before & w1 & after & -> & -> & Hu & Hv & Hno).
        exists before, w1, (after ++ [(x, y, w)]). rewrite <- app_assoc. simpl.
        repeat split; try done.
        intros w' [Hin|Hin%list_elem_of_singleton]%elem_of_app; [by eapply Hno|].
        injection Hin as -> -> ->. tauto.
      * intros (before & w1 & after & Heq & -> & Hu & Hv & Hno).
        destruct after as [|a after _] using rev_ind.
        -- apply app_inj_tail in Heq as [_ [= -> -> ->]]. tauto.
        -- rewrite app_comm_cons, app_assoc in Heq.
           apply app_inj_tail in Heq as [-> <-].
           exists before, w1, after. repeat split; try done.
           intros w' Hin. apply (Hno w'). apply elem_of_app. by left.
Qed.

(** X13.  The graph that [input_graph] returns has an edge from [u] to
    [v] exactly when some line names them in this order and both are
    labels read, and its weight is that of the last such line: a later
    line for the same pair overwrites the weight, a line naming an unknown
    label adds nothing, and no line gives an edge in the other
    direction. *)
Theorem input_graph_edges labels lines graph vertices u v c :
  input_graph labels lines = Ok (graph, vertices) ->
  edge graph u v c <->
  exists before w after,
    lines = before ++ (u, v, w) :: after /\ c = Z.of_N w /\
    u ∈ labels /\ v ∈ labels /\ forall w', (u, v, w') ∉ after.
Proof.
  unfold input_graph. rewrite read_vertices_eq.
  intros (g & Hg & [= <- <-])%bind_Ok_inv. by apply read_edges_edges.
Qed.

Lemma input_graph_edges_witness :
  edge [("A", [("B", 9)]); ("B", [])]%string "A" "B" 9 <->
  exists before w after,
    [("A", "B", 4%N); ("B", "C", 2%N); ("A", "B", 9%N)]%string
    = before ++ ("A", "B", w)%string :: after /\ 9 = Z.of_N w /\
    "A"%string ∈ ["A"; "B"]%string /\ "B"%string ∈ ["A"; "B"]%string /\
    forall w', ("A", "B", w')%string ∉ after.
Proof.
  apply (input_graph_edges ["A"; "B"]%string
           [("A", "B", 4%N); ("B", "C", 2%N); ("A", "B", 9%N)]%string
           [("A", [("B", 9)]); ("B", [])]%string ["A"; "B"]%string).
  vm_compute. reflexivity.
Defined.

(** ** The graphs drawn *)

Lemma nx_add_node_keys G k x :
  x ∈ dict_keys (Console.nx_add_node G k) <-> x = k \/ x ∈ dict_keys G.
Proof.
  unfold Console.nx_add_node. case_bool_decide as Hk.
  - split; [by right | by intros [-> |?]].
  - rewrite dict_keys_set_absent by done. rewrite elem_of_app, list_elem_of_singleton. tauto.
Qed.

Lemma nx_add_node_edge G k u v c :
  edge (Console.nx_add_node G k) u v c <-> edge G u v c.
Proof.
  unfold Console.nx_add_node. case_bool_decide as Hk; [done|].
  unfold edge. setoid_rewrite dict_get_set. destruct (decide (k = u)) as [-> |Hne]; [|done].
  apply dict_get_None in Hk. rewrite Hk. split.
  - by intros (adj & [= <-] & Hc).
  - by intros (adj & Hadj & _).
Qed.

Lemma nx_add_edge_keys G x y w k :
  k ∈ dict_keys (Console.nx_add_edge G x y w) <-> k = x \/ k = y \/ k ∈ dict_keys G.
Proof.
  unfold Console.nx_add_edge. cbv zeta.
  rewrite dict_keys_set_present.
  - rewrite !nx_add_node_keys. tauto.
  - rewrite !nx_add_node_keys. tauto.
Qed.

Lemma nx_add_edge_edge G x y w u v c :
  edge (Console.nx_add_edge G x y w) u v c <->
  if decide (u = x /\ v = y) then c = w else edge G u v c.
Proof.
  unfold Console.nx_add_edge. cbv zeta.
  set (G2 := Console.nx_add_node (Console.nx_add_node G x) y).
  assert (forall u v c, edge G2 u v c <-> edge G u v c) as HG2.
  { intros u' v' c'. unfold G2. by rewrite !nx_add_node_edge. }
  assert (is_Some (dict_get G2 x)) as [adj Hadj].
  { apply dict_get_is_Some. unfold G2. rewrite !nx_add_node_keys. tauto. }
  rewrite Hadj. simpl. case_decide as Hcase.
  - destruct Hcase as [-> ->]. unfold edge. setoid_rewrite dict_get_set_eq. split.
    + intros (adj' & [= <-] & Hc). rewrite dict_get_set_eq in Hc. congruence.
    + intros ->. eexists. split; [done|]. apply dict_get_set_eq.
  - rewrite <- HG2. unfold edge. setoid_rewrite dict_get_set.
    destruct (decide (x = u)) as [-> |Hux]; [|done].
    assert (v ≠ y) as Hvy by tauto. split.
    + intros (adj' & [= <-] & Hc). rewrite dict_get_set_ne in Hc by done. eauto.
    + intros (adj' & Hadj' & Hc). eexists. split; [done|].
      rewrite dict_get_set_ne by done. congruence.
Qed.

Lemma drawn_add_edge graph S G x y w :
  drawn graph S G -> edge graph x y w ->
  drawn graph (fun u v => S u v \/ (u = x /\ v = y)) (Console.nx_add_edge G x y w).
Proof.
  intros [Hedges Hnodes] Hxy. split.
  - intros u v c. rewrite nx_add_edge_edge. case_decide as Hcase.
    + destruct Hcase as [-> ->]. split.
      * intros ->. split; [by right | done].
      * intros [_ (adj & Hadj & Hc)]. destruct Hxy as (adj' & Hadj' & Hw). congruence.
    + rewrite Hedges. split; [intros [? ?]; split; [by left | done]|].
      intros [[?|[? ?]] ?]; [done | tauto].
  - intros k. rewrite nx_add_edge_keys, Hnodes. split.
    + intros [-> |[-> |(u & v & c & HS & He & Hk)]].
      * exists x, y, w. split; [by right|]. split; [done | by left].
      * exists x, y, w. split; [by right|]. split; [done | by right].
      * exists u, v, c. split; [by left | done].
    + intros (u & v & c & [HS|[-> ->]] & He & Hk).
      * right. right. by exists u, v, c.
      * tauto.
Qed.

Lemma drawn_ext graph S S' G :
  (forall u v c, edge graph u v c -> (S u v <-> S' u v)) ->
  drawn graph S G -> drawn graph S' G.
Proof.
  intros HS [Hedges Hnodes]. split.
  - intros u v c. rewrite Hedges. split; intros [? He]; (split; [by apply (HS u v c) | done]).
  - intros k. rewrite Hnodes.
    split; intros (u & v & c & ? & He & Hk); exists u, v, c;
      (split; [by apply (HS u v c) | done]).
Qed.

Lemma main_graph_drawn graph G :
  Console.main_graph graph = Ok G -> drawn graph (fun _ _ => True) G.
Proof.
  unfold Console.main_graph. intros Hfold.
  apply (drawn_ext graph (fun u _ => u ∈ dict_keys graph)).
  { intros u v c (adj & Hadj & _). split; [done|]. intros _.
    apply dict_get_is_Some. eauto. }
  revert Hfold.
  apply (foldM_prefix (fun visited G => drawn graph (fun u _ => u ∈ visited) G)).
  { split.
    - intros u v c. split; [by intros (adj & ? & _) | by intros [?%elem_of_nil _]].
    - intros k. split; [by intros ?%elem_of_nil|].
      by intros (u & v & c & ?%elem_of_nil & _). }
  intros visited u G1 G2 Hu HG1. cbv beta.
  intros (adj & Hadj%getitem_Ok & Hrow)%bind_Ok_inv.
  apply (drawn_ext graph (fun u' v => u' ∈ visited \/ (u' = u /\ v ∈ dict_keys adj))).
  { intros u' v c (adj' & Hadj' & Hc). rewrite elem_of_app, list_elem_of_singleton.
    split.
    - intros [?|[Heq _]]; [by left | by right].
    - intros [?|Heq]; [by left|]. subst u'. right. split; [done|].
      apply dict_get_is_Some. replace adj with adj' by congruence. eauto. }
  revert Hrow.
  apply (foldM_prefix
           (fun vs G => drawn graph (fun u' v => u' ∈ visited \/ (u' = u /\ v ∈ vs)) G)).
  { eapply drawn_ext; [|exact HG1]. intros u' v c _.
    split; [by left | intros [?|[_ ?%elem_of_nil]]; done]. }
  intros vs v G3 G4 [w Hw]%dict_get_is_Some HG3. cbv beta.
  rewrite (getitem_Some _ _ _ Hadj), bind_Ok, (getitem_Some _ _ _ Hw), bind_Ok.
  intros [= <-].
  eapply drawn_ext; [|apply (drawn_add_edge graph _ G3 u v w HG3); by exists adj].
  intros u' v' c _. cbv beta. rewrite elem_of_app, list_elem_of_singleton.
  split; [intros [[?|[? ?]]|[? ?]]; tauto | intros [?|[? [?|?]]]; tauto].
Qed.

Lemma final_graph_fold source items G0 G :
  NoDup items.*1 ->
  foldM (fun G '(node, cost) =>
           if bool_decide (Some node ≠ Some source) && bool_decide (cost ≠ maxsize)
           then Ok (Console.nx_add_edge G source node cost)
           else Ok G) items G0 = Ok G ->
  forall u v c,
    edge G u v c <->
    (u = source /\ v ≠ source /\ c ≠ maxsize /\ (v, c) ∈ items) \/
    (edge G0 u v c /\
     forall c', u = source -> (v, c') ∈ items -> v = source \/ c' = maxsize).
Proof.
  revert G0. induction items as [|[node cost] items IH]; intros G0 Hnd.
  - intros [= <-] u v c. split.
    + intros He. right. split; [done|]. by intros c' _ ?%elem_of_nil.
    + intros [(_ & _ & _ & ?%elem_of_nil)|[? _]]; done.
  - rewrite foldM_cons. simpl in Hnd. apply NoDup_cons in Hnd as [Hnew Hnd].
    intros (G1 & HG1 & Hrest)%bind_Ok_inv u v c.
    rewrite (IH G1 Hnd Hrest u v c). clear IH Hrest.
    assert (forall c', (node, c') ∉ items) as Hfresh.
    { intros c' Hin. apply Hnew. apply list_elem_of_fmap. by exists (node, c'). }
    destruct (decide (node = source)) as [-> |Hns].
    { rewrite bool_decide_eq_false_2 in HG1 by (intros H; by apply H).
      simpl in HG1. injection HG1 as <-. split.
      - intros [(-> & Hv & Hc & Hin)|[He Hall]].
        + left. repeat split; try done. by right.
        + right. split; [done|]. intros c' Hu [[= -> ->]|Hin]%elem_of_cons; [by left|].
          by apply Hall.
      - intros [(-> & Hv & Hc & [[= -> ->]|Hin]%elem_of_cons)|[He Hall]]; [done| |].
        + left. tauto.
        + right. split; [done|]. intros c' Hu Hin. apply Hall; [done | by right]. }
    rewrite bool_decide_eq_true_2 in HG1 by congruence. simpl in HG1.
    destruct (decide (cost = maxsize)) as [-> |Hcm].
    { rewrite bool_decide_eq_false_2 in HG1 by (intros H; by apply H).
      injection HG1 as <-. split.
      - intros [(-> & Hv & Hc & Hin)|[He Hall]].
        + left. repeat split; try done. by right.
        + right. split; [done|]. intros c' Hu [[= -> ->]|Hin]%elem_of_cons; [by right|].
          by apply Hall.
      - intros [(-> & Hv & Hc & [[= -> ->]|Hin]%elem_of_cons)|[He Hall]]; [done| |].
        + left. tauto.
        + right. split; [done|]. intros c' Hu Hin. apply Hall; [done | by right]. }
    rewrite bool_decide_eq_true_2 in HG1 by done. injection HG1 as <-.
    rewrite nx_add_edge_edge. split.
    + intros [(-> & Hv & Hc & Hin)|[He Hall]].
      * left. repeat split; try done. by right.
      * case_decide as Hcase.
        -- destruct Hcase as [-> ->]. subst c. left. repeat split; try done. left.
        -- right. split; [done|].
           intros c' Hu [[= -> ->]|Hin]%elem_of_cons; [tauto | by apply Hall].
    + intros [(-> & Hv & Hc & [[= -> ->]|Hin]%elem_of_cons)|[He Hall]].
      * right. rewrite decide_True by done. split; [done|].
        intros c' _ Hin. by destruct (Hfresh c').
      * left. tauto.
      * right. case_decide as Hcase.
        -- destruct Hcase as [-> ->]. destruct (Hall cost eq_refl); [left| |]; done.
        -- split; [done|]. intros c' Hu Hin. apply Hall; [done | by right].
Qed.

Lemma final_graph_edges distances source G :
  NoDup (dict_keys distances) ->
  Console.final_graph distances (Some source) = Ok G ->
  forall u v c,
    edge G u v c <->
    u = source /\ v ≠ source /\ c ≠ maxsize /\ dict_get distances v = Some c.
Proof.
  intros Hnd HG u v c. unfold Console.final_graph in HG.
  rewrite (final_graph_fold source distances [] G Hnd HG u v c). split.
  - intros [(-> & Hv & Hc & Hin)|[(adj & ? & _) _]]; [|done].
    repeat split; try done. by apply elem_of_dict_get.
  - intros (-> & Hv & Hc & Hget). left. repeat split; try done.
    by apply dict_get_elem_of.
Qed.

(** X14.  [draw_main_graph] raises nothing on any graph, and the graph it
    draws has exactly the edges of the graph read, with their weights; its
    nodes are the end points of these edges, so a vertex that no edge
    leaves or enters is not in the figure. *)
Theorem main_graph_edges graph :
  exists G,
    Console.main_graph graph = Ok G /\
    (forall u v w, edge G u v w <-> edge graph u v w) /\
    (forall x, x ∈ dict_keys G <-> exists y w, edge graph x y w \/ edge graph y x w).
Proof.
  destruct (main_graph_total graph) as [G HG]. exists G. split; [done|].
  destruct (main_graph_drawn graph G HG) as [Hedges Hnodes]. split.
  - intros u v w. rewrite Hedges. tauto.
  - intros x. rewrite Hnodes. split.
    + intros (u & v & c & _ & He & [-> | ->]); [exists v, c; by left | exists u, c; by right].
    + intros (y & w & [He|He]); [exists x, y, w | exists y, x, w]; tauto.
Qed.

(** X15.  On a graph with non-negative weights, the graph that
    [draw_final_graph] builds from the distances [dijkstra] returns for a
    source has an edge exactly from the source to every other vertex whose
    least total weight of a path from the source is below [sys.maxsize],
    labelled with that weight; it has no other edge. *)
Theorem final_graph_shortest graph source d :
  graph_ok graph ->
  source ∈ dict_keys graph ->
  dijkstra graph source = Some (Ok d) ->
  exists G,
    Console.final_graph d (Some source) = Ok G /\
    forall u v w,
      edge G u v w <->
      u = source /\ v ≠ source /\ w < maxsize /\ min_distance graph source v w.
Proof.
  intros Hok Hsrc Hrun.
  destruct (dijkstra_returns graph source Hok Hsrc) as (d' & Hd' & Hinv).
  assert (d' = d) as -> by congruence.
  destruct (final_graph_total d source) as [G HG]. exists G. split; [done|].
  intros u v w. rewrite (final_graph_edges d source G); [|by rewrite (inv_keys _ _ _ _ Hinv); apply Hok|done].
  split.
  - intros (-> & Hv & Hw & Hget).
    pose proof (inv_range _ _ _ _ Hinv _ _ Hget) as Hr.
    assert (w < maxsize) as Hlt by lia.
    repeat split; try done; [by apply (inv_walk _ _ _ _ Hinv)|].
    intros a Hwalk.
    destruct (dijkstra_inv_lower graph source Hok d v a Hinv Hwalk) as (x & Hx & Hle & _).
    assert (x = w) as -> by congruence. done.
  - intros (-> & Hv & Hlt & [Hwalk Hmin]).
    destruct (dijkstra_inv_lower graph source Hok d v w Hinv Hwalk) as (x & Hx & Hle & Hr).
    pose proof (Hmin x (inv_walk _ _ _ _ Hinv _ _ Hx ltac:(lia))).
    assert (x = w) as -> by lia. repeat split; try done. lia.
Qed.

Lemma final_graph_shortest_witness :
  exists G,
    Console.final_graph [("A", 0); ("B", 4); ("C", 6)]%string (Some "A"%string) = Ok G /\
    forall u v w,
      edge G u v w <->
      u = "A"%string /\ v ≠ "A"%string /\ w < maxsize /\
      min_distance scenario_graph "A" v w.
Proof.
  apply (final_graph_shortest scenario_graph "A" [("A", 0); ("B", 4); ("C", 6)]%string).
  - apply graph_okb_ok. vm_compute. reflexivity.
  - left.
  - vm_compute. reflexivity.
Defined.

(** ** What the display functions print *)

Lemma foldIO_events {A : Type} (l : list A) (body : A -> Console.io unit)
    (f : A -> list Console.event) lines :
  (forall a lines, a ∈ l -> body a lines = (f a, Console.Returns tt lines)) ->
  Console.for_ l body lines = (l ≫= f, Console.Returns tt lines).
Proof.
  unfold Console.for_. induction l as [|a l IH]; intros Hbody; simpl; [done|].
  rewrite (io_bind_returns _ _ lines (f a) tt lines) by (apply Hbody; left).
  rewrite IH by (intros a' lines' Ha'; apply Hbody; by right). done.
Qed.

Lemma list_bind_singleton {A B : Type} (f : A -> B) (l : list A) :
  l ≫= (fun a => [f a]) = f <$> l.
Proof. induction l as [|a l IH]; simpl; [done | by f_equal]. Qed.

Lemma seq_bind_imap {A B : Type} (f : nat -> A -> list B) (l : list A) (d : A) :
  seq 0 (length l) ≫= (fun i => f i (default d (l !! i))) = mjoin (imap f l).
Proof.
  revert f. induction l as [|a l IH]; intros f; [done|].
  cbn [length seq]. rewrite <- fmap_S_seq. simpl.
  f_equal. rewrite <- (IH (f ∘ S)). by rewrite list_fmap_bind.
Qed.

Lemma io_bind_print_noend {B : Type} text (k : unit -> Console.io B) lines :
  (Console.print_noend text ≫= k) lines
  = (Console.PrintNoEnd text :: (k tt lines).1, (k tt lines).2).
Proof. apply io_bind_emit. Qed.

Lemma print_eq text lines :
  Console.print text lines = ([Console.Print text], Console.Returns tt lines).
Proof. done. Qed.

Lemma print_noend_eq text lines :
  Console.print_noend text lines = ([Console.PrintNoEnd text], Console.Returns tt lines).
Proof. done. Qed.

Section display_floyd_events.
Context {T : Console.text_ops}.

Lemma print_matrix_eq vertices m lines :
  square (length vertices) m ->
  Console.print_matrix vertices m lines = (table vertices m, Console.Returns tt lines).
Proof.
  intros Hsq. unfold Console.print_matrix, table.
  rewrite io_bind_print_noend.
  rewrite (io_bind_returns _ _ lines
             ((fun v => Console.PrintNoEnd (Console.rjust 6 v)) <$> vertices) tt lines).
  2:{ rewrite (foldIO_events _ _ (fun v => [Console.PrintNoEnd (Console.rjust 6 v)]));
        [|done]. by rewrite list_bind_singleton. }
  rewrite io_bind_print.
  rewrite (foldIO_events _ _
             (fun i => Console.PrintNoEnd
                         (Console.rjust 5 (default EmptyString (vertices !! i)))
                       :: ((fun j => Console.PrintNoEnd (cell_text (cell m i j)))
                             <$> seq 0 (length vertices))
                       ++ [Console.Print EmptyString])).
  2:{ intros i lines' Hi%elem_of_seq.
      destruct (lookup_lt_is_Some_2 vertices i) as [vi Hvi]; [lia|].
      rewrite (list_getitem_Some _ _ _ Hvi), io_bind_of_result_Ok, Hvi.
      rewrite io_bind_print_noend.
      rewrite (io_bind_returns _ _ lines'
                 ((fun j => Console.PrintNoEnd (cell_text (cell m i j)))
                    <$> seq 0 (length vertices)) tt lines'); [done|].
      rewrite (foldIO_events _ _
                 (fun j => [Console.PrintNoEnd (cell_text (cell m i j))])).
      - by rewrite list_bind_singleton.
      - intros j lines'' Hj%elem_of_seq.
        rewrite (get_cell_cell (length vertices)) by (done || lia).
        rewrite io_bind_of_result_Ok. unfold cell_text. by case_decide. }
  simpl. do 4 f_equal.
  apply (seq_bind_imap
           (fun i vi =>
              Console.PrintNoEnd (Console.rjust 5 vi)
              :: ((fun j => Console.PrintNoEnd (cell_text (cell m i j)))
                    <$> seq 0 (length vertices))
              ++ [Console.Print EmptyString]) vertices EmptyString).
Qed.

End display_floyd_events.

Lemma zip_seq_bind_imap {A B : Type} (f : nat -> A -> list B) (l : list A) :
  zip (seq 0 (length l)) l ≫= (fun '(i, a) => f i a) = mjoin (imap f l).
Proof.
  assert (forall k, zip (seq k (length l)) l ≫= (fun '(i, a) => f i a)
                    = mjoin (imap (fun i => f (k + i)%nat) l)) as Hk; [|apply (Hk O)].
  induction l as [|a l IH]; intros k; [done|]. simpl. rewrite Nat.add_0_r. f_equal.
  rewrite IH. f_equal. apply imap_ext. intros i x _. simpl. f_equal. lia.
Qed.

Section display_floyd_all.
Context {T : Console.text_ops}.

Lemma display_floyd_eq dist vertices all_matrices lines :
  square (length vertices) dist ->
  Forall (square (length vertices)) all_matrices ->
  (length all_matrices <= S (length vertices))%nat ->
  Console.display_floyd dist vertices all_matrices lines
  = (Console.Print (Console.nl +:+ "=====> FLOYD-WARSHALL STEP-BY-STEP OUTPUT <=====")
     :: mjoin (imap (fun idx m =>
                       Console.Print (snapshot_title vertices idx) :: table vertices m)
                    all_matrices)
     ++ Console.Print (Console.nl +:+ "=====> FLOYD-WARSHALL FINAL OUTPUT <=====")
     :: Console.Print "All Pairs Shortest Path Matrix:"
     :: table vertices dist,
     Console.Returns tt lines).
Proof.
  intros Hsq Hall Hlen. unfold Console.display_floyd. rewrite io_bind_print.
  rewrite (io_bind_returns _ _ lines
             (mjoin (imap (fun idx m =>
                             Console.Print (snapshot_title vertices idx)
                             :: table vertices m) all_matrices)) tt lines).
  2:{ rewrite (foldIO_events _ _
                 (fun '(idx, m) =>
                    Console.Print (snapshot_title vertices idx) :: table vertices m)).
      - f_equal. apply (zip_seq_bind_imap
                          (fun idx m => Console.Print (snapshot_title vertices idx)
                                        :: table vertices m)).
      - intros [idx m] lines' Hin.
        apply elem_of_zip_l in Hin as Hidx. apply elem_of_zip_r in Hin as Hm.
        apply elem_of_seq in Hidx. rewrite Forall_forall in Hall.
        destruct idx as [|k].
        + rewrite decide_True by done. rewrite io_bind_print.
          rewrite (print_matrix_eq vertices m lines') by auto. done.
        + rewrite decide_False by done.
          destruct (lookup_lt_is_Some_2 vertices k) as [v Hv]; [lia|].
          replace (S k - 1)%nat with k by lia.
          rewrite (list_getitem_Some _ _ _ Hv).
          rewrite io_bind_eq, io_bind_of_result_Ok. simpl.
          rewrite (print_matrix_eq vertices m lines') by auto.
          unfold snapshot_title. rewrite Hv. done. }
  rewrite !io_bind_print. rewrite (print_matrix_eq vertices dist lines) by done.
  done.
Qed.

End display_floyd_all.

(** X16.  On a dictionary without a repeated key [display_dijkstra] reads
    nothing and raises nothing: it prints its two title lines and then one
    line for each entry, in the order of the dictionary, with the distance
    as a decimal number, [sys.maxsize] included: a vertex that is not
    reached is shown with the number 9223372036854775807, not as INF. *)
Theorem display_dijkstra_lines distances source lines :
  NoDup (dict_keys distances) ->
  Console.display_dijkstra distances source lines
  = (Console.Print (Console.nl +:+ "=====> DIJKSTRA'S FINAL OUTPUT <=====")
     :: Console.Print ("Source Vertex: " +:+ source)
     :: ((fun '(v, d) =>
            Console.Print ("Shortest distance from " +:+ source +:+ " to " +:+ v
                           +:+ " = " +:+ pretty d)) <$> distances),
     Console.Returns tt lines).
Proof.
  intros Hnd. unfold Console.display_dijkstra. rewrite !io_bind_print.
  rewrite (foldIO_events _ _
             (fun v => [Console.Print ("Shortest distance from " +:+ source +:+ " to "
                                       +:+ v +:+ " = "
                                       +:+ pretty (default 0 (dict_get distances v)))])).
  2:{ intros v lines' [d Hd]%dict_get_is_Some.
      rewrite (getitem_Some _ _ _ Hd), io_bind_of_result_Ok, Hd. reflexivity. }
  simpl. do 3 f_equal. unfold dict_keys.
  assert (forall l : dict Z,
            (forall kv, kv ∈ l -> dict_get distances kv.1 = Some kv.2) ->
            l.*1 ≫= (fun v =>
                       [Console.Print ("Shortest distance from " +:+ source +:+ " to "
                                       +:+ v +:+ " = "
                                       +:+ pretty (default 0 (dict_get distances v)))])
            = (fun '(v, d) =>
                 Console.Print ("Shortest distance from " +:+ source +:+ " to " +:+ v
                                +:+ " = " +:+ pretty d)) <$> l) as Hall.
  { induction l as [|[v d] l IH]; intros Hget; [done|]. simpl.
    pose proof (Hget (v, d) ltac:(left)) as Hv. simpl in Hv. rewrite Hv. simpl. f_equal.
    apply IH. intros kv Hin. apply Hget. by right. }
  apply Hall. intros [v d] Hin. by apply elem_of_dict_get.
Qed.

Lemma display_dijkstra_lines_witness :
  Console.display_dijkstra [("A", 0); ("B", 4); ("C", maxsize)]%string "A" ["5"]%string
  = (Console.Print (Console.nl +:+ "=====> DIJKSTRA'S FINAL OUTPUT <=====")
     :: Console.Print ("Source Vertex: " +:+ "A")
     :: ((fun '(v, d) =>
            Console.Print ("Shortest distance from " +:+ "A" +:+ " to " +:+ v
                           +:+ " = " +:+ pretty d))
           <$> [("A", 0); ("B", 4); ("C", maxsize)]%string),
     Console.Returns tt ["5"]%string).
Proof.
  apply (display_dijkstra_lines [("A", 0); ("B", 4); ("C", maxsize)]%string "A" ["5"]%string).
  apply (bool_decide_unpack (NoDup ["A"; "B"; "C"]%string)). vm_compute. exact I.
Defined.

(** X17.  On the matrix and the snapshots that [floyd_warshall] returns,
    [display_floyd] reads nothing and raises nothing.  It prints one table
    for each snapshot, in order, snapshot 0 under the title of the initial
    matrix and snapshot [k + 1] under a title that names vertex [k], and
    then the final matrix; a table is the row of the labels and one row
    for each vertex, in which a cell equal to [sys.maxsize] reads INF and
    any other cell is the number in a field of six. *)
Theorem display_floyd_tables {T : Console.text_ops} graph vertices dist all_matrices lines :
  floyd_warshall graph vertices = Ok (dist, all_matrices) ->
  Console.display_floyd dist vertices all_matrices lines
  = (Console.Print (Console.nl +:+ "=====> FLOYD-WARSHALL STEP-BY-STEP OUTPUT <=====")
     :: mjoin (imap (fun idx m =>
                       Console.Print (snapshot_title vertices idx) :: table vertices m)
                    all_matrices)
     ++ Console.Print (Console.nl +:+ "=====> FLOYD-WARSHALL FINAL OUTPUT <=====")
     :: Console.Print "All Pairs Shortest Path Matrix:"
     :: table vertices dist,
     Console.Returns tt lines).
Proof.
  intros (Hsq & Hall & Hlen)%floyd_warshall_shapes.
  apply display_floyd_eq; [done..|lia].
Qed.

Lemma display_floyd_tables_witness :
  Console.display_floyd (T := Console.ascii_text) scenario_dist scenario_labels
    scenario_snapshots []
  = (Console.Print (Console.nl +:+ "=====> FLOYD-WARSHALL STEP-BY-STEP OUTPUT <=====")
     :: mjoin (imap (fun idx m =>
                       Console.Print (snapshot_title scenario_labels idx)
                       :: table (T := Console.ascii_text) scenario_labels m)
                    scenario_snapshots)
     ++ Console.Print (Console.nl +:+ "=====> FLOYD-WARSHALL FINAL OUTPUT <=====")
     :: Console.Print "All Pairs Shortest Path Matrix:"
     :: table (T := Console.ascii_text) scenario_labels scenario_dist,
     Console.Returns tt []).
Proof.
  apply (display_floyd_tables (T := Console.ascii_text) scenario_graph scenario_labels
           scenario_dist scenario_snapshots []).
  vm_compute. reflexivity.
Defined.

(** ** A graph typed without a mistake *)

Lemma returns_ret {A : Type} (a : A) lines : returns (mret a) lines a lines.
Proof. by eexists. Qed.

Lemma returns_bind {A B : Type} (p : Console.io A) (k : A -> Console.io B)
    lines a rest b rest' :
  returns p lines a rest -> returns (k a) rest b rest' ->
  returns (p ≫= k) lines b rest'.
Proof.
  intros [out Hp] [out' Hk]. exists (out ++ out').
  by rewrite (io_bind_returns _ _ _ _ _ _ Hp), Hk.
Qed.

Lemma returns_print text lines : returns (Console.print text) lines tt lines.
Proof. by eexists. Qed.

Lemma returns_of_result {A : Type} (a : A) lines :
  returns (Console.of_result (Ok a)) lines a lines.
Proof. by eexists. Qed.

Lemma returns_read_line line rest : returns Console.read_line (line :: rest) line rest.
Proof. by eexists. Qed.

Lemma returns_while_true {S A : Type} (body : S -> Console.io (S + A)) s lines a rest :
  (forall s, advances 1 (body s)) ->
  returns (body s) lines (inr a) rest ->
  returns (Console.while_true body s) lines a rest.
Proof.
  intros Hadv [out Hb]. exists out. rewrite while_true_unfold by done.
  rewrite (io_bind_returns _ _ _ _ _ _ Hb). simpl. by rewrite app_nil_r.
Qed.

Section typed_graph.
Context {T : Console.text_ops}.

Lemma returns_safe_int msg val n rest :
  Console.isdigit val = true -> Console.int val = Ok n ->
  returns (Console.safe_int msg) (val :: rest) n rest.
Proof. intros Hd Hn. eexists. by rewrite safe_int_unfold, Hd, Hn. Qed.

Lemma returns_safe_str msg val rest :
  Console.isalpha val = true ->
  returns (Console.safe_str msg) (val :: rest) val rest.
Proof. intros Ha. eexists. by rewrite safe_str_unfold, Ha. Qed.

Lemma returns_vertex_loop (prompt : Z -> string) turns labels acc rest :
  length turns = length labels ->
  Forall (fun v => Console.isalpha v = true) labels ->
  returns (Console.foldIO (fun vertices i =>
                             label ← Console.safe_str (prompt i);
                             mret (add_vertex vertices label)) turns acc)
          (labels ++ rest) (acc ++ labels) rest.
Proof.
  revert turns acc. induction labels as [|v labels IH]; intros [|i turns] acc Hlen Hall;
    try done.
  - simpl. rewrite app_nil_r. apply returns_ret.
  - apply Forall_cons in Hall as [Hv Hall]. simpl.
    eapply returns_bind.
    { eapply returns_bind; [by apply returns_safe_str | apply returns_ret]. }
    unfold add_vertex. replace (acc ++ v :: labels) with ((acc ++ [v]) ++ labels)
      by (by rewrite <- app_assoc).
    apply IH; [by injection Hlen | done].
Qed.

Lemma returns_edge_line vertices graph line rest u v sw w :
  built vertices graph ->
  Console.split line = [u; v; sw] -> u ∈ vertices -> v ∈ vertices ->
  Console.isdigit sw = true -> Console.int sw = Ok (Z.of_N w) ->
  exists graph',
    add_edge vertices graph u v w = Ok (Some graph') /\
    returns (Console.edge_line vertices graph) (line :: rest) (inr graph') rest.
Proof.
  intros Hb Hsplit Hu Hv Hd Hw.
  assert (is_Some (dict_get graph u)) as [adj Hadj].
  { apply dict_get_is_Some. by apply (built_keys _ _ Hb). }
  exists (dict_set graph u (dict_set adj v (Z.of_N w))). split.
  - unfold add_edge.
    rewrite (bool_decide_eq_false_2 (u ∉ vertices)) by tauto.
    rewrite (bool_decide_eq_false_2 (v ∉ vertices)) by tauto. simpl.
    by rewrite (getitem_Some _ _ _ Hadj), bind_Ok.
  - unfold Console.edge_line. eapply returns_bind; [apply returns_read_line|].
    rewrite Hsplit.
    rewrite (bool_decide_eq_false_2 (u ∉ vertices)) by tauto.
    rewrite (bool_decide_eq_false_2 (v ∉ vertices)) by tauto. simpl.
    rewrite Hd, Hw, (getitem_Some _ _ _ Hadj). simpl.
    eapply returns_bind; [apply returns_of_result|].
    eapply returns_bind; [apply returns_of_result|]. apply returns_ret.
Qed.

Lemma returns_edge_loop vertices (turns : list Z) graph edge_lines edges rest :
  built vertices graph ->
  length turns = length edge_lines ->
  Forall2 (fun line '(u, v, w) =>
             exists sw, Console.split line = [u; v; sw] /\
                        u ∈ vertices /\ v ∈ vertices /\
                        Console.isdigit sw = true /\
                        Console.int sw = Ok (Z.of_N w)) edge_lines edges ->
  exists graph',
    read_edges vertices graph edges = Ok graph' /\
    returns (Console.foldIO (fun graph _ =>
                               Console.while_true (Console.edge_line vertices) graph)
                            turns graph)
            (edge_lines ++ rest) graph' rest.
Proof.
  intros Hb Hlen Hall. revert turns graph Hb Hlen.
  induction Hall as [|line [[u v] w] edge_lines edges (sw & Hs & Hu & Hv & Hd & Hw) _ IH];
    intros [|i turns] graph Hb Hlen; try done.
  - exists graph. split; [done|]. apply returns_ret.
  - destruct (returns_edge_line vertices graph line (edge_lines ++ rest) u v sw w)
      as (g1 & Hadd & Hret); try done.
    destruct (add_edge_built vertices graph u v w Hb) as (r & Hr & Hb1).
    rewrite Hadd in Hr. injection Hr as <-. simpl in Hb1.
    destruct (IH turns g1 Hb1) as (g2 & Hread & Hloop); [by injection Hlen|].
    exists g2. split.
    + unfold read_edges in *. rewrite foldM_cons, Hadd. by rewrite !bind_Ok.
    + simpl. eapply returns_bind; [|exact Hloop].
      apply returns_while_true; [apply advances_edge_line | done].
Qed.

End typed_graph.

(** X18.  A graph typed without a mistake is read as typed.  When the
    input is a count of vertices, that many labels passing [isalpha], a
    count of edges, and that many lines that [split] into two of the
    labels and a weight passing [isdigit], [input_graph] on the console
    reads exactly these lines, leaves the rest of the input unread, and
    returns the labels as typed with the graph that the edge loop builds
    from the edges typed. *)
Theorem console_input_graph_reads {T : Console.text_ops}
    sn labels se edge_lines edges rest :
  Console.isdigit sn = true ->
  Console.int sn = Ok (Z.of_nat (length labels)) ->
  Forall (fun v => Console.isalpha v = true) labels ->
  Console.isdigit se = true ->
  Console.int se = Ok (Z.of_nat (length edge_lines)) ->
  Forall2 (fun line '(u, v, w) =>
             exists sw, Console.split line = [u; v; sw] /\
                        u ∈ labels /\ v ∈ labels /\
                        Console.isdigit sw = true /\
                        Console.int sw = Ok (Z.of_N w)) edge_lines edges ->
  exists graph,
    input_graph labels edges = Ok (graph, labels) /\
    returns Console.input_graph (sn :: labels ++ se :: edge_lines ++ rest)
      (graph, labels) rest.
Proof.
  intros Hdn Hn Hlabels Hde He Hedges.
  destruct (returns_edge_loop labels (Console.range (Z.of_nat (length edge_lines)))
              (empty_graph labels) edge_lines edges rest) as (graph & Hread & Hloop).
  { apply built_empty_graph. }
  { unfold Console.range. by rewrite length_fmap, length_seq, Nat2Z.id. }
  { done. }
  exists graph. split.
  { unfold input_graph. rewrite read_vertices_eq. by rewrite Hread. }
  unfold Console.input_graph.
  eapply returns_bind; [apply returns_print|].
  eapply returns_bind; [by apply returns_safe_int|].
  eapply returns_bind; [apply returns_print|].
  eapply returns_bind.
  { apply (returns_vertex_loop (fun i => "Vertex " +:+ pretty (i + 1) +:+ ": ")%string
             _ labels [] (se :: edge_lines ++ rest)); [|done].
    unfold Console.range. by rewrite length_fmap, length_seq, Nat2Z.id. }
  simpl. eapply returns_bind; [by apply returns_safe_int|].
  eapply returns_bind; [apply returns_print|].
  eapply returns_bind; [exact Hloop|]. apply returns_ret.
Qed.

Lemma console_input_graph_reads_witness :
  exists graph,
    input_graph ["A"; "B"; "C"]%string
      [("A", "B", 4%N); ("B", "C", 2%N); ("A", "C", 10%N)]%string
    = Ok (graph, ["A"; "B"; "C"]%string) /\
    returns (Console.input_graph (T := Console.ascii_text))
      ("3"%string :: ["A"; "B"; "C"]%string
       ++ "3"%string :: ["A B 4"; "B C 2"; "A  C 010"]%string ++ ["5"]%string)
      (graph, ["A"; "B"; "C"]%string) ["5"]%string.
Proof.
  apply (console_input_graph_reads (T := Console.ascii_text) "3" ["A"; "B"; "C"]%string "3"
           ["A B 4"; "B C 2"; "A  C 010"]%string
           [("A", "B", 4%N); ("B", "C", 2%N); ("A", "C", 10%N)]%string ["5"]%string).
  - reflexivity.
  - reflexivity.
  - repeat constructor.
  - reflexivity.
  - reflexivity.
  - repeat constructor.
    + exists "4"%string. repeat split; try reflexivity; apply list_elem_of_In; simpl; tauto.
    + exists "2"%string. repeat split; try reflexivity; apply list_elem_of_In; simpl; tauto.
    + exists "010"%string. repeat split; try reflexivity; apply list_elem_of_In; simpl; tauto.
Defined.
